(** * booking-scraper: a shallow embedding of the scraper and its HTTP facade

    Sources embedded here:
    - [utils.js]      : [createDiagnostics] / [addStep], [isValidBookingUrl]
    - [extractors.js] : [extractRating], [extractFeatures], [extractRooms],
                        [extractReviews], [extractNearbyPlaces],
                        [extractHotelData]
    - [scraper.js]    : [loadDynamicContent], [scrapeHotelData]
    - [server.js]     : the [POST /scrape] handler

    JavaScript strings are sequences of UTF-16 code units; they are modelled
    as [list N].  The browser, the page and the DOM are the environment: every
    answer they give is a field of an oracle record, and the theorems
    quantify over all oracles. *)

From Stdlib Require Import ZArith NArith List String Ascii Lia Bool.
From stdpp Require Import base list gmap strings pretty.

Local Open Scope N_scope.

(** ** JavaScript strings *)

Module JsString.

Abbreviation jstring := (list N).

(** An ASCII literal of the source, as code units. *)
Definition lit (s : string) : jstring :=
  List.map N_of_ascii (list_ascii_of_string s).

(** [s.startsWith(p)] *)
Fixpoint starts_with (p s : jstring) : bool :=
  match p, s with
  | [], _ => true
  | _ :: _, [] => false
  | a :: p', b :: s' => (a =? b) && starts_with p' s'
  end.

(** [s.includes(needle)]: some suffix of [s] starts with [needle]. *)
Fixpoint includes (s needle : jstring) : bool :=
  starts_with needle s ||
  match s with
  | [] => false
  | _ :: s' => includes s' needle
  end.

(** [s.replace(pat, rep)] with a string pattern (or a regular expression
    that is a plain word without the [g] flag): only the first, leftmost
    occurrence is replaced.  [rep] holds no [$]. *)
Fixpoint replace_first (pat rep s : jstring) : jstring :=
  if starts_with pat s then rep ++ drop (length pat) s
  else match s with
       | [] => []
       | c :: s' => c :: replace_first pat rep s'
       end.

(** Number of positions of [s] at which [pat] occurs. *)
Fixpoint occurrences (pat s : jstring) : nat :=
  ((if starts_with pat s then 1 else 0) +
   match s with
   | [] => 0
   | _ :: s' => occurrences pat s'
   end)%nat.

(** ECMAScript [WhiteSpace] and [LineTerminator]: what [\s] matches and
    what [trim] removes. *)
Definition is_ws (c : N) : bool :=
  (9 <=? c) && (c <=? 13) || (c =? 32) || (c =? 0xA0) || (c =? 0x1680)
  || (0x2000 <=? c) && (c <=? 0x200A)
  || (c =? 0x2028) || (c =? 0x2029) || (c =? 0x202F) || (c =? 0x205F)
  || (c =? 0x3000) || (c =? 0xFEFF).

(** [\d] *)
Definition is_digit (c : N) : bool := (48 <=? c) && (c <=? 57).

(** [LineTerminator]: what [.] does not match. *)
Definition is_line_terminator (c : N) : bool :=
  (c =? 10) || (c =? 13) || (c =? 0x2028) || (c =? 0x2029).

Fixpoint drop_while (f : N -> bool) (s : jstring) : jstring :=
  match s with
  | [] => []
  | c :: s' => if f c then drop_while f s' else s
  end.

Fixpoint take_while (f : N -> bool) (s : jstring) : jstring :=
  match s with
  | [] => []
  | c :: s' => if f c then c :: take_while f s' else []
  end.

Definition drop_while_end (f : N -> bool) (s : jstring) : jstring :=
  rev (drop_while f (rev s)).

(** [s.trim()] *)
Definition trim (s : jstring) : jstring :=
  drop_while_end is_ws (drop_while is_ws s).

(** Matching one pattern letter under the [i] flag (no [u] flag): both
    sides are canonicalised with [toUpperCase], and a code unit above 127 is
    never mapped onto an ASCII one, so an ASCII letter of the pattern
    matches exactly its two ASCII cases. *)
Definition ascii_upper (c : N) : N :=
  if (97 <=? c) && (c <=? 122) then c - 32 else c.

Definition ci_eq (p c : N) : bool := ascii_upper p =? ascii_upper c.

(** A literal ASCII word of a pattern with the [i] flag, matched at the
    start of [s]. *)
Fixpoint starts_with_ci (p s : jstring) : bool :=
  match p, s with
  | [], _ => true
  | _ :: _, [] => false
  | a :: p', b :: s' => ci_eq a b && starts_with_ci p' s'
  end.

(** The decimal value of a run of ASCII digits. *)
Definition digits_value (s : jstring) : N :=
  fold_left (fun acc c => 10 * acc + (c - 48)) s 0.

End JsString.
Export JsString.

(** ** Numbers

    [parseInt] returns a Number, which is a double: an integer below 2^53 is
    kept as it is; a larger one is rounded to the nearest double, to the one
    with the even significand when it lies half way between two; and what
    rounds to 2^1024 or more is [Infinity]. *)

Module JsNumber.

(** The double nearest to the natural number [n]; [None] is [Infinity].
    From 2^53 on the doubles around [n] are the multiples of [2 ^ e]. *)
Definition round_double (n : N) : option N :=
  if n <? 2 ^ 53 then Some n
  else
    let e := N.log2 n - 52 in
    let q := n / 2 ^ e in
    let r := n mod 2 ^ e in
    let half := 2 ^ (e - 1) in
    let q' := if (half <? r) || ((r =? half) && N.odd q) then q + 1 else q in
    let v := q' * 2 ^ e in
    if 2 ^ 1024 <=? v then None else Some v.

End JsNumber.
Export JsNumber.

(** ** JavaScript values, errors and results *)

(** The values a JSON request body or a diagnostic payload can hold.  Numbers
    are the integer-valued ones. *)
#[warnings="-register-all"]
Inductive jsval :=
| JUndefined
| JNull
| JBool (b : bool)
| JNum (n : Z)
| JStr (s : jstring)
| JArr (l : list jsval)
| JObj (o : gmap jstring jsval).

(** [ToBoolean] *)
Definition truthy (v : jsval) : bool :=
  match v with
  | JUndefined | JNull => false
  | JBool b => b
  | JNum n => negb (n =? 0)%Z
  | JStr s => negb (Nat.eqb (length s) 0)
  | JArr _ | JObj _ => true
  end.

(** A thrown [Error] object: its [name] and [message]. *)
Record jserror := mkError { err_name : jstring; err_message : jstring }.

(** The completion of a call: a value, or a thrown error. *)
Inductive outcome (A : Type) :=
| Ret (a : A)
| Throw (e : jserror).
Arguments Ret {A} a.
Arguments Throw {A} e.

(** [new Error(msg)] and the engine's [TypeError]. *)
Definition Error (msg : jstring) : jserror := mkError (lit "Error") msg.
Definition TypeError (msg : jstring) : jserror := mkError (lit "TypeError") msg.

(** [Array.prototype.includes] with a string argument: some element is that
    string (SameValueZero). *)
Definition is_str (s : jstring) (v : jsval) : bool :=
  match v with
  | JStr s' => bool_decide (s' = s)
  | _ => false
  end.

Definition arr_includes (l : list jsval) (s : jstring) : bool := existsb (is_str s) l.

(** The object's own enumerable properties, as the spread [...v] copies
    them: the fields of an object, the indexed elements of an array, the
    indexed code units of a string, nothing for other values. *)
Definition index_key (i : nat) : jstring := lit (pretty (N.of_nat i)).

Definition own_props (v : jsval) : gmap jstring jsval :=
  match v with
  | JObj o => o
  | JArr l => list_to_map (imap (fun i x => (index_key i, x)) l)
  | JStr s => list_to_map (imap (fun i c => (index_key i, JStr [c])) s)
  | _ => ∅
  end.

(** [const { k } = v] for a property name that no prototype defines: throws
    on [undefined] and [null], is [undefined] when absent. *)
Definition get_prop (v : jsval) (k : jstring) : outcome jsval :=
  match v with
  | JUndefined =>
      Throw (TypeError (lit "Cannot destructure property '" ++ k
                          ++ lit "' of 'req.body' as it is undefined."))
  | JNull =>
      Throw (TypeError (lit "Cannot destructure property '" ++ k
                          ++ lit "' of 'req.body' as it is null."))
  | JObj o => Ret (default JUndefined (o !! k))
  | _ => Ret JUndefined
  end.

(** ** utils.js *)

Module Utils.

(** The hotel-path marker. *)
Definition marker : jstring := lit "booking.com/hotel".

(** [function isValidBookingUrl(url) { return url && url.includes("booking.com/hotel") }]
    A falsy [url] is returned as it is; a string or an array has an
    [includes] method; on any other truthy value the call throws. *)
Definition isValidBookingUrl (url : jsval) : outcome jsval :=
  if truthy url then
    match url with
    | JStr s => Ret (JBool (includes s marker))
    | JArr l => Ret (JBool (arr_includes l marker))
    | _ => Throw (TypeError (lit "url.includes is not a function"))
    end
  else Ret url.

(** The diagnostics object of [createDiagnostics]. *)
Record diagnostics := mkDiagnostics {
  sessionId : jstring;
  steps : list (gmap jstring jsval);
  screenshots : list jsval;
}.

Definition createDiagnostics (sessionId : jstring) : diagnostics :=
  mkDiagnostics sessionId [] [].

(** The object literal [{ timestamp: now, step, ...details }]: the spread
    comes last, so its properties win. *)
Definition step_entry (now step : jstring) (details : jsval) : gmap jstring jsval :=
  own_props details ∪ <[lit "step" := JStr step]> (<[lit "timestamp" := JStr now]> ∅).

(** [addStep(step, details = {})]: [diagnostics.steps.push({...})].
    [now] is [new Date().toISOString()]; an omitted [details] is
    [JUndefined], whose spread is empty like that of the default [{}]. *)
Definition addStep (now step : jstring) (details : jsval) (d : diagnostics) : diagnostics :=
  mkDiagnostics (sessionId d) (steps d ++ [step_entry now step details]) (screenshots d).

End Utils.
Export Utils.

(** ** The built-in [Set] of strings

    A [Set] keeps its elements in insertion order and ignores the insertion
    of an element it already has; spreading it lists the elements in that
    order.  It is modelled by the list of its elements. *)

Module JsSet.
Section JsSet.
Context {A : Type} `{EqDecision A}.

(** [s.has(x)] *)
Definition has (s : list A) (x : A) : bool := bool_decide (x ∈ s).

(** [s.add(x)] *)
Definition add (s : list A) (x : A) : list A :=
if has s x then s else s ++ [x].

(** [new Set(iterable)], then [[...set]] or [Array.from(set)]. *)
Definition of_list (l : list A) : list A := fold_left add l [].

(** [l.filter(item => { if (seen.has(key)) return false; seen.add(key); return true })]
  with [seen] the set built so far. *)
Fixpoint filter_unseen {B : Type} (key : B -> A) (seen : list A) (l : list B) : list B :=
match l with
| [] => []
| x :: l' =>
    if has seen (key x) then filter_unseen key seen l'
    else x :: filter_unseen key (add seen (key x)) l'
end.

End JsSet.
End JsSet.

(** ** extractors.js: the functions evaluated in the page *)

Module Extractors.

Definition comma : jstring := lit ",".
Definition period : jstring := lit ".".
Definition max300 : jstring := lit "max300".
Definition max1024x768 : jstring := lit "max1024x768".
Definition dquote : N := 34.

(** [x || empty] and [x || null] on an optional string ([None] is [null] or
    [undefined]; the empty string is falsy). *)
Definition or_empty (x : option jstring) : jstring := default [] x.

Definition or_null (x : option jstring) : option jstring :=
  match x with
  | Some [] | None => None
  | Some s => Some s
  end.

(** *** extractRating *)

(** What [parseInt(s, 10)] gives on a string of ASCII digits: [NaN] on the
    empty string, else the double nearest to the number written. *)
Inductive jsnum := NaN | Num (n : N) | Infinity.

Definition number_of (d : option N) : jsnum :=
  match d with
  | Some n => Num n
  | None => Infinity
  end.

Definition parseInt_digits (s : jstring) : jsnum :=
  match s with
  | [] => NaN
  | _ => number_of (round_double (digits_value s))
  end.

Definition digit_or_ws (c : N) : bool := is_digit c || is_ws c.

(** [text.match(/[\d\s]+/)]: the leftmost maximal run of digits and white
    space, [None] when there is none. *)
Fixpoint match_digits_ws (s : jstring) : option jstring :=
  match s with
  | [] => None
  | c :: s' => if digit_or_ws c then Some (take_while digit_or_ws s)
               else match_digits_ws s'
  end.

Record rating := mkRating {
  score : option jstring;
  totalReviews : option jsnum;
}.

Definition null_rating : rating := mkRating None None.

(** The document as [extractRating] reads it: the score container, when
    present, with the [textContent] of each of its [div[aria-hidden="true"]]
    in document order.  Each DOM call has an [outcome], so that the
    [try]/[catch] of the source has something to catch. *)
Record rating_dom := mkRatingDom {
  rd_container : outcome (option (outcome (list jstring)));
}.

(** The body of the [try] block. *)
Definition extractRating_try (d : rating_dom) : outcome rating :=
  match rd_container d with
  | Throw e => Throw e
  | Ret None => Ret null_rating
  | Ret (Some (Throw e)) => Throw e
  | Ret (Some (Ret divs)) =>
      let elements := List.map (fun t => replace_first comma period (trim t)) divs in
      let text := or_empty (elements !! 1%nat) in
      let m := match_digits_ws text in
      Ret (mkRating (or_null (elements !! 0%nat))
             (match m with
              | Some m0 => Some (parseInt_digits (List.filter (fun c => negb (is_ws c)) m0))
              | None => None
              end))
  end.

(** The function that [extractRating] hands to [page.evaluate]:
    [try { ... } catch { return { score: null, totalReviews: null } }] *)
Definition extractRating (d : rating_dom) : outcome rating :=
  match extractRating_try d with
  | Ret r => Ret r
  | Throw _ => Ret null_rating
  end.

(** [page.evaluate(fn)] as the caller sees it: the promise is rejected when
    the call does not get through to the page ([reached] throws: the page
    navigated, the execution context was destroyed, the target was closed),
    and is otherwise settled as [fn] completes in the page. *)
Definition page_evaluate {A} (reached : outcome unit) (fn : outcome A) : outcome A :=
  match reached with
  | Ret _ => fn
  | Throw e => Throw e
  end.

(** [async function extractRating(page) { return page.evaluate(...) }]: the
    [try]/[catch] is inside the page, the call is not inside one. *)
Definition extractRating_evaluate (reached : outcome unit) (d : rating_dom)
    : outcome rating :=
  page_evaluate reached (extractRating d).

(** *** extractFeatures *)

(** [spans]: the [textContent] of the selected elements, in document order. *)
Definition extractFeatures (spans : list jstring) : list jstring :=
  JsSet.of_list (List.map trim spans).

(** *** extractReviews *)

Record review := mkReview {
  rv_name : jstring;
  rv_country : jstring;
  rv_text : jstring;
}.

(** One [featuredreview] block: the [textContent] of each of the three
    elements looked up in it, [None] when [querySelector] finds none. *)
Record review_block := mkReviewBlock {
  rb_name : option jstring;
  rb_country : option jstring;
  rb_text : option jstring;
}.

(** The two character classes of the pattern that [replace] removes with
    the [g] flag: white space, the straight double quote and the two
    guillemets in both; the left curly quote U+201C only in the leading
    class, the right curly quote U+201D only in the trailing one. *)
Definition lead_quote (c : N) : bool :=
  is_ws c || (c =? 0x201C) || (c =? dquote) || (c =? 0xAB) || (c =? 0xBB).

Definition trail_quote (c : N) : bool :=
  is_ws c || (c =? 0x201D) || (c =? dquote) || (c =? 0xAB) || (c =? 0xBB).

(** The global replace removes the leading run, then the trailing run of
    what is left. *)
Definition strip_quotes (s : jstring) : jstring :=
  drop_while_end trail_quote (drop_while lead_quote s).

Definition review_of_block (b : review_block) : review :=
  mkReview (or_empty (trim <$> rb_name b))
           (or_empty (trim <$> rb_country b))
           (or_empty ((fun t => strip_quotes (trim t)) <$> rb_text b)).

Definition extractReviews (blocks : list review_block) : list review :=
  JsSet.filter_unseen rv_text [] (List.map review_of_block blocks).


(** *** extractNearbyPlaces *)

Record place_record := mkPlace {
  place : jstring;
  distance : jstring;
  type : jstring;
}.

(** One list item of a block: the [textContent] of its name and distance
    elements, when found. *)
Record poi_item := mkPoiItem {
  it_name : option jstring;
  it_distance : option jstring;
}.

(** One [poi-block]: the [textContent] of its heading, when found, and its
    list items. *)
Record poi_block := mkPoiBlock {
  blk_heading : option jstring;
  blk_items : list poi_item;
}.

Definition category_words : list jstring :=
  [lit "Restaurant"; lit "Train"; lit "Airport"].

(** Does [s] begin with one of the category words, in any case? *)
Definition starts_with_category (s : jstring) : bool :=
  existsb (fun w => starts_with_ci w s) category_words.

(** [place.replace(re, empty)] with [re] the pattern
    [/^(Restaurant|Train|Airport)\s*/i]: the first alternative that matches
    at the start is removed, with the white space that follows it. *)
Fixpoint strip_first_word (words : list jstring) (s : jstring) : jstring :=
  match words with
  | [] => s
  | w :: ws =>
      if starts_with_ci w s then drop_while is_ws (drop (length w) s)
      else strip_first_word ws s
  end.

Definition strip_category (s : jstring) : jstring :=
  strip_first_word category_words s.

Section NearbyPlaces.
(** [String.prototype.toLowerCase]: the Unicode case tables are a
    parameter. *)
Variable toLowerCase : jstring -> jstring.

Definition place_of_item (ty : jstring) (it : poi_item) : place_record :=
  mkPlace (strip_category (or_empty (trim <$> it_name it)))
          (or_empty (trim <$> it_distance it))
          ty.

Definition places_of_block (b : poi_block) : list place_record :=
  let ty := or_empty ((fun t => toLowerCase (trim t)) <$> blk_heading b) in
  List.map (place_of_item ty) (blk_items b).

(** The template literal [`${item.place}|${item.distance}`]. *)
Definition place_key (p : place_record) : jstring :=
  place p ++ lit "|" ++ distance p.

Definition extractNearbyPlaces (blocks : list poi_block) : list place_record :=
  JsSet.filter_unseen place_key [] (concat (List.map places_of_block blocks)).
End NearbyPlaces.

(** *** extractRooms *)

Record room := mkRoom {
  rm_name : jstring;
  rm_maxOccupancy : option jsnum;
  rm_description : jstring;
  rm_images : list jstring;
  rm_size : jstring;
  rm_amenities : list jstring;
}.

(** [/(\d+)\s+adult/i] tried at the start of [s]: the greedy runs of
    digits and of white space leave nothing to backtrack to, since neither
    a digit nor the letter [a] is white space. *)
Definition match_adult_at (s : jstring) : option jstring :=
  let ds := take_while is_digit s in
  let r := drop_while is_digit s in
  let r' := drop_while is_ws r in
  if negb (Nat.eqb (length ds) 0) && (length r' <? length r)%nat
     && starts_with_ci (lit "adult") r'
  then Some ds else None.

(** [occupancyText.match(/(\d+)\s+adult/i)]: the first capture group of
    the leftmost match. *)
Fixpoint match_adult (s : jstring) : option jstring :=
  match match_adult_at s with
  | Some ds => Some ds
  | None => match s with
            | [] => None
            | _ :: s' => match_adult s'
            end
  end.

Definition css_url_open : jstring := lit "url(" ++ [dquote].
Definition css_url_close : jstring := [dquote] ++ lit ")".

(** The lazy group [(.+?)] followed by the closing quote and bracket: at
    least one code unit, none a line terminator, and as few as possible. *)
Fixpoint lazy_capture (s : jstring) : option jstring :=
  match s with
  | [] => None
  | c :: s' =>
      if is_line_terminator c then None
      else if starts_with css_url_close s' then Some [c]
      else cons c <$> lazy_capture s'
  end.

(** [backgroundImage.match(re)] with [re] the pattern of a quoted CSS
    [url(...)]: the capture group of the leftmost match. *)
Fixpoint match_css_url (s : jstring) : option jstring :=
  match (if starts_with css_url_open s
         then lazy_capture (drop (length css_url_open) s) else None) with
  | Some u => Some u
  | None => match s with
            | [] => None
            | _ :: s' => match_css_url s'
            end
  end.

(** The detail panel: the [textContent] of its description and size
    elements when found, of its amenity badges, and the
    [style.backgroundImage] of its photo elements. *)
Record popup_dom := mkPopup {
  pp_description : option jstring;
  pp_size : option jstring;
  pp_amenities : list jstring;
  pp_photos : list jstring;
}.

Definition room_images (photos : list jstring) : list jstring :=
  JsSet.of_list
    (List.map (replace_first max300 max1024x768)
       (omap (fun st => or_null (match_css_url st)) photos)).

Definition room_amenities (badges : list jstring) : list jstring :=
  JsSet.of_list (List.map trim badges).

(** The page as [extractRooms] drives it: a document state [D] that
    clicks and the passing of time change, and what the selectors of the
    function find in each state.  Rows are named by their position in the
    table. *)
Record rooms_page (D : Type) := mkRoomsPage {
  rp_rows : D -> list nat;
  rp_name : D -> nat -> option jstring;
  rp_occupancy : D -> nat -> option jstring;
  rp_click_name : D -> nat -> D;
  rp_wait : D -> N -> D;
  rp_popup : D -> option popup_dom;
  rp_close_button : D -> bool;
  rp_click_close : D -> D;
}.
Arguments rp_rows {D}. Arguments rp_name {D}. Arguments rp_occupancy {D}.
Arguments rp_click_name {D}. Arguments rp_wait {D}. Arguments rp_popup {D}.
Arguments rp_close_button {D}. Arguments rp_click_close {D}.

(** What the function does to the page. *)
Inductive ui_event :=
| UiClickName (row : nat)
| UiClickClose
| UiDelay (ms : N).

Section Rooms.
Context {D : Type} (P : rooms_page D).

Definition room_of (nameText label : jstring) (pp : popup_dom) : room :=
  mkRoom (trim nameText)
         (parseInt_digits <$> match_adult label)
         (or_empty (trim <$> pp_description pp))
         (room_images (pp_photos pp))
         (or_empty (trim <$> pp_size pp))
         (room_amenities (pp_amenities pp)).

(** The [for (const row of roomRows)] loop; [results] and the events so
    far are threaded through. *)
Fixpoint rooms_loop (rows : list nat) (d : D) (results : list room)
    (tr : list ui_event) : list room * list ui_event * D :=
  match rows with
  | [] => (results, tr, d)
  | r :: rest =>
      match rp_name P d r, rp_occupancy P d r with
      | Some nameText, Some label =>
          let d1 := rp_wait P (rp_click_name P d r) 1000 in
          let tr1 := tr ++ [UiClickName r; UiDelay 1000] in
          match rp_popup P d1 with
          | None => rooms_loop rest d1 results tr1
          | Some pp =>
              let results' := results ++ [room_of nameText label pp] in
              if rp_close_button P d1
              then rooms_loop rest (rp_wait P (rp_click_close P d1) 500) results'
                     (tr1 ++ [UiClickClose; UiDelay 500])
              else rooms_loop rest (rp_wait P d1 500) results'
                     (tr1 ++ [UiDelay 500])
          end
      | _, _ => rooms_loop rest d results tr
      end
  end.

Definition extractRooms (d : D) : list room * list ui_event * D :=
  rooms_loop (rp_rows P d) d [] [].
End Rooms.

End Extractors.

(** ** scraper.js *)

Module Scraper.
Import Extractors.

(** The calls made on puppeteer, the browser and the page. *)
Inductive event :=
| EvLaunch
| EvNewPage
| EvPage (method : string)
| EvGoto (url : jsval)
| EvWaitForSelector (selector : string)
| EvWaitForNavigation
| EvDelay (ms : N)
| EvAutoScroll
| EvClick (selector : string)
| EvEvaluate (function : string)
| EvClose.

(** An intercepted request. *)
Record request := mkRequest {
  req_resourceType : jstring;
  req_url : jstring;
}.

Inductive request_action := Abort | Continue.

Definition gallery_marker : jstring :=
  lit "https://cf.bstatic.com/xdata/images/hotel/max300".

(** The [page.on("request", ...)] observer: what it does with the request
    and what [galleryImages] holds afterwards. *)
Definition on_request (req : request) (galleryImages : list jstring)
    : request_action * list jstring :=
  if bool_decide (req_resourceType req = lit "font")
     || includes (req_url req) (lit "analytics")
     || includes (req_url req) (lit "tracking")
     || includes (req_url req) (lit "telemetry")
  then (Abort, galleryImages)
  else if bool_decide (req_resourceType req = lit "image")
          && includes (req_url req) gallery_marker
  then (Continue, galleryImages ++ [replace_first max300 max1024x768 (req_url req)])
  else (Continue, galleryImages).

Definition observe_requests (reqs : list request) (galleryImages : list jstring)
    : list jstring :=
  fold_left (fun g r => snd (on_request r g)) reqs galleryImages.

(** The loaded page as the extractors read it.  The four extractors that
    no statement below looks into give their result directly. *)
Record page_dom := mkPageDom {
  pg_hotelName : option jstring;
  pg_address : option jstring;
  pg_description : jstring;
  pg_rating : rating_dom;
  pg_features : list jstring;
  pg_reviews : list review_block;
  pg_checkin : option jstring;
  pg_checkout : option jstring;
  pg_poi : list poi_block;
  pg_D : Type;
  pg_rooms : rooms_page pg_D;
  pg_d0 : pg_D;
}.

(** The environment of one scrape: what every call on the browser and the
    page answers.  The dialog and redirect observers only append steps to the
    diagnostics, at moments the browser chooses; they are left out, and so is
    the console output. *)
Record World := mkWorld {
  w_sessionId : jstring;                  (* [Date.now().toString()] *)
  w_now : nat -> jstring;                 (* [new Date().toISOString()] at the n-th step *)
  w_stack : jserror -> jsval;             (* [error.stack] *)
  w_toLowerCase : jstring -> jstring;
  w_launch : outcome unit;
  w_newPage : outcome unit;
  w_setupAntiDetection : outcome unit;
  w_setViewport : outcome unit;
  w_setUserAgent : outcome unit;
  w_setExtraHTTPHeaders : outcome unit;
  w_setRequestInterception : outcome unit;
  w_requests : list request;              (* the requests intercepted, in order *)
  w_goto : outcome (option N);            (* the response, if any, and its status *)
  w_url_response : jstring;               (* [page.url()], each time it is read *)
  w_title : outcome unit;
  w_url_current : jstring;
  w_waitForNavigation : outcome unit;
  w_url_captcha : jstring;
  w_url_final : jstring;
  w_waitBody : outcome unit;
  w_autoScroll : outcome unit;
  w_tab_wait : string -> outcome unit;
  w_tab_click : string -> outcome unit;
  w_page : page_dom;
  w_parallel : outcome unit;              (* do the eight [page.evaluate] of [Promise.all] resolve *)
  w_rooms : outcome unit;                 (* does the [page.evaluate] of [extractRooms] resolve *)
  w_close : outcome unit;
}.

(** The mutable variables of [scrapeHotelData] and the calls made so far.
    [diagnostics] is one object: the caller reads it after the function
    has returned, with every step appended by then. *)
Record state := mkState {
  st_diagnostics : diagnostics;
  st_galleryImages : list jstring;
  st_browser : bool;
  st_trace : list event;
}.

Definition M (A : Type) : Type := state -> outcome A * state.

#[global] Instance M_ret : MRet M := fun A (a : A) st => (Ret a, st).

Definition throw {A} (e : jserror) : M A := fun st => (Throw e, st).

#[global] Instance M_bind : MBind M := fun A B (k : A -> M B) (m : M A) =>
  fun st => match m st with
            | (Ret a, st') => k a st'
            | (Throw e, st') => (Throw e, st')
            end.

(** [try { m } catch (e) { h e }] *)
Definition try_catch {A} (m : M A) (h : jserror -> M A) : M A :=
  fun st => match m st with
            | (Ret a, st') => (Ret a, st')
            | (Throw e, st') => h e st'
            end.

(** [try { m } finally { f }]: [f] runs whatever the completion of [m], and
    the completion of [m] stands unless [f] throws. *)
Definition try_finally {A} (m : M A) (f : M unit) : M A :=
  fun st => let '(r, st') := m st in
            match f st' with
            | (Ret _, st'') => (r, st'')
            | (Throw e, st'') => (Throw e, st'')
            end.

(** A call on the environment: recorded, then completed as the world says. *)
Definition call {A} (ev : event) (o : outcome A) : M A :=
  fun st => (o, mkState (st_diagnostics st) (st_galleryImages st)
                        (st_browser st) (st_trace st ++ [ev])).

Definition obj (fields : list (string * jsval)) : jsval :=
  JObj (list_to_map (List.map (fun kv => (lit (fst kv), snd kv)) fields)).

Definition opt_str (x : option jstring) : jsval :=
  match x with Some s => JStr s | None => JNull end.

Section Scrape.
Variable w : World.

(** [addStep] on the diagnostics of this scrape. *)
Definition addStepM (step : jstring) (details : jsval) : M unit :=
  fun st =>
    let d := st_diagnostics st in
    (Ret tt, mkState (addStep (w_now w (length (steps d))) step details d)
                     (st_galleryImages st) (st_browser st) (st_trace st)).

Definition delay (ms : N) : M unit := call (EvDelay ms) (Ret tt).

(** [loadDynamicContent]: a tab that cannot be clicked is logged. *)
Definition click_tab (selector name : string) : M unit :=
  try_catch
    (call (EvWaitForSelector selector) (w_tab_wait w name);;
     call (EvClick selector) (w_tab_click w name);;
     delay 500)
    (fun err =>
       addStepM (lit "Could not click " ++ lit name ++ lit " tab")
                (obj [("error", JStr (err_message err))])).

Definition loadDynamicContent : M unit :=
  click_tab "a[href=#rooms]" "Rooms";;
  click_tab "a[href=#facilities]" "Facilities";;
  click_tab "a[href=#reviews]" "Reviews".

(** *** extractHotelData (extractors.js) *)

Record hotelData := mkHotelData {
  hotelName : option jstring;
  address : option jstring;
  description : jstring;
  rating : Extractors.rating;
  galleryImages : list jstring;
  features : list jstring;
  rooms : list room;
  reviews : list review;
  checkin : option jstring;
  checkout : option jstring;
  nearbyPlaces : list place_record;
}.

Definition with_galleryImages (h : hotelData) (g : list jstring) : hotelData :=
  mkHotelData (hotelName h) (address h) (description h) (rating h) g
              (features h) (rooms h) (reviews h) (checkin h) (checkout h)
              (nearbyPlaces h).

Definition lift {A} (o : outcome A) : M A := fun st => (o, st).

Definition extractHotelData : M hotelData :=
  let pg := w_page w in
  try_catch
    (addStepM (lit "Extracting data in parallel") JUndefined;;
     call (EvEvaluate "Promise.all") (w_parallel w);;
     rating ← lift (extractRating (pg_rating pg));
     let features := extractFeatures (pg_features pg) in
     let reviews := extractReviews (pg_reviews pg) in
     let nearbyPlaces := extractNearbyPlaces (w_toLowerCase w) (pg_poi pg) in
     addStepM (lit "Parallel extraction complete")
       (obj [("hotelName", JBool (truthy (opt_str (pg_hotelName pg))));
             ("address", JBool (truthy (opt_str (pg_address pg))));
             ("features", JNum (Z.of_nat (length features)));
             ("reviews", JNum (Z.of_nat (length reviews)))]);;
     addStepM (lit "Extracting rooms") JUndefined;;
     call (EvEvaluate "extractRooms") (w_rooms w);;
     let rooms := (extractRooms (pg_rooms pg) (pg_d0 pg)).1.1 in
     addStepM (lit "Rooms extracted")
       (obj [("count", JNum (Z.of_nat (length rooms)))]);;
     mret (mkHotelData (pg_hotelName pg) (pg_address pg) (pg_description pg)
             rating [] features rooms reviews (pg_checkin pg) (pg_checkout pg)
             nearbyPlaces))
    (fun error =>
       addStepM (lit "Error during extraction")
                (obj [("message", JStr (err_message error))]);;
       throw error).

(** *** scrapeHotelData *)

Inductive scrape_result :=
| Success (data : hotelData)
| Failure (error : jstring).

Definition title_selector : string :=
  "h2.d2fee87262, [data-testid=title], #hp_hotel_name".

Definition data_fields : jsval :=
  JArr (List.map (fun k => JStr (lit k))
          ["hotelName"; "address"; "description"; "rating"; "galleryImages";
           "features"; "rooms"; "reviews"; "checkin"; "checkout";
           "nearbyPlaces"]%string).

(** [browser = await puppeteer.launch(...)] *)
Definition launch : M unit :=
  fun st => match w_launch w with
            | Ret _ => (Ret tt, mkState (st_diagnostics st) (st_galleryImages st)
                                        true (st_trace st ++ [EvLaunch]))
            | Throw e => (Throw e, mkState (st_diagnostics st) (st_galleryImages st)
                                           (st_browser st) (st_trace st ++ [EvLaunch]))
            end.

(** [page.goto]: the requests it and the later page activity cause reach
    the observer; [galleryImages] is read only after all of them. *)
Definition goto (url : jsval) : M (option N) :=
  fun st => (w_goto w,
             mkState (st_diagnostics st)
                     (observe_requests (w_requests w) (st_galleryImages st))
                     (st_browser st) (st_trace st ++ [EvGoto url])).

Definition get_galleryImages : M (list jstring) :=
  fun st => (Ret (st_galleryImages st), st).

Definition get_browser : M bool := fun st => (Ret (st_browser st), st).

(** The checks on the HTTP status. *)
Definition check_status (status : N) : M unit :=
  if negb (status =? 200) then
    if status =? 403 then
      throw (Error (lit "Access denied (403) - Bot detection likely triggered"))
    else if status =? 404 then throw (Error (lit "Page not found (404)"))
    else mret tt
  else mret tt.

(** The captcha or redirect check. *)
Definition handle_soft_block (url : jsval) : M unit :=
  let currentUrl := w_url_current w in
  if includes currentUrl (lit "captcha") || negb (includes currentUrl marker)
  then
    addStepM (lit "Redirect or captcha detected")
             (obj [("originalUrl", url); ("currentUrl", JStr currentUrl)]);;
    delay 5000;;
    if includes currentUrl (lit "captcha") then
      addStepM (lit "Captcha detected - waiting for resolution") JUndefined;;
      try_catch
        (call EvWaitForNavigation (w_waitForNavigation w);;
         addStepM (lit "Navigation after captcha")
                  (obj [("url", JStr (w_url_captcha w))]))
        (fun _ => addStepM (lit "Timeout waiting for captcha resolution") JUndefined)
    else mret tt
  else mret tt.

(** The [try] block from the point where a response has been received. *)
Definition after_response (url : jsval) (status : N) : M scrape_result :=
  addStepM (lit "Response received")
           (obj [("status", JNum (Z.of_N status));
                 ("url", JStr (w_url_response w))]);;
  try_catch
    (call (EvWaitForSelector title_selector) (w_title w))
    (fun _ => addStepM
       (lit "Warning: Could not find hotel title selector, continuing anyway")
       JUndefined);;
  check_status status;;
  handle_soft_block url;;
  let finalUrl := w_url_final w in
  addStepM (lit "Final URL") (obj [("url", JStr finalUrl)]);;
  (if negb (includes finalUrl marker)
   then throw (Error (lit "Final URL is not a hotel page: " ++ finalUrl))
   else mret tt);;
  addStepM (lit "Waiting for content to load") JUndefined;;
  call (EvWaitForSelector "body") (w_waitBody w);;
  addStepM (lit "Scrolling page") JUndefined;;
  call EvAutoScroll (w_autoScroll w);;
  loadDynamicContent;;
  addStepM (lit "Extracting data") JUndefined;;
  hotelData ← extractHotelData;
  collected ← get_galleryImages;
  let hotelData := with_galleryImages hotelData (JsSet.of_list collected) in
  addStepM (lit "Extraction complete")
           (obj [("dataFields", data_fields);
                 ("hasRooms", JBool (0 <? length (rooms hotelData))%nat);
                 ("hasReviews", JBool (0 <? length (reviews hotelData))%nat)]);;
  mret (Success hotelData).

(** The [try] block from the point where the browser has been launched. *)
Definition after_launch (url : jsval) : M scrape_result :=
  addStepM (lit "Browser launched") JUndefined;;
  call EvNewPage (w_newPage w);;
  call (EvPage "evaluateOnNewDocument") (w_setupAntiDetection w);;
  call (EvPage "setViewport") (w_setViewport w);;
  call (EvPage "setUserAgent") (w_setUserAgent w);;
  call (EvPage "setExtraHTTPHeaders") (w_setExtraHTTPHeaders w);;
  call (EvPage "setRequestInterception") (w_setRequestInterception w);;
  addStepM (lit "Navigating to URL") (obj [("url", url)]);;
  response ← goto url;
  match response with
  | None => throw (Error (lit "No response from server"))
  | Some status => after_response url status
  end.

(** The body of the [try] block. *)
Definition scrape_try (url : jsval) : M scrape_result :=
  addStepM (lit "Initialization") (obj [("url", url)]);;
  launch;;
  after_launch url.

(** [try { ... } catch (error) { ... } finally { if (browser) ... }] *)
Definition scrapeHotelData (url : jsval) : M scrape_result :=
  try_finally
    (try_catch (scrape_try url)
       (fun error =>
          addStepM (lit "Error")
                   (obj [("message", JStr (err_message error));
                         ("stack", w_stack w error)]);;
          mret (Failure (err_message error))))
    (get_browser ≫= fun browser : bool =>
     if browser then
       addStepM (lit "Closing browser") JUndefined;;
       call EvClose (w_close w)
     else mret tt).

(** The state at the entry of the function. *)
Definition initial : state :=
  mkState (createDiagnostics (w_sessionId w)) [] false [].

Definition run_scrape (url : jsval) : outcome scrape_result * state :=
  scrapeHotelData url initial.
End Scrape.

End Scraper.

(** ** server.js: the [POST /scrape] handler *)

Module Server.
Import Extractors Scraper.

Inductive response_body :=
| InvalidUrl (error example : jstring)
| Data (data : hotelData)
| ScrapingFailed (error details : jstring) (diagnostics : diagnostics)
| ErrorOccurred (error details : jstring).

Record response := mkResponse {
  status : N;
  body : response_body;
}.

Definition bad_request : response :=
  mkResponse 400
    (InvalidUrl
       (lit "Invalid URL. Please provide a valid Booking.com hotel profile URL.")
       (lit "https://www.booking.com/hotel/xx/hotel-name.html")).

(** The outer [catch]. *)
Definition error_response (e : jserror) : response :=
  mkResponse 500
    (ErrorOccurred (lit "An error occurred during scraping") (err_message e)).

(** What the handler answers once [scrapeHotelData] has completed;
    [diagnostics] is the object the scrape has filled. *)
Definition respond (r : outcome scrape_result) (d : diagnostics) : response :=
  match r with
  | Ret (Success data) => mkResponse 200 (Data data)
  | Ret (Failure error) =>
      mkResponse 500 (ScrapingFailed (lit "Scraping failed") error d)
  | Throw e => error_response e
  end.

(** Whether [ToString(v)] throws on a value parsed from JSON.  An object
    is converted by its [toString] method, then by [valueOf]: an own property
    [toString] of a parsed object is never callable and hides the inherited
    method, and the inherited [valueOf] returns the object, so the conversion
    throws exactly when the object has an own property [toString].  An array
    is joined, which converts every element but [null]. *)
Fixpoint to_string_throws (v : jsval) : bool :=
  match v with
  | JObj o => bool_decide (is_Some (o !! lit "toString"))
  | JArr l => existsb to_string_throws l
  | _ => false
  end.

(** [console.log(`Starting scrape for: ${url}`)]: the template literal
    converts [url] to a string; the text printed is not kept. *)
Definition log_start (url : jsval) : outcome unit :=
  if to_string_throws url
  then Throw (TypeError (lit "Cannot convert object to primitive value"))
  else Ret tt.

(** [app.post("/scrape", ...)] on the parsed request body: the response,
    and the calls made on the browser while it was computed. *)
Definition post_scrape (w : World) (req_body : jsval) : response * list event :=
  match get_prop req_body (lit "url") with
  | Throw e => (error_response e, [])
  | Ret url =>
      match isValidBookingUrl url with
      | Throw e => (error_response e, [])
      | Ret valid =>
          if negb (truthy valid) then (bad_request, [])
          else
            match log_start url with
            | Throw e => (error_response e, [])
            | Ret _ =>
                let '(result, st) := run_scrape w url in
                (respond result (st_diagnostics st), st_trace st)
            end
      end
  end.

End Server.

(** ** extractors.js: the text extractors *)

Module PageText.
Import Extractors.

(** [document.querySelector(selector)?.textContent]: the text of the first
    element a selector finds, when it finds one. *)
Definition document : Type := jstring -> option jstring.

(** A selector on a [data-testid] attribute. *)
Definition testid (name : string) : jstring :=
  lit "[data-testid=" ++ [dquote] ++ lit name ++ [dquote] ++ lit "]".

(** The [for (const selector of selectors)] loop of [extractHotelName] and
    [extractDescription]: the trimmed text of the first selector that finds
    an element whose trimmed text is not empty. *)
Fixpoint first_text (doc : document) (selectors : list jstring) : option jstring :=
  match selectors with
  | [] => None
  | selector :: rest =>
      match doc selector with
      | Some text =>
          match trim text with
          | [] => first_text doc rest
          | t => Some t
          end
      | None => first_text doc rest
      end
  end.

Definition name_selectors : list jstring :=
  [lit "h2.d2fee87262"; lit ".pp-header__title"; lit "#hp_hotel_name";
   testid "title"; lit "h1.pp-header__title"; lit ".hp__hotel-title";
   lit ".hp__hotel-name"].

(** [extractHotelName]: the selector list, then the first [h2]. *)
Definition extractHotelName (doc : document) : option jstring :=
  match first_text doc name_selectors with
  | Some t => Some t
  | None => or_null (trim <$> doc (lit "h2"))
  end.

Definition description_selectors : list jstring :=
  [lit "#property_description_content"; lit ".hotel_description_wrapper_exp";
   testid "property-description"; lit ".hp-description";
   lit ".hotel-description"; lit "#summary"].

(** [extractDescription]: the selector list, then the empty string. *)
Definition extractDescription (doc : document) : jstring :=
  default [] (first_text doc description_selectors).

(** One [button div]: its [textContent], and the [textContent] of its first
    child node when it has one. *)
Record button_div := mkButtonDiv {
  bd_text : jstring;
  bd_first_child : option jstring;
}.

Definition country_words : list jstring :=
  [lit "Morocco"; lit "France"; lit "Spain"; lit "Italy"; lit "Germany";
   lit "United"; lit "Maroc"].

(** [n] digits at the start of [s]. *)
Fixpoint starts_with_digits (n : nat) (s : jstring) : bool :=
  match n with
  | O => true
  | S n' => match s with
            | [] => false
            | c :: s' => is_digit c && starts_with_digits n' s'
            end
  end.

(** The postal code test: five digits in a row, anywhere in the text. *)
Fixpoint has_postal_code (s : jstring) : bool :=
  starts_with_digits 5 s ||
  match s with
  | [] => false
  | _ :: s' => has_postal_code s'
  end.

(** The callback of [find]. *)
Definition looks_like_address (d : button_div) : bool :=
  existsb (includes (bd_text d)) country_words || has_postal_code (bd_text d).

(** [extractAddress]: the trimmed text of the first child node of the first
    [button div] that looks like an address. *)
Definition extractAddress (divs : list button_div) : option jstring :=
  match List.find looks_like_address divs with
  | Some d => or_null (trim <$> bd_first_child d)
  | None => None
  end.

(** The four patterns of [extractCheckTimes] are anchored at both ends and
    have no repetition: a sequence of tokens, one per code unit. *)
Inductive token :=
| Exact (c : N)           (* a literal, without the [i] flag *)
| AnyCase (c : N)         (* a literal, under the [i] flag *)
| Space                   (* [\s] *)
| Digit.                  (* [\d] *)

Definition token_matches (t : token) (c : N) : bool :=
  match t with
  | Exact p => p =? c
  | AnyCase p => ci_eq p c
  | Space => is_ws c
  | Digit => is_digit c
  end.

(** [pattern.test(text)] for such a pattern. *)
Fixpoint matches (p : list token) (s : jstring) : bool :=
  match p, s with
  | [], [] => true
  | t :: p', c :: s' => token_matches t c && matches p' s'
  | _, _ => false
  end.

Definition exact (s : string) : list token := List.map Exact (lit s).
Definition any_case (s : string) : list token := List.map AnyCase (lit s).

(** Two digits, a colon, two digits. *)
Definition hhmm (colon : N -> token) : list token :=
  [Digit; Digit; colon 58; Digit; Digit].

Definition a_grave : N := 0xE0.

Definition from_to : list token :=
  any_case "From" ++ [Space] ++ hhmm AnyCase ++ [Space] ++ any_case "to"
    ++ [Space] ++ hhmm AnyCase.

Definition until_ : list token := any_case "Until" ++ [Space] ++ hhmm AnyCase.

Definition de_a : list token :=
  exact "De" ++ [Space] ++ hhmm Exact ++ [Space; Exact a_grave; Space] ++ hhmm Exact.

Definition jusqu_a : list token :=
  exact "Jusqu'" ++ [Exact a_grave; Space] ++ hhmm Exact.

Definition time_patterns : list (list token) := [from_to; until_; de_a; jusqu_a].

(** The callback of [filter]. *)
Definition is_time_text (text : jstring) : bool :=
  existsb (fun p => matches p text) time_patterns.

Record check_times := mkCheckTimes {
  ct_checkin : option jstring;
  ct_checkout : option jstring;
}.

(** [extractCheckTimes] on the [textContent] of every element under [body],
    in document order. *)
Definition extractCheckTimes (texts : list jstring) : check_times :=
  let timeTexts := List.filter is_time_text (List.map trim texts) in
  mkCheckTimes (or_null (timeTexts !! 0%nat)) (or_null (timeTexts !! 1%nat)).

End PageText.

(** ** utils.js: autoScroll *)

Module AutoScroll.

(** What the function does to the window. *)
Inductive scroll_event :=
| ScrollBy (x y : N)
| ScrollTo (x y : N).

Definition distance : N := 100.

(** The [setInterval] callback, run at tick [tick], [tick + 1], ... until it
    clears the timer: [scrollHeight tick] is [document.body.scrollHeight] as
    the callback reads it at that tick, and [totalHeight] the sum so far.
    The result is the sum and the number of ticks at which the timer was
    cleared; [None] when it was not within [fuel] ticks. *)
Fixpoint scroll_loop (fuel : nat) (scrollHeight : nat -> N) (tick : nat)
    (totalHeight : N) : option (N * nat) :=
  match fuel with
  | O => None
  | S fuel' =>
      let totalHeight' := totalHeight + distance in
      if scrollHeight tick <=? totalHeight' then Some (totalHeight', S tick)
      else scroll_loop fuel' scrollHeight (S tick) totalHeight'
  end.

(** [autoScroll]: scroll down by [distance] at every tick, then back to the
    top. *)
Definition autoScroll (fuel : nat) (scrollHeight : nat -> N) : option (list scroll_event) :=
  match scroll_loop fuel scrollHeight 0 0 with
  | Some (_, ticks) => Some (replicate ticks (ScrollBy 0 distance) ++ [ScrollTo 0 0])
  | None => None
  end.

End AutoScroll.

(** ** config.js *)

Module Config.

(** What [parseInt(s, 10)] gives: [NaN], an integer-valued double (the sign
    of a zero is not kept), or an infinity. *)
Inductive jsint := IntNaN | Int (z : Z) | IntInfinity (negative : bool).

(** The double nearest to the number written by the digits, with the sign
    read before them. *)
Definition signed (negative : bool) (d : option N) : jsint :=
  match d with
  | Some n => Int (if negative then (- Z.of_N n)%Z else Z.of_N n)
  | None => IntInfinity negative
  end.

(** [parseInt(s, 10)] on a string: leading white space is skipped, one sign
    is read, then the longest run of digits; what follows is ignored. *)
Definition parseInt10 (s : jstring) : jsint :=
  let s1 := drop_while is_ws s in
  let '(negative, s2) :=
    match s1 with
    | c :: r => if c =? 45 then (true, r) else if c =? 43 then (false, r) else (false, s1)
    | [] => (false, s1)
    end in
  match take_while is_digit s2 with
  | [] => IntNaN
  | ds => signed negative (round_double (digits_value ds))
  end.

(** [parseInt(process.env.NAME, 10) || fallback]: an unset variable is
    [undefined], which [parseInt] reads as the string [undefined]; [NaN] and
    0 are falsy, an infinity is not. *)
Definition int_setting (env : option jstring) (fallback : Z) : jsint :=
  match env with
  | None => Int fallback
  | Some s => match parseInt10 s with
              | IntNaN => Int fallback
              | Int z => if (z =? 0)%Z then Int fallback else Int z
              | IntInfinity negative => IntInfinity negative
              end
  end.






End Config.

(** ** Specification vocabulary *)

Module Spec.
Import Extractors Scraper Server.

(** [needle] occurs in [s]. *)
Definition substring (needle s : jstring) : Prop :=
  ∃ pre post, s = pre ++ needle ++ post.

(** A url value contains the marker: as a substring of a string, as an
    element of an array (what [includes] means there). *)
Definition contains (v : jsval) (needle : jstring) : Prop :=
  match v with
  | JStr s => substring needle s
  | JArr l => JStr needle ∈ l
  | _ => False
  end.

(** [out] lists, in the order of their first appearance in [src], exactly
    one element per key of [src]: neither elements nor keys are repeated,
    every key of [src] is there, and each element of [out] stands in [src] at the first
    appearance of its key, after the first appearance of the keys before it
    in [out]. *)
Definition first_occurrences {A B : Type} (key : B → A) (src out : list B) : Prop :=
  NoDup out ∧ NoDup (key <$> out) ∧
  (∀ x, x ∈ src → key x ∈ (key <$> out)) ∧
  (∀ o1 x o2, out = o1 ++ x :: o2 →
     ∃ l1 l2, src = l1 ++ x :: l2 ∧ (key x ∉ (key <$> l1)) ∧
              ∀ k, k ∈ (key <$> o1) → k ∈ (key <$> l1)).

(** Hoare triples on the scrape monad: [Q] on return, [E] on throw. *)
Definition hoare {A} (P : state → Prop) (m : M A)
    (Q : A → state → Prop) (E : jserror → state → Prop) : Prop :=
  ∀ st, P st → match m st with
               | (Ret a, st') => Q a st'
               | (Throw e, st') => E e st'
               end.

(** [I] holds after [m] whenever it held before, however [m] completes. *)
Definition inv {A} (I : state → Prop) (m : M A) : Prop :=
  hoare I m (fun _ => I) (fun _ => I).

(** [m] always returns, and keeps [I]. *)
Definition returns {A} (I : state → Prop) (m : M A) : Prop :=
  hoare I m (fun _ => I) (fun _ _ => False).

(** [I] looks neither at the diagnostics nor at the calls in [allowed]. *)
Definition stable (allowed : event → Prop) (I : state → Prop) : Prop :=
  (∀ d g b t d', I (mkState d g b t) → I (mkState d' g b t)) ∧
  (∀ d g b t ev, allowed ev → I (mkState d g b t) → I (mkState d g b (t ++ [ev]))).

(** The calls so far: the launch, then neither a launch nor a close; and
    the browser variable is set. *)
Definition launched (st : state) : Prop :=
  st_browser st = true ∧
  ∃ tr, st_trace st = EvLaunch :: tr ∧ (EvClose ∉ tr) ∧ (EvLaunch ∉ tr).

Definition not_launch_close (ev : event) : Prop := ev ≠ EvLaunch ∧ ev ≠ EvClose.

Definition any_event (ev : event) : Prop := True.

Definition reached (ev : event) (st : state) : Prop := ev ∈ st_trace st.

(** What a returning scrape returns: the extracted record, with the
    de-duplicated [galleryImages] of the state. *)
Definition result_post (I : state → Prop) (r : scrape_result) (st : state) : Prop :=
  I st ∧ ∃ hd, r = Success (with_galleryImages hd (JsSet.of_list (st_galleryImages st))).

Definition browser_set (st : state) : Prop := st_browser st = true.

Definition gallery_is (g : list jstring) (st : state) : Prop :=
  st_galleryImages st = g.

(** The [catch] and [finally] blocks, from the completion of the [try] block. *)
Definition completion (w : World) (o : outcome scrape_result) (st : state)
    : outcome scrape_result * state :=
  let '(r, st1) :=
    match o with
    | Ret r => (Ret r, st)
    | Throw e =>
        (Ret (Failure (err_message e)),
         mkState (addStep (w_now w (length (steps (st_diagnostics st)))) (lit "Error")
                    (obj [("message", JStr (err_message e));
                          ("stack", w_stack w e)]%string) (st_diagnostics st))
                 (st_galleryImages st) (st_browser st) (st_trace st))
    end in
  if st_browser st1 then
    let st2 := mkState (addStep (w_now w (length (steps (st_diagnostics st1))))
                          (lit "Closing browser") JUndefined (st_diagnostics st1))
                       (st_galleryImages st1) (st_browser st1)
                       (st_trace st1 ++ [EvClose]) in
    match w_close w with
    | Ret _ => (r, st2)
    | Throw e => (Throw e, st2)
    end
  else (r, st1).

(** The state after one more call, and after one more logged step. *)
Definition push (ev : event) (st : state) : state :=
  mkState (st_diagnostics st) (st_galleryImages st) (st_browser st)
          (st_trace st ++ [ev]).

Definition logged (w : World) (step : jstring) (details : jsval) (st : state) : state :=
  mkState (addStep (w_now w (length (steps (st_diagnostics st)))) step details
             (st_diagnostics st))
          (st_galleryImages st) (st_browser st) (st_trace st).

(** The browser is launched and the page configured without error, and
    the browser closes without error. *)
Definition setup_ok (w : World) : Prop :=
  w_launch w = Ret tt ∧ w_newPage w = Ret tt ∧ w_setupAntiDetection w = Ret tt ∧
  w_setViewport w = Ret tt ∧ w_setUserAgent w = Ret tt ∧
  w_setExtraHTTPHeaders w = Ret tt ∧ w_setRequestInterception w = Ret tt ∧
  w_close w = Ret tt.

(** Nothing fails after the status check: the final URL is a hotel page
    and the waits, the scroll and the extraction complete. *)
Definition rest_ok (w : World) : Prop :=
  includes (w_url_final w) marker = true ∧
  w_waitBody w = Ret tt ∧ w_autoScroll w = Ret tt ∧
  w_parallel w = Ret tt ∧ w_rooms w = Ret tt.

Definition success_data (r : outcome scrape_result) : option hotelData :=
  match r with
  | Ret (Success data) => Some data
  | _ => None
  end.

Definition is_success (r : outcome scrape_result) : bool :=
  match r with
  | Ret (Success _) => true
  | _ => false
  end.

(** *** Sample inputs *)

Definition hotel_url : jstring := lit "https://www.booking.com/hotel/ma/riad-verus.en-gb.html".

Definition empty_rooms_page : rooms_page unit :=
  mkRoomsPage unit (fun _ => []) (fun _ _ => None) (fun _ _ => None)
    (fun d _ => d) (fun d _ => d) (fun _ => None) (fun _ => false) (fun d => d).

Definition sample_page : page_dom :=
  mkPageDom (Some (lit "Riad Verus")) None [] (mkRatingDom (Ret None)) [] [] None None []
    unit empty_rooms_page tt.

(** A world in which every call succeeds, the page stays on the hotel url,
    [goto] answers with [response] and [reqs] are intercepted. *)
Definition sample_world (response : option N) (reqs : list request) : World :=
  mkWorld (lit "1700000000000") (fun _ => lit "2024-01-01T00:00:00.000Z")
    (fun _ => JUndefined) (fun s => s)
    (Ret tt) (Ret tt) (Ret tt) (Ret tt) (Ret tt) (Ret tt) (Ret tt)
    reqs (Ret response) hotel_url (Ret tt) hotel_url (Ret tt) hotel_url hotel_url
    (Ret tt) (Ret tt) (fun _ => Ret tt) (fun _ => Ret tt)
    sample_page (Ret tt) (Ret tt) (Ret tt).

Definition url_body (url : jsval) : jsval := JObj (<[lit "url" := url]> ∅).

Definition sample_url : jsval := JStr hotel_url.

(** An array that holds the marker, which passes the check, and an object
    that cannot be converted to a string: what
    [{"url": ["booking.com/hotel", {"toString": 1}]}] is parsed to. *)
Definition unprintable_url : jsval :=
  JArr [JStr marker; JObj (<[lit "toString" := JNum 1]> ∅)].

(** Two image requests: a gallery url with the size token once, and one
    that carries the token a second time in its query string. *)
Definition request_once : request :=
  mkRequest (lit "image") (lit "https://cf.bstatic.com/xdata/images/hotel/max300/1.jpg").
Definition request_twice : request :=
  mkRequest (lit "image")
    (lit "https://cf.bstatic.com/xdata/images/hotel/max300/2.jpg?ref=max300").

Definition gallery_once : jstring :=
  lit "https://cf.bstatic.com/xdata/images/hotel/max1024x768/1.jpg".

(** What the scrape of the sample page returns when [request_once] is
    intercepted. *)
Definition data_once : hotelData :=
  mkHotelData (Some (lit "Riad Verus")) None [] null_rating [gallery_once]
    [] [] [] None None [].

(** A score container whose first text has one comma, and one whose
    first text has two. *)
Definition score_one_comma : rating_dom :=
  mkRatingDom (Ret (Some (Ret [lit " 8,7 "; lit "1 234 reviews"]))).
Definition score_two_commas : rating_dom :=
  mkRatingDom (Ret (Some (Ret [lit "1,234,5"; lit "12 reviews"]))).

(** A restaurant whose own name starts with the category word, under the
    category label that the page puts in front of every name. *)
Definition restaurants_block : poi_block :=
  mkPoiBlock (Some (lit "Restaurants & cafes"))
    [mkPoiItem (Some (lit "RestaurantRestaurant Dar Moha")) (Some (lit "300 m"));
     mkPoiItem (Some (lit "Restaurant Le Foundouk")) (Some (lit "450 m"))].

(** A table of two rows, the first without a name element; clicking a name
    opens the panel, clicking the close control closes it.  The state says
    whether the panel is open. *)
Definition sample_popup : popup_dom :=
  mkPopup (Some (lit " A quiet room ")) (Some (lit "25 m2")) [lit "Wifi"; lit "Wifi"]
    [lit "url(" ++ [dquote] ++ lit "https://cf.bstatic.com/xdata/images/hotel/max300/7.jpg"
       ++ [dquote] ++ lit ")";
     lit "url(" ++ [dquote] ++ lit "https://cf.bstatic.com/xdata/images/hotel/square600/8.jpg"
       ++ [dquote] ++ lit ")"].

Definition two_rows_page : rooms_page bool :=
  mkRoomsPage bool
    (fun _ => [0; 1]%nat)
    (fun _ r => if Nat.eqb r 1 then Some (lit " Deluxe Room ") else None)
    (fun _ _ => Some (lit "Max. people: 2 adults"))
    (fun _ _ => true) (fun d _ => d)
    (fun d => if d then Some sample_popup else None)
    (fun d => d) (fun _ => false).

(** Two review blocks by different guests with the same text, the second
    in quotation marks. *)
Definition review_a : review_block :=
  mkReviewBlock (Some (lit "Ana")) (Some (lit "Spain")) (Some (lit " Lovely riad ")).
Definition review_b : review_block :=
  mkReviewBlock (Some (lit "Ben")) (Some (lit "France"))
                (Some ([0x201C] ++ lit "Lovely riad" ++ [0x201D])).

(** A url on another host that carries the marker in its query string. *)
Definition foreign_prefix : jstring := lit "https://evil.example/?next=".
Definition foreign_url : jsval := JStr (foreign_prefix ++ marker ++ []).

End Spec.

(** ** Further vocabulary *)

Module TextSpec.
Import Extractors Scraper Server PageText AutoScroll Config Spec.

(** [s] neither begins with a code unit of [lead] nor ends with one of
    [trail]. *)
Definition no_edge (lead trail : N → bool) (s : jstring) : Prop :=
  (∀ c, head s = Some c → lead c = false) ∧
  (∀ c, last s = Some c → trail c = false).

(** [s] has no white space at either end. *)
Definition trimmed (s : jstring) : Prop := no_edge is_ws is_ws s.

(** A selector that finds nothing, or only white space. *)
Definition blank (doc : document) (selector : jstring) : Prop :=
  ∀ text, doc selector = Some text → trim text = [].

End TextSpec.

Module PageSpec.
Import Extractors Scraper Server PageText AutoScroll Config Spec TextSpec.

(** The requests the observer aborts, and those whose url it collects. *)
Definition blocked (r : request) : bool :=
  bool_decide (req_resourceType r = lit "font")
  || includes (req_url r) (lit "analytics")
  || includes (req_url r) (lit "tracking")
  || includes (req_url r) (lit "telemetry").

Definition collected (r : request) : bool :=
  negb (blocked r)
  && bool_decide (req_resourceType r = lit "image")
  && includes (req_url r) gallery_marker.

(** Counting what [extractRooms] did to the page. *)
Definition name_clicks (tr : list ui_event) : nat :=
  length (List.filter (λ ev, match ev with UiClickName _ => true | _ => false end) tr).

Definition close_clicks (tr : list ui_event) : nat :=
  length (List.filter (λ ev, match ev with UiClickClose => true | _ => false end) tr).

Definition total_delay (tr : list ui_event) : N :=
  fold_right (λ ev acc, match ev with UiDelay ms => ms + acc | _ => acc end) 0 tr.

End PageSpec.

Module LogSpec.
Import Extractors Scraper Server PageText AutoScroll Config Spec TextSpec PageSpec.

(** The steps that the [catch] and [finally] blocks of [scrapeHotelData]
    append when [n] steps are there. *)
Definition error_entry (w : World) (n : nat) (e : jserror) : gmap jstring jsval :=
  step_entry (w_now w n) (lit "Error")
    (obj [("message", JStr (err_message e)); ("stack", w_stack w e)]%string).

Definition closing_entry (w : World) (n : nat) : gmap jstring jsval :=
  step_entry (w_now w n) (lit "Closing browser") JUndefined.

(** One tab of [loadDynamicContent]: the calls made for it, and whether it
    could not be clicked. *)
Definition tab_calls (w : World) (selector name : string) : list event :=
  EvWaitForSelector selector ::
  match w_tab_wait w name with
  | Ret _ => EvClick selector ::
             match w_tab_click w name with
             | Ret _ => [EvDelay 500]
             | Throw _ => []
             end
  | Throw _ => []
  end.

Definition tab_failed (w : World) (name : string) : bool :=
  match w_tab_wait w name, w_tab_click w name with
  | Ret _, Ret _ => false
  | _, _ => true
  end.

(** The error that keeps a tab from being clicked: of the wait for it, or of
    the click. *)
Definition tab_error (w : World) (name : string) : option jserror :=
  match w_tab_wait w name with
  | Throw e => Some e
  | Ret _ => match w_tab_click w name with
             | Throw e => Some e
             | Ret _ => None
             end
  end.

(** The step logged for a tab when [n] steps are there. *)
Definition tab_steps (w : World) (name : string) (n : nat) : list (gmap jstring jsval) :=
  match tab_error w name with
  | Some e => [step_entry (w_now w n) (lit "Could not click " ++ lit name ++ lit " tab")
                 (obj [("error", JStr (err_message e))]%string)]
  | None => []
  end.

(** The step [Error during extraction] of [extractHotelData]. *)
Definition extraction_error_entry (w : World) (n : nat) (e : jserror) : gmap jstring jsval :=
  step_entry (w_now w n) (lit "Error during extraction")
    (obj [("message", JStr (err_message e))]%string).

(** The calls of the captcha or redirect check. *)
Definition soft_block_calls (w : World) : list event :=
  if includes (w_url_current w) (lit "captcha") then [EvDelay 5000; EvWaitForNavigation]
  else if includes (w_url_current w) marker then []
  else [EvDelay 5000].

End LogSpec.

(** ** The result and the log of a scrape *)

Module ResultSpec.
Import Extractors Scraper Server Spec.

(** What [extractHotelData] returns on the page of [w]: the results of the
    extractors, and the empty gallery it starts with. *)
Definition page_data (w : World) : hotelData :=
  let pg := w_page w in
  mkHotelData (pg_hotelName pg) (pg_address pg) (pg_description pg)
    (match extractRating (pg_rating pg) with Ret r => r | Throw _ => null_rating end)
    [] (extractFeatures (pg_features pg))
    (extractRooms (pg_rooms pg) (pg_d0 pg)).1.1
    (extractReviews (pg_reviews pg)) (pg_checkin pg) (pg_checkout pg)
    (extractNearbyPlaces (w_toLowerCase w) (pg_poi pg)).

(** [d'] is [d] with steps appended. *)
Definition grows (d d' : diagnostics) : Prop :=
  sessionId d' = sessionId d ∧ screenshots d' = screenshots d ∧
  ∃ more, steps d' = steps d ++ more.

(** [m] only appends steps to the diagnostics, however it completes. *)
Definition keeps_log {A} (m : M A) : Prop :=
  ∀ st, grows (st_diagnostics st) (st_diagnostics (m st).2).

End ResultSpec.

(** ** Further sample inputs *)

Module Samples.
Import Extractors Scraper Server PageText AutoScroll Config Spec.

(** A document in which only the first [h2] has text. *)
Definition h2_document : document :=
  fun selector => if bool_decide (selector = lit "h2") then Some (lit " Riad Verus ")
                  else None.

(** A document in which every selector finds the same text. *)
Definition one_text_document : document := fun _ => Some (lit " A riad in the medina. ").

(** Two elements that look like an address: the first has a blank first
    child. *)
Definition blank_then_address : list button_div :=
  [mkButtonDiv (lit "Derb Tizougarine, 40000 Marrakech") (Some (lit "  "));
   mkButtonDiv (lit "12 Rue Bab Doukkala, Morocco") (Some (lit " 12 Rue Bab Doukkala "))].

(** The texts of a policy block: a check-out range comes before the check-in
    range. *)
Definition policy_texts : list jstring :=
  [lit "House rules"; lit " Until 12:00 "; lit "From 14:00 to 23:00"].

(** The rating that [extractRating] reads from [score_one_comma]. *)
Definition rating_one_comma : Extractors.rating :=
  mkRating (Some (lit "8.7")) (Some (Num 1234)).

(** A score container whose review count is 2^53 + 1, and the rating that
    [extractRating] reads from it. *)
Definition score_large_count : rating_dom :=
  mkRatingDom (Ret (Some (Ret [lit "8,7"; lit "9007199254740993 reviews"]))).
Definition rating_large_count : Extractors.rating :=
  mkRating (Some (lit "8.7")) (Some (Num 9007199254740992)).

(** The room that [extractRooms] reads from [two_rows_page]. *)
Definition deluxe_room : room :=
  mkRoom (lit "Deluxe Room") (Some (Num 2)) (lit "A quiet room")
    [lit "https://cf.bstatic.com/xdata/images/hotel/max1024x768/7.jpg";
     lit "https://cf.bstatic.com/xdata/images/hotel/square600/8.jpg"]
    (lit "25 m2") [lit "Wifi"].

(** A style with a photo url. *)
Definition photo_style : jstring :=
  lit "background-image: url(" ++ [dquote] ++ lit "https://cf.bstatic.com/7.jpg"
    ++ [dquote] ++ lit ");".

(** A gallery image served from a tracking path. *)
Definition tracked_image : request :=
  mkRequest (lit "image")
    (lit "https://cf.bstatic.com/xdata/images/hotel/max300/tracking/3.jpg").

(** A world in which every call succeeds but the parallel evaluation and
    [browser.close()], which do what [parallel] and [close] say, and in which
    the page ends on [final]. *)
Definition variant_world (final : jstring) (parallel close : outcome unit) : World :=
  mkWorld (lit "1700000000000") (fun _ => lit "2024-01-01T00:00:00.000Z")
    (fun _ => JUndefined) (fun s => s)
    (Ret tt) (Ret tt) (Ret tt) (Ret tt) (Ret tt) (Ret tt) (Ret tt)
    [] (Ret (Some 200)) hotel_url (Ret tt) hotel_url (Ret tt) hotel_url final
    (Ret tt) (Ret tt) (fun _ => Ret tt) (fun _ => Ret tt)
    sample_page parallel (Ret tt) close.

Definition home_url : jstring := lit "https://www.booking.com/index.html".

(** The page was redirected to the home page. *)
Definition redirected_world : World := variant_world home_url (Ret tt) (Ret tt).

Definition wrong_page_message : jstring :=
  lit "Final URL is not a hotel page: https://www.booking.com/index.html".

Definition close_error : jserror := Error (lit "Protocol error: Target closed").
Definition close_fails_world : World := variant_world hotel_url (Ret tt) (Throw close_error).

Definition evaluate_error : jserror := Error (lit "Execution context was destroyed").
Definition evaluate_fails_world : World :=
  variant_world hotel_url (Throw evaluate_error) (Ret tt).

(** The restaurants of [restaurants_block] again, under another heading. *)
Definition attractions_block : poi_block :=
  mkPoiBlock (Some (lit "Top attractions")) (blk_items restaurants_block).

(** A page of 250 pixels, and a page that is always 200 pixels longer than
    what has been scrolled. *)
Definition short_page : nat → N := fun _ => 250.
Definition endless_page : nat → N := fun tick => 100 * (N.of_nat tick + 2).


End Samples.

(** * Properties *)

(** ** Strings *)

Module StringFacts.
Import Spec.

Lemma starts_with_app (p t : jstring) : starts_with p (p ++ t) = true.
Proof.
  induction p as [|a p IH]; simpl; [done|].
  by rewrite N.eqb_refl, IH.
Qed.

Lemma starts_with_spec (p s : jstring) :
  starts_with p s = true ↔ ∃ t, s = p ++ t.
Proof.
  split.
  - revert s; induction p as [|a p IH]; intros s H; simpl in *.
    + by exists s.
    + destruct s as [|b s]; [done|].
      apply andb_true_iff in H as [Hab Hs].
      apply N.eqb_eq in Hab as ->.
      destruct (IH _ Hs) as [t ->]. by exists t.
  - intros [t ->]. apply starts_with_app.
Qed.

Lemma includes_start (s needle : jstring) :
  starts_with needle s = true → includes s needle = true.
Proof. intros H. destruct s; simpl; by rewrite H. Qed.

Lemma includes_spec (s needle : jstring) :
  includes s needle = true ↔ substring needle s.
Proof.
  split.
  - induction s as [|c s IH]; simpl; intros H.
    + rewrite orb_false_r in H. apply starts_with_spec in H as [t Ht].
      by exists [], t.
    + apply orb_true_iff in H as [H|H].
      * apply starts_with_spec in H as [t Ht]. by exists [], t.
      * destruct (IH H) as (pre & post & ->). by exists (c :: pre), post.
  - intros (pre & post & ->).
    induction pre as [|c pre IH]; simpl.
    + apply includes_start, starts_with_app.
    + by rewrite IH, orb_true_r.
Qed.

Lemma includes_cons (c : N) (s needle : jstring) :
  includes (c :: s) needle = starts_with needle (c :: s) || includes s needle.
Proof. reflexivity. Qed.

Lemma occurrences_cons (pat : jstring) (c : N) (s : jstring) :
  occurrences pat (c :: s) =
    ((if starts_with pat (c :: s) then 1 else 0) + occurrences pat s)%nat.
Proof. reflexivity. Qed.

Lemma replace_first_cons (pat rep : jstring) (c : N) (s : jstring) :
  replace_first pat rep (c :: s) =
    if starts_with pat (c :: s) then rep ++ drop (length pat) (c :: s)
    else c :: replace_first pat rep s.
Proof. reflexivity. Qed.

Lemma includes_occurrences (pat s : jstring) :
  includes s pat = false ↔ occurrences pat s = 0%nat.
Proof.
  induction s as [|c s IH]; simpl.
  - rewrite orb_false_r. destruct (starts_with pat []); split; (done || lia).
  - destruct (starts_with pat (c :: s)); simpl.
    + split; (done || lia).
    + by rewrite IH.
Qed.

Lemma includes_trans (s mid needle : jstring) :
  substring needle mid → includes s mid = true → includes s needle = true.
Proof.
  intros (a & b & ->) H. apply includes_spec in H as (pre & post & ->).
  apply includes_spec. exists (pre ++ a), (b ++ post).
  by rewrite <- !(assoc_L (++)).
Qed.

(** The first occurrence splits the string, and [replace_first] rewrites
    exactly that occurrence. *)
Lemma replace_first_split (pat rep s : jstring) :
  includes s pat = true →
  ∃ pre post, s = pre ++ pat ++ post ∧
              replace_first pat rep s = pre ++ rep ++ post.
Proof.
  induction s as [|c s IH]; simpl; intros H.
  - rewrite orb_false_r in H. rewrite H.
    apply starts_with_spec in H as [t Ht].
    symmetry in Ht. apply app_eq_nil in Ht as [-> ->].
    exists [], []. by rewrite !app_nil_r.
  - destruct (starts_with pat (c :: s)) eqn:E.
    + apply starts_with_spec in E as [t Ht]. rewrite Ht.
      exists [], t. split; [done|]. simpl. by rewrite drop_app_length.
    + simpl in H. destruct (IH H) as (pre & post & -> & ->).
      by exists (c :: pre), post.
Qed.

Lemma replace_first_absent (pat rep s : jstring) :
  includes s pat = false → replace_first pat rep s = s.
Proof.
  induction s as [|c s IH]; simpl; intros H.
  - apply orb_false_iff in H as [-> _]. done.
  - apply orb_false_iff in H as [-> H]. by rewrite IH.
Qed.

Lemma replace_first_includes (pat rep s : jstring) :
  includes s pat = true → includes (replace_first pat rep s) rep = true.
Proof.
  intros H. destruct (replace_first_split pat rep s H) as (pre & post & _ & ->).
  apply includes_spec. by exists pre, post.
Qed.

End StringFacts.

(** ** Numbers *)

Module NumberFacts.

Lemma round_double_exact (n : N) : n < 2 ^ 53 → round_double n = Some n.
Proof. intros H. unfold round_double. by apply N.ltb_lt in H as ->. Qed.

(** From 2^53 on the result is a multiple of the spacing [2 ^ e] of the
    doubles around [n], with a significand of at most 53 bits, at most half a
    spacing away from [n], and the even one of the two when [n] is half way. *)
Lemma round_double_nearest (n v : N) :
  2 ^ 53 ≤ n → round_double n = Some v →
  let e := N.log2 n - 52 in
  ∃ q, v = q * 2 ^ e ∧ 2 ^ 52 ≤ q ≤ 2 ^ 53 ∧
       2 * v ≤ 2 * n + 2 ^ e ∧ 2 * n ≤ 2 * v + 2 ^ e ∧
       (2 * v = 2 * n + 2 ^ e ∨ 2 * n = 2 * v + 2 ^ e → N.even q = true) ∧
       v < 2 ^ 1024.
Proof.
  intros Hn. unfold round_double.
  destruct (n <? 2 ^ 53) eqn:E; [apply N.ltb_lt in E; lia|]. clear E.
  cbv zeta. set (e := N.log2 n - 52).
  assert (53 ≤ N.log2 n) as Hlog.
  { change 53 with (N.log2 (2 ^ 53)). by apply N.log2_le_mono. }
  assert (0 < n) as Hpos by (assert (0 < 2 ^ 53) by done; lia).
  destruct (N.log2_spec n Hpos) as [Hlo Hhi].
  assert (N.log2 n = 52 + e) as Hle by lia.
  rewrite N.pow_succ_r', Hle, N.pow_add_r in Hhi. rewrite Hle, N.pow_add_r in Hlo.
  assert (2 ^ e = 2 * 2 ^ (e - 1)) as Hhalf.
  { rewrite <- N.pow_succ_r'. f_equal. lia. }
  assert (0 < 2 ^ (e - 1)) as Hhpos by (apply N.neq_0_lt_0, N.pow_nonzero; lia).
  set (h := 2 ^ (e - 1)) in *.
  pose proof (N.div_mod n (2 ^ e) ltac:(lia)) as Hdm.
  pose proof (N.mod_lt n (2 ^ e) ltac:(lia)) as Hr.
  set (q := n / 2 ^ e) in *. set (r := n mod 2 ^ e) in *.
  assert (2 ^ 52 ≤ q < 2 ^ 53) as Hq.
  { split.
    - apply N.div_le_lower_bound; lia.
    - apply N.Div0.div_lt_upper_bound; lia. }
  destruct (2 ^ 1024 <=? _) eqn:Ev; [done|]. apply N.leb_gt in Ev.
  intros [= <-].
  assert (∀ p x y : N, p * x + p = (x + 1) * p ∧ p * x = x * p) as Hmul
    by (intros; lia).
  destruct (Hmul (2 ^ e) q 0) as [Hm1 Hm2].
  destruct ((h <? r) || ((r =? h) && N.odd q)) eqn:Eu.
  - exists (q + 1). rewrite <- Hm1.
    assert (h ≤ r) as Hhr.
    { apply orb_true_iff in Eu as [Eu|Eu]; [apply N.ltb_lt in Eu; lia|].
      apply andb_true_iff in Eu as [Er _]. apply N.eqb_eq in Er. lia. }
    split_and!; [done|lia|lia| | | |by rewrite Hm1].
    + clear -Hdm Hr Hhalf Hhr. lia.
    + clear -Hdm Hr Hhalf Hhr. lia.
    + apply orb_true_iff in Eu as [Eu|Eu].
      * apply N.ltb_lt in Eu. clear -Hdm Hr Hhalf Eu. intros [H|H]; lia.
      * apply andb_true_iff in Eu as [_ Eo].
        intros _. by rewrite N.even_add, <- N.negb_odd, Eo.
  - exists q. rewrite <- Hm2. apply orb_false_iff in Eu as [Eu1 Eu2].
    apply N.ltb_ge in Eu1.
    split_and!; [done|lia|lia| | | |by rewrite Hm2].
    + clear -Hdm Hr Hhalf Eu1. lia.
    + clear -Hdm Hr Hhalf Eu1. lia.
    + intros [H|H]; [clear -Hdm Hr Hhalf Eu1 H Hhpos; lia|].
      assert (r = h) as Hrh by (clear -Hdm Hr Hhalf Eu1 H; lia).
      apply N.eqb_eq in Hrh. rewrite Hrh in Eu2. simpl in Eu2.
      by rewrite <- N.negb_odd, Eu2.
Qed.

(** From 2^1024 on the result is [Infinity]. *)
Lemma round_double_infinity (n : N) : 2 ^ 1024 ≤ n → round_double n = None.
Proof.
  intros Hn. unfold round_double.
  assert (1024 ≤ N.log2 n) as Hlog.
  { rewrite <- (N.log2_pow2 1024) by done. by apply N.log2_le_mono. }
  assert (2 ^ 53 ≤ n) as H53.
  { etrans; [|exact Hn]. apply N.pow_le_mono_r; [done|]. by apply N.leb_le. }
  destruct (n <? 2 ^ 53) eqn:E; [apply N.ltb_lt in E; lia|]. clear E.
  cbv zeta. set (e := N.log2 n - 52).
  assert (N.log2 n = 52 + e) as Hle by lia.
  assert (0 < n) as Hpos by (destruct n; [done|lia]).
  destruct (N.log2_spec n Hpos) as [Hlo _].
  rewrite Hle, N.pow_add_r in Hlo.
  assert (0 < 2 ^ e) as Hpe by (apply N.neq_0_lt_0, N.pow_nonzero; lia).
  assert (2 ^ 52 ≤ n / 2 ^ e) as Hq by (apply N.div_le_lower_bound; lia).
  set (q := n / 2 ^ e) in *.
  match goal with |- context [if ?c then q + 1 else q] => set (q' := if c then q + 1 else q) end.
  assert (q ≤ q') as Hq' by (unfold q'; destruct (_ || _); lia).
  assert (2 ^ 1024 ≤ q' * 2 ^ e) as Hv.
  { etrans; [|apply N.mul_le_mono_r; etrans; [exact Hq|exact Hq']].
    rewrite <- N.pow_add_r. apply N.pow_le_mono_r; [done|]. lia. }
  by apply N.leb_le in Hv as ->.
Qed.

End NumberFacts.

(** ** utils.js: the diagnostic logger and the URL check *)

Module UtilsFacts.
Import Extractors Scraper Server Spec StringFacts.

Lemma step_entry_lookup (now step : jstring) (details : jsval) (k : jstring) :
  step_entry now step details !! k =
    match own_props details !! k with
    | Some v => Some v
    | None => (<[lit "step" := JStr step]> (<[lit "timestamp" := JStr now]> ∅)
                 : gmap jstring jsval) !! k
    end.
Proof.
  unfold step_entry. rewrite lookup_union.
  destruct (own_props details !! k) as [v|];
    by destruct (_ !! k).
Qed.

(** C10. Every call of [addStep] appends exactly one entry to [steps] and
    leaves the entries before it, the session id and the screenshots as they
    were.  The entry carries the step label and the timestamp unless the
    detail payload has a property named [step] or [timestamp]: the payload is
    spread last, so its value wins. *)
Theorem addStep_appends_one (now step : jstring) (details : jsval) (d : diagnostics) :
  let d' := addStep now step details d in
  let entry := step_entry now step details in
  steps d' = steps d ++ [entry] ∧
  length (steps d') = S (length (steps d)) ∧
  take (length (steps d)) (steps d') = steps d ∧
  sessionId d' = sessionId d ∧ screenshots d' = screenshots d ∧
  entry !! lit "step" = Some (default (JStr step) (own_props details !! lit "step")) ∧
  entry !! lit "timestamp" =
    Some (default (JStr now) (own_props details !! lit "timestamp")) ∧
  step_entry now step (obj [("step", JStr (lit "forged"))%string]) !! lit "step"
    = Some (JStr (lit "forged")) ∧
  step_entry now step (obj [("timestamp", JStr (lit "never"))%string]) !! lit "timestamp"
    = Some (JStr (lit "never")).
Proof.
  simpl. split_and!.
  - done.
  - rewrite length_app. simpl. lia.
  - by rewrite take_app_length.
  - done.
  - done.
  - rewrite step_entry_lookup.
    destruct (own_props details !! lit "step"); [done|].
    by rewrite lookup_insert_eq.
  - rewrite step_entry_lookup.
    destruct (own_props details !! lit "timestamp"); [done|].
    rewrite lookup_insert_ne by done. by rewrite lookup_insert_eq.
  - rewrite step_entry_lookup. simpl. by rewrite lookup_insert_eq.
  - rewrite step_entry_lookup. simpl. by rewrite lookup_insert_eq.
Qed.

Lemma arr_includes_spec (l : list jsval) (s : jstring) :
  arr_includes l s = true ↔ JStr s ∈ l.
Proof.
  unfold arr_includes. rewrite existsb_exists. split.
  - intros (v & Hin & Hv). destruct v; try done.
    simpl in Hv. apply bool_decide_eq_true in Hv as ->.
    by apply list_elem_of_In.
  - intros Hin. exists (JStr s). split; [by apply list_elem_of_In|].
    simpl. by apply bool_decide_eq_true.
Qed.

Lemma marker_nonempty (pre post : jstring) :
  truthy (JStr (pre ++ marker ++ post)) = true.
Proof. simpl. rewrite length_app. simpl. by rewrite Nat.add_succ_r. Qed.

(** The check returns [true] exactly on the truthy values that contain
    the marker. *)
Lemma isValidBookingUrl_true_iff (url : jsval) :
  isValidBookingUrl url = Ret (JBool true) ↔
  truthy url = true ∧ contains url marker.
Proof.
  unfold isValidBookingUrl. destruct url as [| |b|n|s|l|o]; simpl.
  - split; [done|by intros []].
  - split; [done|by intros []].
  - destruct b; (split; [done|by intros []]).
  - destruct (n =? 0)%Z; (split; [done|by intros []]).
  - destruct (Nat.eqb (length s) 0) eqn:E; simpl.
    + split; [done|by intros []].
    + rewrite <- includes_spec. split.
      * intros [= ->]; done.
      * by intros [_ ->].
  - rewrite <- arr_includes_spec. split.
    + intros [= ->]; done.
    + by intros [_ ->].
  - split; [done|by intros []].
Qed.

(** The check answers something falsy on the values that have an
    [includes] method, or are falsy, and do not contain the marker. *)
Lemma isValidBookingUrl_falsy (url : jsval) :
  (truthy url = false ∨ (∃ s, url = JStr s) ∨ (∃ l, url = JArr l)) →
  ¬ contains url marker →
  ∃ v, isValidBookingUrl url = Ret v ∧ truthy v = false.
Proof.
  intros Hdom Hno. unfold isValidBookingUrl.
  destruct (truthy url) eqn:Ht.
  - destruct Hdom as [?|[[s ->]|[l ->]]]; [done| |].
    + exists (JBool false). split; [|done]. do 2 f_equal.
      apply not_true_is_false. rewrite includes_spec. exact Hno.
    + exists (JBool false). split; [|done]. do 2 f_equal.
      apply not_true_is_false. rewrite arr_includes_spec. exact Hno.
  - by exists url.
Qed.

(** On a truthy value without an [includes] method the check throws. *)
Lemma isValidBookingUrl_throws (url : jsval) :
  truthy url = true → (∀ s, url ≠ JStr s) → (∀ l, url ≠ JArr l) →
  isValidBookingUrl url = Throw (TypeError (lit "url.includes is not a function")).
Proof.
  intros Ht Hs Hl. unfold isValidBookingUrl. rewrite Ht.
  destruct url; try done; [by destruct (Hs s)|by destruct (Hl l)].
Qed.

End UtilsFacts.

(** ** extractors.js *)

Module RatingFacts.
Import Extractors Spec StringFacts.

Lemma extractRating_returns (d : rating_dom) : ∃ r, extractRating d = Ret r.
Proof. unfold extractRating. destruct (extractRating_try d); by eexists. Qed.

End RatingFacts.

(** ** The scrape monad *)

Module HoareFacts.
Import Extractors Scraper Server Spec RatingFacts.

Section Rules.
Context {A B : Type}.
Implicit Types (P : state → Prop) (E : jserror → state → Prop).

Lemma hoare_conseq P P' (m : M A) Q Q' E E' :
  hoare P m Q E →
  (∀ st, P' st → P st) → (∀ a st, Q a st → Q' a st) →
  (∀ e st, E e st → E' e st) →
  hoare P' m Q' E'.
Proof.
  intros H HP HQ HE st Hst. specialize (H st (HP _ Hst)).
  destruct (m st) as [[a|e] st']; auto.
Qed.

Lemma hoare_ret P (a : A) Q E :
  (∀ st, P st → Q a st) → hoare P (mret a) Q E.
Proof. intros H st Hst. by apply H. Qed.

Lemma hoare_throw P (e : jserror) (Q : A → state → Prop) E :
  (∀ st, P st → E e st) → hoare P (throw e) Q E.
Proof. intros H st Hst. by apply H. Qed.

Lemma hoare_lift P (o : outcome A) Q E :
  (∀ st, P st → match o with Ret a => Q a st | Throw e => E e st end) →
  hoare P (lift o) Q E.
Proof. intros H st Hst. specialize (H st Hst). unfold lift. by destruct o. Qed.

Lemma hoare_bind P (R : A → state → Prop) (m : M A) (k : A → M B) Q E :
  hoare P m R E → (∀ a, hoare (R a) (k a) Q E) → hoare P (m ≫= k) Q E.
Proof.
  intros Hm Hk st Hst. specialize (Hm st Hst).
  unfold mbind, M_bind. destruct (m st) as [[a|e] st']; [|done].
  by apply Hk.
Qed.

Lemma hoare_try_catch P (R : jserror → state → Prop) (m : M A) h Q E :
  hoare P m Q R → (∀ e, hoare (R e) (h e) Q E) → hoare P (try_catch m h) Q E.
Proof.
  intros Hm Hh st Hst. specialize (Hm st Hst).
  unfold try_catch. destruct (m st) as [[a|e] st']; [done|].
  by apply Hh.
Qed.

Lemma hoare_false (m : M A) Q E : hoare (fun _ => False) m Q E.
Proof. by intros st []. Qed.
End Rules.

(** Rules for a stable invariant. *)
Section Invariant.
Variables (allowed : event → Prop) (I : state → Prop).
Hypothesis HI : stable allowed I.
Variable w : World.

Lemma inv_ret {A} (a : A) : returns I (mret a : M A).
Proof. by apply hoare_ret. Qed.

Lemma inv_throw {A} (e : jserror) : inv I (throw e : M A).
Proof. by apply hoare_throw. Qed.

Lemma inv_lift {A} (o : outcome A) : inv I (lift o).
Proof. apply hoare_lift. intros st Hst. by destruct o. Qed.

Lemma returns_inv {A} (m : M A) : returns I m → inv I m.
Proof. intros H. eapply hoare_conseq; [exact H|auto..]. by intros ?? []. Qed.

Lemma inv_bind {A B} (m : M A) (k : A → M B) :
  inv I m → (∀ a, inv I (k a)) → inv I (m ≫= k).
Proof. intros Hm Hk. by apply (hoare_bind _ (fun _ => I)). Qed.

Lemma returns_bind {A B} (m : M A) (k : A → M B) :
  returns I m → (∀ a, returns I (k a)) → returns I (m ≫= k).
Proof. intros Hm Hk. by apply (hoare_bind _ (fun _ => I)). Qed.

Lemma inv_try_catch {A} (m : M A) h :
  inv I m → (∀ e, inv I (h e)) → inv I (try_catch m h).
Proof. intros Hm Hh. by apply (hoare_try_catch _ (fun _ => I)). Qed.

Lemma returns_try_catch {A} (m : M A) h :
  inv I m → (∀ e, returns I (h e)) → returns I (try_catch m h).
Proof. intros Hm Hh. by apply (hoare_try_catch _ (fun _ => I)). Qed.

Lemma returns_addStepM step details : returns I (addStepM w step details).
Proof.
  intros [d g b t] Hst. simpl. destruct HI as [Hd _]. by eapply Hd.
Qed.

Lemma inv_call {A} ev (o : outcome A) : allowed ev → inv I (call ev o).
Proof.
  intros Hev [d g b t] Hst. unfold call. simpl.
  destruct HI as [_ He]. destruct o; by apply He.
Qed.

Lemma returns_call {A} ev (a : A) : allowed ev → returns I (call ev (Ret a)).
Proof.
  intros Hev [d g b t] Hst. unfold call. simpl.
  destruct HI as [_ He]. by apply He.
Qed.

Lemma returns_lift {A} (a : A) : returns I (lift (Ret a)).
Proof. by apply hoare_lift. Qed.

Lemma returns_try {A} (m : M A) h : returns I m → returns I (try_catch m h).
Proof.
  intros Hm. apply (hoare_try_catch _ (fun _ _ => False)); [done|].
  intros e. apply hoare_false.
Qed.

Lemma returns_get_galleryImages : returns I get_galleryImages.
Proof. by intros st Hst. Qed.

Lemma hoare_bind_inv {A B} (m : M A) (k : A → M B) Q E :
  inv I m → (∀ e st, I st → E e st) → (∀ a, hoare I (k a) Q E) →
  hoare I (m ≫= k) Q E.
Proof.
  intros Hm HE Hk. apply (hoare_bind _ (fun _ => I)); [|done].
  eapply hoare_conseq; [exact Hm|auto..].
Qed.

Lemma hoare_bind_returns {A B} (m : M A) (k : A → M B) Q E :
  returns I m → (∀ a, hoare I (k a) Q E) → hoare I (m ≫= k) Q E.
Proof.
  intros Hm Hk. apply (hoare_bind _ (fun _ => I)); [|done].
  eapply hoare_conseq; [exact Hm|auto..]. by intros ?? [].
Qed.

(** Every call but the launch and the close of the browser is allowed. *)
Hypothesis Hallowed : ∀ ev, ev ≠ EvLaunch → ev ≠ EvClose → allowed ev.

Ltac allowed := apply Hallowed; discriminate.

Ltac inv_step :=
  lazymatch goal with
  | |- inv _ (_ ≫= _) => apply inv_bind; [|intros ?]
  | |- inv _ (try_catch _ _) => apply inv_try_catch; [|intros ?]
  | |- inv _ (addStepM _ _ _) => apply returns_inv, returns_addStepM
  | |- inv _ (call _ _) => apply inv_call; allowed
  | |- inv _ (mret _) => apply returns_inv, inv_ret
  | |- inv _ (throw _) => apply inv_throw
  | |- inv _ (lift _) => apply inv_lift
  | |- inv _ get_galleryImages => apply returns_inv, returns_get_galleryImages
  | |- inv _ (if ?b then _ else _) => destruct b
  | |- inv _ (match ?x with _ => _ end) => destruct x
  end.

Ltac returns_step :=
  lazymatch goal with
  | |- returns _ (_ ≫= _) => apply returns_bind; [|intros ?]
  | |- returns _ (try_catch _ _) => apply returns_try_catch; [|intros ?]
  | |- returns _ (addStepM _ _ _) => apply returns_addStepM
  | |- returns _ (call _ (Ret _)) => apply returns_call; allowed
  | |- returns _ (mret _) => apply inv_ret
  | |- returns _ (lift (Ret _)) => apply returns_lift
  | |- returns _ get_galleryImages => apply returns_get_galleryImages
  | |- returns _ (if ?b then _ else _) => destruct b
  | |- inv _ _ => inv_step
  end.

Lemma returns_delay ms : returns I (delay ms).
Proof. unfold delay. returns_step. Qed.

Lemma returns_click_tab selector name : returns I (click_tab w selector name).
Proof. unfold click_tab, delay. repeat returns_step. Qed.

Lemma returns_loadDynamicContent : returns I (loadDynamicContent w).
Proof.
  unfold loadDynamicContent.
  repeat (apply returns_bind; [apply returns_click_tab|intros ?]).
  apply returns_click_tab.
Qed.

Lemma returns_handle_soft_block url : returns I (handle_soft_block w url).
Proof. unfold handle_soft_block, delay. cbv zeta. repeat returns_step. Qed.

Lemma inv_check_status status : inv I (check_status status).
Proof. unfold check_status. repeat inv_step. Qed.

Lemma returns_check_status status :
  status ≠ 403 → status ≠ 404 → returns I (check_status status).
Proof.
  intros H3 H4. unfold check_status.
  apply N.eqb_neq in H3, H4. rewrite H3, H4.
  destruct (negb _); apply inv_ret.
Qed.

Lemma inv_extractHotelData : inv I (extractHotelData w).
Proof. unfold extractHotelData. cbv zeta. repeat inv_step. Qed.

Lemma inv_after_response url status : inv I (after_response w url status).
Proof.
  unfold after_response. cbv zeta.
  repeat lazymatch goal with
    | |- inv _ (handle_soft_block _ _) =>
        apply returns_inv, returns_handle_soft_block
    | |- inv _ (loadDynamicContent _) =>
        apply returns_inv, returns_loadDynamicContent
    | |- inv _ (check_status _) => apply inv_check_status
    | |- inv _ (extractHotelData _) => apply inv_extractHotelData
    | _ => inv_step
    end.
Qed.

Lemma returns_extractHotelData :
  w_parallel w = Ret tt → w_rooms w = Ret tt → returns I (extractHotelData w).
Proof.
  intros Hp Hr. unfold extractHotelData. cbv zeta. rewrite Hp, Hr.
  apply returns_try.
  destruct (extractRating_returns (pg_rating (w_page w))) as [r ->].
  repeat returns_step.
Qed.

Lemma hoare_finish hd E :
  hoare I
    (collected ← get_galleryImages;
     let hotelData := with_galleryImages hd (JsSet.of_list collected) in
     addStepM w (lit "Extraction complete")
       (obj [("dataFields", data_fields);
             ("hasRooms", JBool (0 <? length (rooms hotelData))%nat);
             ("hasReviews", JBool (0 <? length (reviews hotelData))%nat)]%string);;
     mret (Success hotelData))
    (result_post I) E.
Proof.
  intros [d g b t] Hst. unfold mbind, M_bind, get_galleryImages, addStepM. simpl.
  split; [|by eexists]. destruct HI as [Hd _]. by eapply Hd.
Qed.

Ltac returns_known :=
  lazymatch goal with
  | |- returns _ (handle_soft_block _ _) => apply returns_handle_soft_block
  | |- returns _ (loadDynamicContent _) => apply returns_loadDynamicContent
  | |- returns _ (check_status _) => by apply returns_check_status
  | |- returns _ (extractHotelData _) => by apply returns_extractHotelData
  | _ => repeat returns_step
  end.

Ltac inv_known :=
  repeat lazymatch goal with
  | |- inv _ (handle_soft_block _ _) =>
      apply returns_inv, returns_handle_soft_block
  | |- inv _ (loadDynamicContent _) =>
      apply returns_inv, returns_loadDynamicContent
  | |- inv _ (check_status _) => apply inv_check_status
  | |- inv _ (extractHotelData _) => apply inv_extractHotelData
  | _ => inv_step
  end.

Lemma after_response_result url status :
  hoare I (after_response w url status) (result_post I) (fun _ => I).
Proof.
  unfold after_response. cbv zeta.
  repeat lazymatch goal with
  | |- hoare _ (get_galleryImages ≫= _) _ _ => apply hoare_finish
  | |- hoare _ (_ ≫= _) _ _ =>
      apply hoare_bind_inv; [by inv_known|done|intros ?]
  end.
Qed.

Lemma after_response_succeeds url status :
  status ≠ 403 → status ≠ 404 → rest_ok w →
  hoare I (after_response w url status) (result_post I) (fun _ _ => False).
Proof.
  intros H3 H4 (Hf & Hb & Hs & Hp & Hr).
  unfold after_response. cbv zeta. rewrite Hf, Hb, Hs. simpl negb.
  repeat lazymatch goal with
  | |- hoare _ (get_galleryImages ≫= _) _ _ => apply hoare_finish
  | |- hoare _ (_ ≫= _) _ _ =>
      apply hoare_bind_returns; [by returns_known|intros ?]
  end.
Qed.

Lemma after_response_refused url status msg :
  check_status status = throw (Error msg) →
  hoare I (after_response w url status) (fun _ _ => False)
    (fun e st => I st ∧ e = Error msg).
Proof.
  intros Hs. unfold after_response. cbv zeta.
  apply hoare_bind_returns; [by returns_known|intros ?].
  apply hoare_bind_returns; [by returns_known|intros ?].
  apply (hoare_bind _ (fun _ _ => False)); [|intros ?; apply hoare_false].
  rewrite Hs. by apply hoare_throw.
Qed.

(** [goto] hands the intercepted requests to the observer. *)
Hypothesis Hgallery : ∀ d g b t g', I (mkState d g b t) → I (mkState d g' b t).

Lemma inv_goto url : inv I (goto w url).
Proof.
  intros [d g b t] Hst. unfold goto. simpl.
  destruct HI as [_ He].
  destruct (w_goto w); apply He; try allowed; by eapply Hgallery.
Qed.

Lemma inv_after_launch url : inv I (after_launch w url).
Proof.
  unfold after_launch.
  repeat lazymatch goal with
    | |- inv _ (goto _ _) => apply inv_goto
    | |- inv _ (after_response _ _ _) => apply inv_after_response
    | _ => inv_step
    end.
Qed.
End Invariant.

End HoareFacts.

(** ** scraper.js: the scrape from launch to close *)

Module ScrapeFacts.
Import Extractors Scraper Server Spec StringFacts HoareFacts.

Lemma launched_stable : stable not_launch_close launched.
Proof.
  split.
  - by intros d g b t d' H.
  - intros d g b t ev [Hl Hc] [Hb (tr & Ht & Hnc & Hnl)]. simpl in *.
    split; [done|]. exists (tr ++ [ev]). rewrite Ht. split; [done|].
    rewrite !elem_of_app, !list_elem_of_singleton.
    split; intros [?|?]; congruence.
Qed.

Lemma launched_inv (w : World) (url : jsval) : inv launched (after_launch w url).
Proof.
  apply (inv_after_launch not_launch_close); [apply launched_stable|done|].
  by intros d g b t g' H.
Qed.

(** The [try] block up to the launch. *)
Lemma scrape_try_launch (w : World) (url : jsval) :
  ∃ st0, st_browser st0 = false ∧ st_trace st0 = [] ∧ st_galleryImages st0 = [] ∧
    scrape_try w url (initial w) =
      match w_launch w with
      | Ret _ => after_launch w url
                   (mkState (st_diagnostics st0) [] true [EvLaunch])
      | Throw e => (Throw e, mkState (st_diagnostics st0) [] false [EvLaunch])
      end.
Proof.
  eexists (mkState _ [] false []). split_and!; [done..|].
  unfold scrape_try. unfold mbind at 1 2. unfold M_bind, addStepM, launch, initial.
  simpl. by destruct (w_launch w).
Qed.

Lemma run_scrape_completion (w : World) (url : jsval) :
  run_scrape w url =
    completion w (scrape_try w url (initial w)).1 (scrape_try w url (initial w)).2.
Proof.
  unfold run_scrape, scrapeHotelData, try_finally, try_catch, completion.
  destruct (scrape_try w url (initial w)) as [[r|e] [d g b t]]; simpl;
    unfold mbind, M_bind, get_browser, addStepM, call; simpl;
    (destruct b; [|reflexivity]);
    by destruct (w_close w).
Qed.

Lemma launched_start d : launched (mkState d [] true [EvLaunch]).
Proof.
  split; [done|]. exists []. split_and!; [done|..]; apply not_elem_of_nil.
Qed.

(** The state in which the [try] block leaves a launched browser. *)
Lemma scrape_try_launched (w : World) (url : jsval) (u : unit) :
  w_launch w = Ret u →
  launched (scrape_try w url (initial w)).2 ∧
  ∃ st1, scrape_try w url (initial w) = after_launch w url st1 ∧
         st_galleryImages st1 = [] ∧ st_browser st1 = true ∧
         st_trace st1 = [EvLaunch].
Proof.
  intros Hl. destruct (scrape_try_launch w url) as (st0 & _ & _ & _ & ->).
  rewrite Hl. split.
  - pose proof (launched_inv w url _ (launched_start (st_diagnostics st0))) as H.
    by destruct (after_launch w url _) as [[r|e] st].
  - by eexists.
Qed.

Lemma run_scrape_launched (w : World) (url : jsval) (u : unit) :
  w_launch w = Ret u →
  ∃ tr, st_trace (run_scrape w url).2 = EvLaunch :: tr ++ [EvClose] ∧
        (EvClose ∉ tr) ∧ (EvLaunch ∉ tr).
Proof.
  intros Hl. rewrite run_scrape_completion.
  destruct (scrape_try_launched w url u Hl) as [H _].
  destruct (scrape_try w url (initial w)) as [o [d g b t]].
  destruct H as [Hb (tr & Ht & Hc & Hn)]. simpl in *. subst b t.
  exists tr. unfold completion.
  destruct o as [r|e]; simpl; by destruct (w_close w).
Qed.

Lemma run_scrape_launch_failed (w : World) (url : jsval) (e : jserror) :
  w_launch w = Throw e →
  st_trace (run_scrape w url).2 = [EvLaunch] ∧
  (run_scrape w url).1 = Ret (Failure (err_message e)).
Proof.
  intros Hl. rewrite run_scrape_completion.
  destruct (scrape_try_launch w url) as (st0 & _ & _ & _ & ->).
  by rewrite Hl.
Qed.

Lemma run_scrape_returns (w : World) (url : jsval) (c : unit) :
  w_close w = Ret c → ∃ r, (run_scrape w url).1 = Ret r.
Proof.
  intros Hc. rewrite run_scrape_completion. unfold completion. rewrite Hc.
  destruct (scrape_try w url (initial w)) as [[r|e] [d g b t]]; simpl;
    destruct b; by eexists.
Qed.

(** C2. On every exit path of [scrapeHotelData] a browser that was
    launched is closed: when [puppeteer.launch] succeeds, the calls made
    are the launch, then calls that neither launch nor close a browser, and
    last [browser.close()], whatever the world answers in between (success,
    navigation error, wrong page, extraction exception); when the launch
    fails there is no browser and nothing else is called.  The function
    returns (it never throws) as long as [browser.close()] itself does not
    throw. *)
Theorem browser_closed_on_every_path (w : World) (url : jsval) :
  (∀ u, w_launch w = Ret u →
     ∃ tr, st_trace (run_scrape w url).2 = EvLaunch :: tr ++ [EvClose] ∧
           (EvClose ∉ tr) ∧ (EvLaunch ∉ tr)) ∧
  (∀ e, w_launch w = Throw e →
     st_trace (run_scrape w url).2 = [EvLaunch] ∧
     (run_scrape w url).1 = Ret (Failure (err_message e))) ∧
  (∀ c, w_close w = Ret c → ∃ r, (run_scrape w url).1 = Ret r).
Proof.
  split_and!.
  - apply run_scrape_launched.
  - apply run_scrape_launch_failed.
  - apply run_scrape_returns.
Qed.

(** The first call of every scrape is the launch. *)
Lemma run_scrape_launches (w : World) (url : jsval) :
  ∃ tr, st_trace (run_scrape w url).2 = EvLaunch :: tr.
Proof.
  destruct (w_launch w) as [u|e] eqn:Hl.
  - destruct (run_scrape_launched w url u Hl) as (tr & -> & _). by eexists.
  - destruct (run_scrape_launch_failed w url e Hl) as [-> _]. by eexists.
Qed.

Lemma bind_addStepM {A} (w : World) step details (k : unit → M A) st :
  (addStepM w step details ≫= k) st = k tt (logged w step details st).
Proof. reflexivity. Qed.

Lemma bind_call_ret {A B} ev (a : A) (k : A → M B) st :
  (call ev (Ret a) ≫= k) st = k a (push ev st).
Proof. reflexivity. Qed.

(** With a launched browser and a page that configures, the [try] block
    reaches [page.goto(url)]; the observer has then seen the requests. *)
Lemma after_launch_goto (w : World) (url : jsval) (st : state) :
  setup_ok w →
  ∃ st', after_launch w url st =
           match w_goto w with
           | Ret None => (Throw (Error (lit "No response from server")), st')
           | Ret (Some status) => after_response w url status st'
           | Throw e => (Throw e, st')
           end ∧
         st_browser st' = st_browser st ∧
         st_galleryImages st' = observe_requests (w_requests w) (st_galleryImages st) ∧
         EvGoto url ∈ st_trace st'.
Proof.
  intros (Hl & Hn & Ha & Hv & Hu & Hh & Hr & Hc).
  unfold after_launch. rewrite Hn, Ha, Hv, Hu, Hh, Hr.
  rewrite !bind_addStepM, !bind_call_ret, bind_addStepM.
  unfold mbind, M_bind, goto.
  eexists (mkState _ _ _ _). split_and!.
  - destruct (w_goto w) as [[status|]|e]; reflexivity.
  - reflexivity.
  - reflexivity.
  - cbn [st_trace]. rewrite elem_of_app, list_elem_of_singleton. by right.
Qed.

Lemma browser_set_stable : stable any_event browser_set.
Proof. split; by intros. Qed.

Lemma gallery_is_stable g : stable any_event (gallery_is g).
Proof. split; by intros. Qed.

(** The whole [try] block, when the browser launches and the page
    configures. *)
Lemma scrape_try_goto (w : World) (url : jsval) :
  setup_ok w →
  ∃ st', scrape_try w url (initial w) =
           match w_goto w with
           | Ret None => (Throw (Error (lit "No response from server")), st')
           | Ret (Some status) => after_response w url status st'
           | Throw e => (Throw e, st')
           end ∧
         st_browser st' = true ∧
         st_galleryImages st' = observe_requests (w_requests w) [] ∧
         EvGoto url ∈ st_trace st'.
Proof.
  intros Hok. pose proof Hok as (Hl & _).
  destruct (scrape_try_launched w url tt Hl) as [_ (st1 & -> & Hg & Hb & _)].
  destruct (after_launch_goto w url st1 Hok) as (st' & -> & Hb' & Hg' & Ht).
  exists st'. by rewrite Hb', Hg', Hb, Hg.
Qed.

Lemma completion_result (w : World) (o : outcome scrape_result) (st : state) (c : unit) :
  w_close w = Ret c → st_browser st = true →
  (completion w o st).1 =
    match o with
    | Ret r => Ret r
    | Throw e => Ret (Failure (err_message e))
    end.
Proof.
  intros Hc Hb. unfold completion. destruct st as [d g b t]. simpl in *. subst b.
  destruct o; simpl; by rewrite Hc.
Qed.

Lemma completion_trace (w : World) (o : outcome scrape_result) (st : state) ev :
  ev ∈ st_trace st → ev ∈ st_trace (completion w o st).2.
Proof.
  intros Hev. unfold completion. destruct st as [d g b t]. simpl in *.
  destruct o, b; simpl; try done; destruct (w_close w); simpl;
    rewrite elem_of_app; by left.
Qed.

(** A scrape refused by the status check. *)
Lemma run_scrape_refused (w : World) (url : jsval) (status : N) (msg : jstring) :
  setup_ok w → w_goto w = Ret (Some status) →
  check_status status = throw (Error msg) →
  (run_scrape w url).1 = Ret (Failure msg).
Proof.
  intros Hok Hg Hs. rewrite run_scrape_completion.
  destruct (scrape_try_goto w url Hok) as (st' & -> & Hb & _).
  rewrite Hg.
  pose proof (after_response_refused any_event browser_set browser_set_stable
                w (λ _ _ _, I) url status msg Hs st' Hb) as H.
  destruct (after_response w url status st') as [[r|e] st2]; [done|].
  destruct H as [Hb2 ->]. destruct Hok as (_&_&_&_&_&_&_&Hc).
  by rewrite (completion_result _ _ _ tt).
Qed.

(** A scrape that passes the status check and meets no failure after it. *)
Lemma run_scrape_succeeds (w : World) (url : jsval) (status : N) :
  setup_ok w → w_goto w = Ret (Some status) →
  status ≠ 403 → status ≠ 404 → rest_ok w →
  ∃ data, (run_scrape w url).1 = Ret (Success data).
Proof.
  intros Hok Hg H3 H4 Hrest. rewrite run_scrape_completion.
  destruct (scrape_try_goto w url Hok) as (st' & -> & Hb & _).
  rewrite Hg.
  pose proof (after_response_succeeds any_event browser_set browser_set_stable
                w (λ _ _ _, I) url status H3 H4 Hrest st' Hb) as H.
  destruct (after_response w url status st') as [[r|e] st2]; [|done].
  destruct H as [Hb2 [hd ->]]. destruct Hok as (_&_&_&_&_&_&_&Hc).
  rewrite (completion_result _ _ _ tt) by done. by eexists.
Qed.

Lemma run_scrape_no_response (w : World) (url : jsval) :
  setup_ok w → w_goto w = Ret None →
  (run_scrape w url).1 = Ret (Failure (lit "No response from server")).
Proof.
  intros Hok Hg. rewrite run_scrape_completion.
  destruct (scrape_try_goto w url Hok) as (st' & -> & Hb & _).
  rewrite Hg. destruct Hok as (_&_&_&_&_&_&_&Hc).
  by rewrite (completion_result _ _ _ tt).
Qed.

Lemma check_status_passes (status : N) :
  status ≠ 403 → status ≠ 404 → check_status status = mret tt.
Proof.
  intros H3 H4. unfold check_status.
  apply N.eqb_neq in H3, H4. rewrite H3, H4. by destruct (negb _).
Qed.

Lemma reached_stable ev : stable any_event (reached ev).
Proof.
  split; [by intros|]. intros d g b t ev' _ H. unfold reached in *. simpl in *.
  rewrite elem_of_app. by left.
Qed.

(** A scrape whose browser launches and whose page configures navigates to
    the url it was given. *)
Lemma run_scrape_reaches_goto (w : World) (url : jsval) :
  setup_ok w → EvGoto url ∈ st_trace (run_scrape w url).2.
Proof.
  intros Hok. rewrite run_scrape_completion. apply completion_trace.
  destruct (scrape_try_goto w url Hok) as (st' & -> & _ & _ & Ht).
  destruct (w_goto w) as [[status|]|e]; [|done..].
  pose proof (inv_after_response any_event (reached (EvGoto url))
                (reached_stable _) w (λ _ _ _, I) url status st' Ht) as H.
  by destruct (after_response w url status st') as [[r|e] st2].
Qed.

Lemma completion_success (w : World) o st data :
  (completion w o st).1 = Ret (Success data) → o = Ret (Success data).
Proof.
  unfold completion. destruct st as [d g b t].
  destruct o as [r|e], b; simpl; try done; by destruct (w_close w).
Qed.

Lemma inv_weaken {A} (I : state → Prop) (m : M A) :
  inv I m → hoare I m (fun _ => I) (fun _ _ => True).
Proof. intros H. eapply hoare_conseq; [exact H|auto..]. Qed.

(** From launch to return, the record returned holds the de-duplicated
    urls that the observer collected. *)
Lemma after_launch_gallery (w : World) (url : jsval) :
  hoare (gallery_is []) (after_launch w url)
    (fun r _ => ∃ hd, r = Success (with_galleryImages hd
                            (JsSet.of_list (observe_requests (w_requests w) []))))
    (fun _ _ => True).
Proof.
  unfold after_launch.
  repeat lazymatch goal with
  | |- hoare _ (goto _ _ ≫= _) _ _ => idtac
  | |- hoare _ (addStepM _ _ _ ≫= _) _ _ =>
      apply (hoare_bind _ (fun _ => gallery_is []));
      [apply inv_weaken, returns_inv, (returns_addStepM any_event), gallery_is_stable
      |intros ?]
  | |- hoare _ (call _ _ ≫= _) _ _ =>
      apply (hoare_bind _ (fun _ => gallery_is []));
      [apply inv_weaken, (inv_call any_event); [apply gallery_is_stable|done]
      |intros ?]
  end.
  apply (hoare_bind _ (fun _ => gallery_is (observe_requests (w_requests w) []))).
  - intros [d g b t] Hg. unfold gallery_is in *. simpl in *. subst g.
    unfold goto. simpl. by destruct (w_goto w).
  - intros [status|]; [|by apply hoare_throw].
    eapply hoare_conseq;
      [apply (after_response_result any_event _
                (gallery_is_stable (observe_requests (w_requests w) []))
                w (λ _ _ _, I))
      |auto..].
    intros r st [Hg [hd ->]]. unfold gallery_is in Hg. rewrite Hg. by eexists.
Qed.

Lemma run_scrape_gallery (w : World) (url : jsval) (data : hotelData) :
  (run_scrape w url).1 = Ret (Success data) →
  galleryImages data = JsSet.of_list (observe_requests (w_requests w) []).
Proof.
  rewrite run_scrape_completion. intros H. apply completion_success in H.
  destruct (scrape_try_launch w url) as (st0 & _ & _ & _ & Heq).
  rewrite Heq in H. destruct (w_launch w) as [u|e]; [|done].
  pose proof (after_launch_gallery w url
                (mkState (st_diagnostics st0) [] true [EvLaunch]) eq_refl) as Hg.
  destruct (after_launch w url _) as [[r|e] st]; [|done].
  simpl in H. injection H as ->. destruct Hg as [hd Hd].
  by injection Hd as ->.
Qed.

(** C3 (amended). When the browser launches and the page configures, the
    scrape fails with [No response from server] when [goto] gives no
    response, with the access-denied message, which mentions bot detection,
    on status 403, and with the not-found message on status 404.  Every
    other status, 200 or not, passes the status check: the scrape goes on,
    and succeeds when nothing fails after the check. *)
Theorem status_check_outcomes (w : World) (url : jsval) :
  setup_ok w →
  (w_goto w = Ret None →
     (run_scrape w url).1 = Ret (Failure (lit "No response from server"))) ∧
  (w_goto w = Ret (Some 403) →
     (run_scrape w url).1 =
       Ret (Failure (lit "Access denied (403) - Bot detection likely triggered"))) ∧
  (w_goto w = Ret (Some 404) →
     (run_scrape w url).1 = Ret (Failure (lit "Page not found (404)"))) ∧
  (∀ status, w_goto w = Ret (Some status) → status ≠ 403 → status ≠ 404 →
     check_status status = mret tt ∧
     (rest_ok w → ∃ data, (run_scrape w url).1 = Ret (Success data))) ∧
  includes (lit "Access denied (403) - Bot detection likely triggered")
           (lit "Bot detection") = true.
Proof.
  intros Hok. split_and!.
  - by apply run_scrape_no_response.
  - intros Hg. by apply (run_scrape_refused w url 403).
  - intros Hg. by apply (run_scrape_refused w url 404).
  - intros status Hg H3 H4. split.
    + by apply check_status_passes.
    + intros Hrest. by apply (run_scrape_succeeds w url status).
  - reflexivity.
Qed.

Lemma status_check_outcomes_witness :
  (run_scrape (sample_world None []) sample_url).1
    = Ret (Failure (lit "No response from server")) ∧
  (run_scrape (sample_world (Some 403) []) sample_url).1
    = Ret (Failure (lit "Access denied (403) - Bot detection likely triggered")) ∧
  (run_scrape (sample_world (Some 404) []) sample_url).1
    = Ret (Failure (lit "Page not found (404)")) ∧
  (∃ data, (run_scrape (sample_world (Some 500) []) sample_url).1 = Ret (Success data)).
Proof.
  split_and!.
  - apply (status_check_outcomes (sample_world None []) sample_url); repeat split.
  - apply (status_check_outcomes (sample_world (Some 403) []) sample_url); repeat split.
  - apply (status_check_outcomes (sample_world (Some 404) []) sample_url); repeat split.
  - apply (status_check_outcomes (sample_world (Some 500) []) sample_url)
      with (status := 500); repeat split; discriminate.
Defined.

(** C3 as stated fails: a response with status 500 is not 200, and the
    scrape does not abort. *)
Lemma status_500_not_fatal :
  w_goto (sample_world (Some 500) []) = Ret (Some 500) ∧ 500 ≠ 200 ∧
  is_success (run_scrape (sample_world (Some 500) []) sample_url).1 = true.
Proof. split_and!; [done|done|]. by vm_compute. Qed.

Lemma browser_closed_on_every_path_witness :
  ∃ tr, st_trace (run_scrape (sample_world (Some 200) []) sample_url).2
          = EvLaunch :: tr ++ [EvClose] ∧
        (EvClose ∉ tr) ∧ (EvLaunch ∉ tr).
Proof.
  apply (proj1 (browser_closed_on_every_path
                  (sample_world (Some 200) []) sample_url) tt).
  reflexivity.
Defined.

End ScrapeFacts.

(** ** server.js: validation in front of the scrape *)

Module ServerFacts.
Import Extractors Scraper Server Spec StringFacts UtilsFacts ScrapeFacts.

Lemma get_prop_url_body (url : jsval) : get_prop (url_body url) (lit "url") = Ret url.
Proof. unfold url_body, get_prop. by rewrite lookup_insert_eq. Qed.

(** A url on which the check answers something falsy is refused. *)
Lemma post_scrape_refuses (w : World) (body url v : jsval) :
  get_prop body (lit "url") = Ret url →
  isValidBookingUrl url = Ret v → truthy v = false →
  post_scrape w body = (bad_request, []).
Proof. intros Hu Hv Ht. unfold post_scrape. by rewrite Hu, Hv, Ht. Qed.

(** A url on which the check answers [true] and that can be printed is
    scraped. *)
Lemma post_scrape_scrapes (w : World) (body url : jsval) :
  get_prop body (lit "url") = Ret url →
  isValidBookingUrl url = Ret (JBool true) →
  to_string_throws url = false →
  post_scrape w body =
    (respond (run_scrape w url).1 (st_diagnostics (run_scrape w url).2),
     st_trace (run_scrape w url).2).
Proof.
  intros Hu Hv Hs. unfold post_scrape, log_start. rewrite Hu, Hv, Hs. simpl.
  by destruct (run_scrape w url).
Qed.

(** A url on which the check answers [true] and that cannot be printed is
    answered with status 500, before anything is scraped. *)
Lemma post_scrape_log_throws (w : World) (body url : jsval) :
  get_prop body (lit "url") = Ret url →
  isValidBookingUrl url = Ret (JBool true) →
  to_string_throws url = true →
  post_scrape w body =
    (error_response (TypeError (lit "Cannot convert object to primitive value")), []).
Proof. intros Hu Hv Hs. unfold post_scrape, log_start. by rewrite Hu, Hv, Hs. Qed.

(** A url on which the check throws is answered with status 500. *)
Lemma post_scrape_check_throws (w : World) (body url : jsval) (e : jserror) :
  get_prop body (lit "url") = Ret url →
  isValidBookingUrl url = Throw e →
  post_scrape w body = (error_response e, []).
Proof. intros Hu Hv. unfold post_scrape. by rewrite Hu, Hv. Qed.

(** A body from which [url] cannot be read is answered with status 500. *)
Lemma post_scrape_no_body (w : World) (body : jsval) (e : jserror) :
  get_prop body (lit "url") = Throw e →
  post_scrape w body = (error_response e, []).
Proof. intros Hu. unfold post_scrape. by rewrite Hu. Qed.

Lemma isValidBookingUrl_contains (url : jsval) :
  truthy url = false ∨ (∃ s, url = JStr s) ∨ (∃ l, url = JArr l) →
  contains url marker → isValidBookingUrl url = Ret (JBool true).
Proof.
  intros Hdom Hyes. apply isValidBookingUrl_true_iff. split; [|done].
  destruct Hdom as [Hf|[[s ->]|[l ->]]]; [|by destruct Hyes as (?&?&->);
    apply marker_nonempty|done].
  destruct url; try done. destruct Hyes as (pre & post & ->).
  by rewrite marker_nonempty in Hf.
Qed.

(** C1 (amended). A request whose url is falsy (missing, null, empty), or
    is a string or an array that does not contain the hotel-path marker, is
    answered with HTTP 400, an error message and an example url, and nothing
    is called on the browser: [scrapeHotelData] is not invoked.  A string that
    contains the marker is scraped, and so is an array that contains it and
    can be converted to a string: the answer is computed from the run of
    [scrapeHotelData] on it, which starts by launching the browser.  Three
    kinds of request are answered with HTTP 500 without a scrape: a body from
    which [url] cannot be read ([undefined] or [null]), a truthy url of
    another type, on which the check throws, and an array that contains the
    marker but holds an element that cannot be converted to a string, on
    which the log line between the check and the scrape throws. *)
Theorem post_scrape_validation (w : World) (body : jsval) :
  (∀ e, get_prop body (lit "url") = Throw e →
     post_scrape w body = (error_response e, []) ∧
     status (post_scrape w body).1 = 500) ∧
  (∀ url, get_prop body (lit "url") = Ret url →
     (truthy url = false ∨ (∃ s, url = JStr s) ∨ (∃ l, url = JArr l) →
        (¬ contains url marker →
           post_scrape w body = (bad_request, []) ∧ status bad_request = 400) ∧
        (contains url marker → to_string_throws url = false →
           post_scrape w body =
             (respond (run_scrape w url).1 (st_diagnostics (run_scrape w url).2),
              st_trace (run_scrape w url).2) ∧
           ∃ tr, (post_scrape w body).2 = EvLaunch :: tr) ∧
        (contains url marker → to_string_throws url = true →
           post_scrape w body =
             (error_response
                (TypeError (lit "Cannot convert object to primitive value")), []) ∧
           status (post_scrape w body).1 = 500)) ∧
     (∀ s, url = JStr s → to_string_throws url = false) ∧
     (truthy url = true → (∀ s, url ≠ JStr s) → (∀ l, url ≠ JArr l) →
        post_scrape w body =
          (error_response (TypeError (lit "url.includes is not a function")), []) ∧
        status (post_scrape w body).1 = 500)).
Proof.
  split.
  - intros e He. by rewrite (post_scrape_no_body w body e He).
  - intros url Hu. split_and!.
    + intros Hdom. split_and!.
      * intros Hno. split; [|done].
        destruct (isValidBookingUrl_falsy url Hdom Hno) as (v & Hv & Ht).
        by apply (post_scrape_refuses w body url v).
      * intros Hyes Hs.
        rewrite (post_scrape_scrapes w body url Hu
                   (isValidBookingUrl_contains url Hdom Hyes) Hs).
        split; [done|]. apply run_scrape_launches.
      * intros Hyes Hs.
        by rewrite (post_scrape_log_throws w body url Hu
                      (isValidBookingUrl_contains url Hdom Hyes) Hs).
    + by intros s ->.
    + intros Ht Hs Hl.
      by rewrite (post_scrape_check_throws w body url _ Hu
                    (isValidBookingUrl_throws url Ht Hs Hl)).
Qed.

Lemma post_scrape_validation_witness :
  post_scrape (sample_world (Some 200) []) (url_body (JStr (lit "https://example.com")))
    = (bad_request, []) ∧
  ∃ tr, (post_scrape (sample_world (Some 200) []) (url_body sample_url)).2
          = EvLaunch :: tr.
Proof.
  split.
  - apply (proj2 (post_scrape_validation (sample_world (Some 200) [])
                    (url_body (JStr (lit "https://example.com"))))
             (JStr (lit "https://example.com")) (get_prop_url_body _)).
    + right; left. by eexists.
    + simpl. rewrite <- includes_spec. by vm_compute.
  - apply (proj2 (post_scrape_validation (sample_world (Some 200) [])
                    (url_body sample_url)) sample_url (get_prop_url_body _)).
    + right; left. by eexists.
    + simpl. rewrite <- includes_spec. by vm_compute.
    + reflexivity.
Defined.

(** C1 as stated fails in three ways.  The url [5] does not contain the
    marker, and the answer is HTTP 500, not 400.  The array
    [unprintable_url] contains the marker, and it is not scraped: the answer
    is HTTP 500 and nothing is called on the browser.  A request without a
    body ([req.body] is [undefined]) has no url, and the answer is HTTP 500,
    not 400. *)
Lemma requests_answered_500 :
  (get_prop (url_body (JNum 5)) (lit "url") = Ret (JNum 5) ∧
   ¬ contains (JNum 5) marker ∧
   status (post_scrape (sample_world (Some 200) []) (url_body (JNum 5))).1 = 500 ∧
   (post_scrape (sample_world (Some 200) []) (url_body (JNum 5))).2 = []) ∧
  (get_prop (url_body unprintable_url) (lit "url") = Ret unprintable_url ∧
   contains unprintable_url marker ∧
   isValidBookingUrl unprintable_url = Ret (JBool true) ∧
   status (post_scrape (sample_world (Some 200) []) (url_body unprintable_url)).1 = 500 ∧
   (post_scrape (sample_world (Some 200) []) (url_body unprintable_url)).2 = []) ∧
  ((∃ e, get_prop JUndefined (lit "url") = Throw e) ∧
   status (post_scrape (sample_world (Some 200) []) JUndefined).1 = 500 ∧
   (post_scrape (sample_world (Some 200) []) JUndefined).2 = []).
Proof.
  split_and!.
  - apply get_prop_url_body.
  - by intros [].
  - by rewrite (post_scrape_check_throws _ _ (JNum 5) _ (get_prop_url_body _) eq_refl).
  - by rewrite (post_scrape_check_throws _ _ (JNum 5) _ (get_prop_url_body _) eq_refl).
  - apply get_prop_url_body.
  - left.
  - reflexivity.
  - by rewrite (post_scrape_log_throws _ _ unprintable_url (get_prop_url_body _)
                  eq_refl eq_refl).
  - by rewrite (post_scrape_log_throws _ _ unprintable_url (get_prop_url_body _)
                  eq_refl eq_refl).
  - by eexists.
  - reflexivity.
  - reflexivity.
Qed.

(** C9. [isValidBookingUrl] returns [true] exactly on the truthy values
    that contain the marker.  Where the marker stands is not looked at: a url
    on any host that embeds it, in its query string for example, passes the
    check, is handed to [scrapeHotelData], and is navigated to once the
    browser is launched and the page configured. *)
Theorem isValidBookingUrl_substring_only :
  (∀ url, isValidBookingUrl url = Ret (JBool true) ↔
          truthy url = true ∧ contains url marker) ∧
  (∀ w pre post,
     isValidBookingUrl (JStr (pre ++ marker ++ post)) = Ret (JBool true) ∧
     post_scrape w (url_body (JStr (pre ++ marker ++ post))) =
       (respond (run_scrape w (JStr (pre ++ marker ++ post))).1
                (st_diagnostics (run_scrape w (JStr (pre ++ marker ++ post))).2),
        st_trace (run_scrape w (JStr (pre ++ marker ++ post))).2) ∧
     (setup_ok w →
        EvGoto (JStr (pre ++ marker ++ post))
          ∈ (post_scrape w (url_body (JStr (pre ++ marker ++ post)))).2)).
Proof.
  split; [apply isValidBookingUrl_true_iff|].
  intros w pre post.
  assert (isValidBookingUrl (JStr (pre ++ marker ++ post)) = Ret (JBool true)) as Hv.
  { apply isValidBookingUrl_true_iff. split; [apply marker_nonempty|].
    by exists pre, post. }
  split; [done|].
  rewrite (post_scrape_scrapes w _ _ (get_prop_url_body _) Hv eq_refl).
  split; [done|]. apply run_scrape_reaches_goto.
Qed.

Lemma isValidBookingUrl_substring_only_witness :
  isValidBookingUrl foreign_url = Ret (JBool true) ∧
  EvGoto foreign_url ∈ (post_scrape (sample_world (Some 200) []) (url_body foreign_url)).2.
Proof.
  split.
  - apply (proj2 isValidBookingUrl_substring_only (sample_world (Some 200) [])
             foreign_prefix []).
  - apply (proj2 isValidBookingUrl_substring_only (sample_world (Some 200) [])
             foreign_prefix []).
    repeat split.
Defined.

End ServerFacts.

(** ** De-duplicated collections *)

Module DedupFacts.
Import Extractors Scraper Server Spec StringFacts ScrapeFacts.

Section SetFacts.
Context {A : Type} `{EqDecision A}.

Lemma has_spec (s : list A) (x : A) : JsSet.has s x = true ↔ x ∈ s.
Proof. unfold JsSet.has. apply bool_decide_eq_true. Qed.

Lemma has_false (s : list A) (x : A) : JsSet.has s x = false ↔ x ∉ s.
Proof. unfold JsSet.has. apply bool_decide_eq_false. Qed.

Lemma elem_of_add (s : list A) (x y : A) :
  y ∈ JsSet.add s x ↔ y ∈ s ∨ y = x.
Proof.
  unfold JsSet.add. destruct (JsSet.has s x) eqn:E.
  - apply has_spec in E. split; [by left|]. by intros [?| ->].
  - rewrite elem_of_app, list_elem_of_singleton. done.
Qed.

(** What the filtering callback keeps, for whatever was seen before. *)
Lemma filter_unseen_spec {B : Type} (key : B → A) (l : list B) :
  ∀ seen,
    let out := JsSet.filter_unseen key seen l in
    NoDup (key <$> out) ∧
    (∀ x, x ∈ out → key x ∉ seen) ∧
    (∀ x, x ∈ l → key x ∈ seen ∨ key x ∈ (key <$> out)) ∧
    (∀ o1 x o2, out = o1 ++ x :: o2 →
       ∃ l1 l2, l = l1 ++ x :: l2 ∧ (key x ∉ (key <$> l1)) ∧
                ∀ k, k ∈ (key <$> o1) → k ∈ (key <$> l1)).
Proof.
  induction l as [|a l IH]; intros seen; simpl.
  - split_and!.
    + constructor.
    + by intros x Hx%elem_of_nil.
    + by intros x Hx%elem_of_nil.
    + intros o1 x o2 Ho. by destruct o1.
  - destruct (JsSet.has seen (key a)) eqn:E.
    + apply has_spec in E.
      destruct (IH seen) as (Hnd & Hns & Hcov & Hord). split_and!.
      * done.
      * done.
      * intros x [->|Hx]%elem_of_cons; [by left|by apply Hcov].
      * intros o1 x o2 Ho.
        destruct (Hord o1 x o2 Ho) as (l1 & l2 & -> & Hk & Hsub).
        exists (a :: l1), l2. split_and!; [done|..].
        -- rewrite fmap_cons, not_elem_of_cons. split; [|done].
           intros Heq. apply (Hns x).
           ++ rewrite Ho, elem_of_app, elem_of_cons. by right; left.
           ++ by rewrite Heq.
        -- intros k Hk1. rewrite fmap_cons, elem_of_cons. right. by apply Hsub.
    + apply has_false in E.
      destruct (IH (JsSet.add seen (key a))) as (Hnd & Hns & Hcov & Hord).
      split_and!.
      * rewrite fmap_cons. constructor; [|done].
        intros (x & Hkx & Hx)%list_elem_of_fmap.
        apply (Hns x Hx). apply elem_of_add. by right.
      * intros x [->|Hx]%elem_of_cons; [done|].
        intros Hin. apply (Hns x Hx). apply elem_of_add. by left.
      * intros x [->|Hx]%elem_of_cons.
        -- right. rewrite fmap_cons. by left.
        -- destruct (Hcov x Hx) as [[?|Heq]%elem_of_add|?].
           ++ by left.
           ++ right. rewrite fmap_cons, Heq. by left.
           ++ right. rewrite fmap_cons. by right.
      * intros o1 x o2 Ho. destruct o1 as [|b o1]; simpl in Ho.
        -- injection Ho as <- _. exists [], l. split_and!; [done|..].
           ++ apply not_elem_of_nil.
           ++ by intros k Hk%elem_of_nil.
        -- injection Ho as <- Ho.
           destruct (Hord o1 x o2 Ho) as (l1 & l2 & -> & Hk & Hsub).
           exists (a :: l1), l2. split_and!; [done|..].
           ++ rewrite fmap_cons, not_elem_of_cons. split; [|done].
              intros Heq. apply (Hns x).
              ** rewrite Ho, elem_of_app, elem_of_cons. by right; left.
              ** apply elem_of_add. by right.
           ++ intros k. rewrite !fmap_cons, !elem_of_cons.
              intros [->|Hk1]; [by left|right; by apply Hsub].
Qed.

Lemma filter_unseen_first_occurrences {B : Type} (key : B → A) (l : list B) :
  first_occurrences key l (JsSet.filter_unseen key [] l).
Proof.
  destruct (filter_unseen_spec key l []) as (Hnd & _ & Hcov & Hord).
  split_and!; [|done| |done].
  - by apply NoDup_fmap_1 in Hnd.
  - intros x Hx. by destruct (Hcov x Hx) as [?%elem_of_nil|?].
Qed.

(** Spreading a [Set] built from a list is the same filtering. *)
Lemma fold_add_filter_unseen (l : list A) :
  ∀ acc, fold_left JsSet.add l acc = acc ++ JsSet.filter_unseen id acc l.
Proof.
  induction l as [|x l IH]; intros acc; simpl.
  - by rewrite app_nil_r.
  - rewrite IH. unfold JsSet.add at 1 2.
    destruct (JsSet.has acc x) eqn:E; [done|].
    rewrite <- (assoc_L (++)). f_equal. simpl. f_equal.
    unfold JsSet.add. by rewrite E.
Qed.

Lemma of_list_filter_unseen (l : list A) :
  JsSet.of_list l = JsSet.filter_unseen id [] l.
Proof. unfold JsSet.of_list. by rewrite fold_add_filter_unseen. Qed.

Lemma of_list_first_occurrences (l : list A) :
  first_occurrences id l (JsSet.of_list l).
Proof. rewrite of_list_filter_unseen. apply filter_unseen_first_occurrences. Qed.

Lemma elem_of_filter_unseen {B : Type} (key : B → A) (l : list B) seen x :
  x ∈ JsSet.filter_unseen key seen l → x ∈ l.
Proof.
  revert seen. induction l as [|a l IH]; intros seen; simpl; [done|].
  destruct (JsSet.has seen (key a)).
  - intros H. right. by eapply IH.
  - intros [->|H]%elem_of_cons; [by left|]. right. by eapply IH.
Qed.

Lemma filter_unseen_pair {B : Type} (key : B → A) (x y : B) :
  key x = key y → JsSet.filter_unseen key [] [x; y] = [x].
Proof.
  intros Heq. simpl. unfold JsSet.add. simpl. rewrite <- Heq.
  assert (JsSet.has [key x] (key x) = true) as ->
    by (apply has_spec; by left).
  done.
Qed.

Lemma elem_of_of_list (l : list A) x : x ∈ JsSet.of_list l → x ∈ l.
Proof. rewrite of_list_filter_unseen. apply elem_of_filter_unseen. Qed.
End SetFacts.

Lemma two_reviews_same_text (b1 b2 : review_block) :
  rv_text (review_of_block b1) = rv_text (review_of_block b2) →
  extractReviews [b1; b2] = [review_of_block b1].
Proof.
  intros Heq. by apply (filter_unseen_pair rv_text).
Qed.

(** C4. Each de-duplicated collection (the features, the gallery images of
    a successful scrape, the reviews keyed by their text, the nearby places
    keyed by name and distance) repeats no element and no key, has every key
    of its source, and lists its elements in the order in which their keys
    first appear in the source.  Two review blocks with the same text give
    one review, the first. *)
Theorem dedup_first_occurrences :
  (∀ spans, first_occurrences id (List.map trim spans) (extractFeatures spans)) ∧
  (∀ w url data,
     (run_scrape w url).1 = Ret (Success data) →
     first_occurrences id (observe_requests (w_requests w) []) (galleryImages data)) ∧
  (∀ blocks,
     first_occurrences rv_text (List.map review_of_block blocks) (extractReviews blocks)) ∧
  (∀ toLowerCase blocks,
     first_occurrences place_key
       (concat (List.map (places_of_block toLowerCase) blocks))
       (extractNearbyPlaces toLowerCase blocks)) ∧
  (∀ b1 b2, rv_text (review_of_block b1) = rv_text (review_of_block b2) →
            extractReviews [b1; b2] = [review_of_block b1]).
Proof.
  split_and!.
  - intros spans. apply of_list_first_occurrences.
  - intros w url data H. rewrite (run_scrape_gallery w url data H).
    apply of_list_first_occurrences.
  - intros blocks. apply filter_unseen_first_occurrences.
  - intros f blocks. apply filter_unseen_first_occurrences.
  - apply two_reviews_same_text.
Qed.

Lemma dedup_first_occurrences_witness :
  rv_text (review_of_block review_a) = rv_text (review_of_block review_b) ∧
  extractReviews [review_a; review_b] = [review_of_block review_a].
Proof.
  split; [by vm_compute|].
  apply dedup_first_occurrences. by vm_compute.
Defined.

End DedupFacts.

(** ** extractors.js: rating, nearby places, rooms *)

Module ExtractorFacts.
Import Extractors Scraper Server Spec Samples StringFacts RatingFacts DedupFacts.

Lemma elem_of_map {A B} (f : A → B) (l : list A) (y : B) :
  y ∈ List.map f l ↔ ∃ x, y = f x ∧ x ∈ l.
Proof. change (List.map f l) with (f <$> l). apply list_elem_of_fmap. Qed.

Lemma elem_of_concat {A} (ls : list (list A)) (x : A) :
  x ∈ concat ls ↔ ∃ l, l ∈ ls ∧ x ∈ l.
Proof.
  rewrite list_elem_of_In, in_concat. split; intros (l & H1 & H2); exists l;
    by rewrite ?list_elem_of_In in *.
Qed.

(** *** The patterns on sample texts *)

Example trim_sample : trim (lit "  Riad Verus  ") = lit "Riad Verus".
Proof. reflexivity. Qed.

Example match_digits_ws_sample :
  match_digits_ws (lit "1 234 reviews") = Some (lit "1 234 ").
Proof. reflexivity. Qed.

Example match_adult_sample :
  match_adult (lit "Max. people: 2 adults, 1 child") = Some (lit "2") ∧
  match_adult (lit "2adults") = None.
Proof. split; reflexivity. Qed.

Example match_css_url_sample :
  match_css_url (lit "url(" ++ [dquote] ++ lit "https://x.test/a.jpg" ++ [dquote] ++ lit ")")
    = Some (lit "https://x.test/a.jpg").
Proof. reflexivity. Qed.

Example strip_quotes_sample :
  strip_quotes ([0x201C] ++ lit "Great stay" ++ [0x201D; dquote]) = lit "Great stay".
Proof. reflexivity. Qed.

Example strip_category_sample :
  strip_category (lit "RestaurantLe Foundouk") = lit "Le Foundouk" ∧
  strip_category (lit "train   Gare de Marrakech") = lit "Gare de Marrakech" ∧
  strip_category (lit "Jardin Majorelle") = lit "Jardin Majorelle".
Proof. split_and!; reflexivity. Qed.

(** *** extractRating *)

Lemma starts_with_comma (c : N) (s : jstring) :
  starts_with comma (c :: s) = (44 =? c).
Proof. unfold comma. cbn. apply andb_true_r. Qed.

Lemma replace_first_comma (s : jstring) :
  (occurrences comma s ≤ 1)%nat →
  includes (replace_first comma period s) comma = false.
Proof.
  induction s as [|c s IH]; [done|].
  rewrite occurrences_cons, replace_first_cons, starts_with_comma.
  destruct (44 =? c) eqn:E; intros Hocc.
  - change (includes (46 :: s) comma = false).
    rewrite includes_cons, starts_with_comma. simpl.
    apply includes_occurrences. lia.
  - rewrite includes_cons, starts_with_comma, E. simpl. apply IH. lia.
Qed.

(** C7 (amended). [extractRating] throws only when [page.evaluate] itself
    is rejected, and then with that rejection: the [try]/[catch] is inside the
    function evaluated in the page, not around the call.  That function never
    throws: without a score container it returns
    [{score: null, totalReviews: null}], and so it does when anything throws
    inside.  A score that is returned is the trimmed text of the first
    element with its first comma turned into a period; it holds no comma when
    that text has at most one. *)
Theorem extractRating_throws_only_on_rejection (reached : outcome unit)
    (d : rating_dom) :
  (∀ e, extractRating_evaluate reached d = Throw e ↔ reached = Throw e) ∧
  ∃ r, extractRating d = Ret r ∧
       (∀ u, reached = Ret u → extractRating_evaluate reached d = Ret r) ∧
       (rd_container d = Ret None → r = null_rating) ∧
       (∀ e, extractRating_try d = Throw e → r = null_rating) ∧
       (∀ s, score r = Some s →
          ∃ divs t, rd_container d = Ret (Some (Ret divs)) ∧
                    divs !! 0%nat = Some t ∧
                    s = replace_first comma period (trim t) ∧
                    ((occurrences comma (trim t) ≤ 1)%nat →
                     includes s comma = false)).
Proof.
  destruct (extractRating_returns d) as [r Hr]. split.
  - intros e. unfold extractRating_evaluate, page_evaluate. rewrite Hr.
    destruct reached as [[]|e']; [done|]. split; by intros [= ->].
  - exists r. split; [done|]. split.
    { intros u ->. unfold extractRating_evaluate, page_evaluate. by rewrite Hr. }
    revert Hr. unfold extractRating, extractRating_try.
    destruct (rd_container d) as [[[divs|e]|]|e]; intros [= <-].
    + split_and!; [done|done|].
      intros s Hs. simpl in Hs.
      destruct divs as [|t divs]; [done|]. simpl in Hs.
      exists (t :: divs), t. split_and!; [done|done|..].
      * destruct (replace_first comma period (trim t)); [done|by injection Hs].
      * intros Hocc. destruct (replace_first comma period (trim t)) eqn:E; [done|].
        injection Hs as <-. rewrite <- E. by apply replace_first_comma.
    + split_and!; done.
    + split_and!; done.
    + split_and!; done.
Qed.

Lemma extractRating_throws_only_on_rejection_witness :
  extractRating_evaluate (Ret tt) score_one_comma
    = Ret (mkRating (Some (lit "8.7")) (Some (Num 1234))) ∧
  includes (lit "8.7") comma = false.
Proof.
  destruct (extractRating_throws_only_on_rejection (Ret tt) score_one_comma)
    as (_ & r & Hr & He & _ & _ & Hs).
  injection Hr as <-. split; [exact (He tt eq_refl)|].
  destruct (Hs (lit "8.7") eq_refl) as (divs & t & Hd & Ht & _ & Hc).
  injection Hd as <-. injection Ht as <-.
  apply Hc. vm_compute. lia.
Defined.

(** C7 as stated fails in two ways.  A [page.evaluate] that is rejected
    makes [extractRating] throw, on a page whose score container is in
    order, and [extractHotelData], which awaits it, throws that error in
    turn.  And only the first comma of a score becomes a period. *)
Lemma rating_rejected_and_second_comma_kept :
  (extractRating_evaluate (Throw evaluate_error) score_one_comma = Throw evaluate_error ∧
   w_parallel evaluate_fails_world = Throw evaluate_error ∧
   (extractHotelData evaluate_fails_world (initial evaluate_fails_world)).1
     = Throw evaluate_error) ∧
  (extractRating score_two_commas
     = Ret (mkRating (Some (lit "1.234,5")) (Some (Num 12))) ∧
   includes (lit "1.234,5") comma = true).
Proof. split_and!; by vm_compute. Qed.

(** *** extractNearbyPlaces *)

Lemma strip_first_word_spec (words : list jstring) (s : jstring) :
  (existsb (fun w => starts_with_ci w s) words = false ∧
   strip_first_word words s = s) ∨
  (∃ w, w ∈ words ∧ starts_with_ci w s = true ∧
        strip_first_word words s = drop_while is_ws (drop (length w) s)).
Proof.
  induction words as [|w words IH]; simpl.
  - by left.
  - destruct (starts_with_ci w s) eqn:E.
    + right. exists w. split_and!; [by left|done..].
    + destruct IH as [[H1 H2]|(w' & Hin & Hw & Hs)].
      * by left.
      * right. exists w'. split_and!; [by right|done..].
Qed.

Lemma elem_of_extractNearbyPlaces toLowerCase (blocks : list poi_block) p :
  p ∈ extractNearbyPlaces toLowerCase blocks →
  ∃ b it, b ∈ blocks ∧ it ∈ blk_items b ∧
          place p = strip_category (or_empty (trim <$> it_name it)).
Proof.
  unfold extractNearbyPlaces. intros H%elem_of_filter_unseen.
  apply elem_of_concat in H as (l & Hl & Hp).
  apply elem_of_map in Hl as (b & -> & Hb).
  unfold places_of_block in Hp. apply elem_of_map in Hp as (it & -> & Hit).
  by exists b, it.
Qed.

(** C6 (amended). The place name of every emitted record is the trimmed
    name of a list item from which one leading category word (restaurant,
    train or airport, in any case) has been removed, with the white space
    after it.  When the item name begins with no category word the emitted
    name is that name, and begins with none; when it begins with one, the
    emitted name is what followed that word and the white space, whatever
    that is. *)
Theorem nearby_place_strips_one_word toLowerCase (blocks : list poi_block)
    (p : place_record) :
  p ∈ extractNearbyPlaces toLowerCase blocks →
  ∃ b it raw,
    b ∈ blocks ∧ it ∈ blk_items b ∧ raw = or_empty (trim <$> it_name it) ∧
    ((starts_with_category raw = false ∧ place p = raw ∧
      starts_with_category (place p) = false) ∨
     (∃ w, w ∈ category_words ∧ starts_with_ci w raw = true ∧
           place p = drop_while is_ws (drop (length w) raw))).
Proof.
  intros (b & it & Hb & Hit & Hp)%elem_of_extractNearbyPlaces.
  exists b, it, (or_empty (trim <$> it_name it)). split_and!; [done..|].
  rewrite Hp. unfold strip_category, starts_with_category.
  destruct (strip_first_word_spec category_words (or_empty (trim <$> it_name it)))
    as [[H1 H2]|H]; [left|by right].
  by rewrite H2.
Qed.

Lemma nearby_place_strips_one_word_witness :
  mkPlace (lit "Le Foundouk") (lit "450 m") (lit "Restaurants & cafes")
    ∈ extractNearbyPlaces (fun s => s) [restaurants_block] ∧
  ∃ b it raw,
    b ∈ [restaurants_block] ∧ it ∈ blk_items b ∧
    raw = or_empty (trim <$> it_name it) ∧
    ((starts_with_category raw = false ∧ lit "Le Foundouk" = raw ∧
      starts_with_category (lit "Le Foundouk") = false) ∨
     (∃ w, w ∈ category_words ∧ starts_with_ci w raw = true ∧
           lit "Le Foundouk" = drop_while is_ws (drop (length w) raw))).
Proof.
  assert (mkPlace (lit "Le Foundouk") (lit "450 m") (lit "Restaurants & cafes")
            ∈ extractNearbyPlaces (fun s => s) [restaurants_block]) as Hin.
  { assert (extractNearbyPlaces (fun s => s) [restaurants_block]
              = [mkPlace (lit "Restaurant Dar Moha") (lit "300 m")
                   (lit "Restaurants & cafes");
                 mkPlace (lit "Le Foundouk") (lit "450 m")
                   (lit "Restaurants & cafes")]) as -> by (by vm_compute).
    apply elem_of_cons. right. apply elem_of_cons. by left. }
  split; [exact Hin|].
  exact (nearby_place_strips_one_word (fun s => s) [restaurants_block] _ Hin).
Defined.

(** C6 as stated fails: the restaurant named [Restaurant Dar Moha] keeps its
    name, which begins with a category word. *)
Lemma place_name_keeps_second_word :
  List.map place (extractNearbyPlaces (fun s => s) [restaurants_block])
    = [lit "Restaurant Dar Moha"; lit "Le Foundouk"] ∧
  starts_with_category (lit "Restaurant Dar Moha") = true.
Proof. split; by vm_compute. Qed.

(** *** extractRooms *)

Section RoomFacts.
Context {D : Type} (P : rooms_page D).

Lemma rooms_loop_skip (r : nat) rest d results tr :
  rp_name P d r = None ∨ rp_occupancy P d r = None →
  rooms_loop P (r :: rest) d results tr = rooms_loop P rest d results tr.
Proof.
  intros [H|H]; simpl; rewrite H; [done|]. by destruct (rp_name P d r).
Qed.

(** A name is clicked only in a row that has both elements. *)
Lemma rooms_loop_clicks (r : nat) rows :
  ∀ d results tr,
    UiClickName r ∈ (rooms_loop P rows d results tr).1.2 →
    UiClickName r ∈ tr ∨
    (r ∈ rows ∧ ∃ d', is_Some (rp_name P d' r) ∧ is_Some (rp_occupancy P d' r)).
Proof.
  induction rows as [|r0 rows IH]; intros d results tr; simpl; [by left|].
  destruct (rp_name P d r0) as [n|] eqn:En;
    [destruct (rp_occupancy P d r0) as [l|] eqn:Eo|].
  - assert (∀ d1 results1 tail,
              UiClickName r ∈ (rooms_loop P rows d1 results1
                                 ((tr ++ [UiClickName r0; UiDelay 1000]) ++ tail)).1.2 →
              (∀ ev, ev ∈ tail → ev ≠ UiClickName r) →
              UiClickName r ∈ tr ∨
              (r ∈ r0 :: rows ∧
               ∃ d', is_Some (rp_name P d' r) ∧ is_Some (rp_occupancy P d' r)))
      as Hstep.
    { intros d1 results1 tail H Htail.
      destruct (IH _ _ _ H) as [Hin|[Hin Hd]].
      - rewrite !elem_of_app in Hin. destruct Hin as [[Hin|Hin]|Hin].
        + by left.
        + right. apply elem_of_cons in Hin as [[= ->]|Hin].
          * split; [by left|]. exists d. by rewrite En, Eo.
          * by apply list_elem_of_singleton in Hin.
        + by destruct (Htail _ Hin).
      - right. split; [by right|done]. }
    destruct (rp_popup P _) as [pp|].
    + destruct (rp_close_button P _).
      * intros H. apply (Hstep _ _ _ H).
        intros ev [->|[->|[]%elem_of_nil]%elem_of_cons]%elem_of_cons; done.
      * intros H. apply (Hstep _ _ _ H).
        intros ev [->|[]%elem_of_nil]%elem_of_cons; done.
    + intros H. rewrite <- (app_nil_r (tr ++ _)) in H.
      apply (Hstep _ _ [] H). by intros ev Hev%elem_of_nil.
  - intros H. destruct (IH _ _ _ H) as [?|[? ?]]; [by left|].
    right. split; [by right|done].
  - intros H. destruct (IH _ _ _ H) as [?|[? ?]]; [by left|].
    right. split; [by right|done].
Qed.

(** Every room listed comes from a row with a name, an occupancy label
    and an open panel. *)
Lemma rooms_loop_rooms (room : room) rows :
  ∀ d results tr,
    room ∈ (rooms_loop P rows d results tr).1.1 →
    room ∈ results ∨ ∃ n l pp, room = room_of n l pp.
Proof.
  induction rows as [|r0 rows IH]; intros d results tr; simpl; [by left|].
  destruct (rp_name P d r0) as [n|]; [destruct (rp_occupancy P d r0) as [l|]|];
    try apply IH.
  destruct (rp_popup P _) as [pp|]; [|apply IH].
  assert (∀ d1 tr1,
            room ∈ (rooms_loop P rows d1 (results ++ [room_of n l pp]) tr1).1.1 →
            room ∈ results ∨ ∃ n l pp, room = room_of n l pp) as Hstep.
  { intros d1 tr1 H. destruct (IH _ _ _ H) as [Hin|?]; [|by right].
    apply elem_of_app in Hin as [?|Hin]; [by left|].
    apply list_elem_of_singleton in Hin as ->.
    right. by eexists _, _, _. }
  destruct (rp_close_button P _); apply Hstep.
Qed.

(** Every room listed was read from the panel that the click on the name of
    a row with a name and an occupancy label had opened a second before. *)
Lemma rooms_loop_rooms_popup (room : room) rows :
  ∀ d results tr,
    room ∈ (rooms_loop P rows d results tr).1.1 →
    room ∈ results ∨
    ∃ d' r nameText label pp,
      r ∈ rows ∧ rp_name P d' r = Some nameText ∧ rp_occupancy P d' r = Some label ∧
      rp_popup P (rp_wait P (rp_click_name P d' r) 1000) = Some pp ∧
      room = room_of nameText label pp.
Proof.
  induction rows as [|r0 rows IH]; intros d results tr; simpl; [by left|].
  assert (∀ d1 results1 tr1,
            (room ∈ (rooms_loop P rows d1 results1 tr1).1.1 →
             room ∈ results1 ∨
             ∃ d' r nameText label pp,
               r ∈ r0 :: rows ∧ rp_name P d' r = Some nameText ∧
               rp_occupancy P d' r = Some label ∧
               rp_popup P (rp_wait P (rp_click_name P d' r) 1000) = Some pp ∧
               room = room_of nameText label pp)) as Hrest.
  { intros d1 results1 tr1 H.
    destruct (IH _ _ _ H) as [?|(d' & r & n & l & pp & Hr & ?)]; [by left|].
    right. exists d', r, n, l, pp. split; [by right|done]. }
  destruct (rp_name P d r0) as [n|] eqn:En;
    [destruct (rp_occupancy P d r0) as [l|] eqn:El|]; try apply Hrest.
  destruct (rp_popup P _) as [pp|] eqn:Ep; [|apply Hrest].
  assert (∀ d1 tr1,
            room ∈ (rooms_loop P rows d1 (results ++ [room_of n l pp]) tr1).1.1 →
            room ∈ results ∨
            ∃ d' r nameText label pp,
              r ∈ r0 :: rows ∧ rp_name P d' r = Some nameText ∧
              rp_occupancy P d' r = Some label ∧
              rp_popup P (rp_wait P (rp_click_name P d' r) 1000) = Some pp ∧
              room = room_of nameText label pp) as Hstep.
  { intros d1 tr1 H. destruct (Hrest _ _ _ H) as [Hin|?]; [|by right].
    apply elem_of_app in Hin as [?|Hin]; [by left|].
    apply list_elem_of_singleton in Hin as ->.
    right. exists d, r0, n, l, pp. split_and!; [by left|done..]. }
  destruct (rp_close_button P _); apply Hstep.
Qed.
End RoomFacts.

(** C8. With no room row [extractRooms] returns the empty list and does
    nothing to the page.  A row without a name element or without an
    occupancy element is passed over: the loop goes on as if the row were not
    there, and no name is ever clicked in a row that lacks one of the two. *)
Theorem extractRooms_skips_rows :
  (∀ D (P : rooms_page D) d, rp_rows P d = [] → extractRooms P d = ([], [], d)) ∧
  (∀ D (P : rooms_page D) d r rest results tr,
     rp_name P d r = None ∨ rp_occupancy P d r = None →
     rooms_loop P (r :: rest) d results tr = rooms_loop P rest d results tr) ∧
  (∀ D (P : rooms_page D) d r,
     UiClickName r ∈ (extractRooms P d).1.2 →
     r ∈ rp_rows P d ∧
     ∃ d', is_Some (rp_name P d' r) ∧ is_Some (rp_occupancy P d' r)).
Proof.
  split_and!.
  - intros D P d H. unfold extractRooms. by rewrite H.
  - intros D P d r rest results tr. apply rooms_loop_skip.
  - intros D P d r H. unfold extractRooms in H.
    by destruct (rooms_loop_clicks P r _ _ _ _ H) as [?%elem_of_nil|?].
Qed.

Lemma extractRooms_skips_rows_witness :
  extractRooms empty_rooms_page tt = ([], [], tt) ∧
  rooms_loop two_rows_page [0; 1]%nat false [] []
    = rooms_loop two_rows_page [1%nat] false [] [] ∧
  (extractRooms two_rows_page false).1.2
    = [UiClickName 1; UiDelay 1000; UiClickClose; UiDelay 500] ∧
  List.map rm_name (extractRooms two_rows_page false).1.1 = [lit "Deluxe Room"].
Proof.
  split_and!.
  - by apply extractRooms_skips_rows.
  - apply extractRooms_skips_rows. by left.
  - by vm_compute.
  - by vm_compute.
Defined.

End ExtractorFacts.

(** ** Image urls *)

Module ImageFacts.
Import Extractors Scraper Server Spec Samples.
Import StringFacts ScrapeFacts DedupFacts ExtractorFacts.

(** The replacement creates no occurrence of the low-resolution token
    across its left edge. *)
Lemma starts_with_max300_edge (pre t t' : jstring) :
  pre ≠ [] →
  starts_with max300 (pre ++ max1024x768 ++ t) = true →
  starts_with max300 (pre ++ t') = true.
Proof.
  destruct pre as [|a1 [|a2 [|a3 [|a4 [|a5 [|a6 pre]]]]]]; [done|..];
    intros _ H; cbn in H |- *; rewrite ?andb_false_r in H; done.
Qed.

Lemma occurrences_after_max300 (t : jstring) :
  occurrences max300 (max300 ++ t) = S (occurrences max300 t).
Proof. reflexivity. Qed.

Lemma includes_after_max1024x768 (t : jstring) :
  includes (max1024x768 ++ t) max300 = includes t max300.
Proof. reflexivity. Qed.

Lemma replace_first_max300_once (s : jstring) :
  occurrences max300 s = 1%nat →
  includes (replace_first max300 max1024x768 s) max300 = false.
Proof.
  induction s as [|c s IH]; [done|].
  rewrite occurrences_cons, replace_first_cons.
  destruct (starts_with max300 (c :: s)) eqn:E; intros Hocc.
  - apply starts_with_spec in E as [t Ht]. rewrite Ht in *.
    rewrite drop_app_length, includes_after_max1024x768.
    apply includes_occurrences.
    pose proof (occurrences_after_max300 t) as H1.
    rewrite <- Ht, occurrences_cons in H1.
    destruct (starts_with max300 (c :: s)); lia.
  - rewrite includes_cons, IH by lia. rewrite orb_false_r.
    destruct (includes s max300) eqn:Ei.
    + destruct (replace_first_split max300 max1024x768 s Ei)
        as (pre & post & Hs & ->).
      apply not_true_is_false. intros H. rewrite Hs in E.
      pose proof (starts_with_max300_edge (c :: pre) post (max300 ++ post)
                    ltac:(done) H) as H'.
      change ((c :: pre) ++ max300 ++ post) with (c :: pre ++ max300 ++ post) in H'.
      congruence.
    + apply includes_occurrences in Ei. lia.
Qed.

Lemma gallery_marker_has_max300 : substring max300 gallery_marker.
Proof. by exists (lit "https://cf.bstatic.com/xdata/images/hotel/"), []. Qed.

(** What the observer has put into [galleryImages]. *)
Lemma elem_of_observe_requests (reqs : list request) (u : jstring) :
  ∀ acc, u ∈ observe_requests reqs acc →
         u ∈ acc ∨
         ∃ r, r ∈ reqs ∧ req_resourceType r = lit "image" ∧
              includes (req_url r) gallery_marker = true ∧
              u = replace_first max300 max1024x768 (req_url r).
Proof.
  induction reqs as [|r reqs IH]; intros acc; [by left|].
  unfold observe_requests. simpl fold_left.
  intros H. apply IH in H as [H|(r' & Hin & H)].
  - unfold on_request in H.
    destruct (_ || _ || _ || _); [by left|].
    destruct (bool_decide _ && _) eqn:E; [|by left].
    apply andb_true_iff in E as [Et Eu]. apply bool_decide_eq_true in Et.
    simpl in H. apply elem_of_app in H as [?|Hu]; [by left|].
    apply list_elem_of_singleton in Hu as ->.
    right. exists r. split_and!; [by left|done..].
  - right. exists r'. split; [by right|done].
Qed.

Lemma elem_of_omap_some {A B} (f : A → option B) (l : list A) (y : B) :
  y ∈ omap f l ↔ ∃ x, x ∈ l ∧ f x = Some y.
Proof. apply list_elem_of_omap. Qed.

Lemma lazy_capture_nonempty (s : jstring) : lazy_capture s ≠ Some [].
Proof.
  destruct s as [|c s]; cbn [lazy_capture]; [done|].
  destruct (is_line_terminator c); [done|].
  destruct (starts_with css_url_close s); [done|]. by destruct (lazy_capture s).
Qed.

Lemma match_css_url_nonempty (s : jstring) : match_css_url s ≠ Some [].
Proof.
  induction s as [|c s IH]; cbn [match_css_url].
  - by destruct (starts_with css_url_open []).
  - destruct (starts_with css_url_open (c :: s)); [|done].
    pose proof (lazy_capture_nonempty (drop (length css_url_open) (c :: s))) as H.
    by destruct (lazy_capture _) as [[|? ?]|].
Qed.

Lemma elem_of_of_list_iff (l : list jstring) (x : jstring) :
  x ∈ JsSet.of_list l ↔ x ∈ l.
Proof.
  split; [apply elem_of_of_list|]. intros Hx.
  destruct (of_list_first_occurrences l) as (_ & _ & Hcov & _).
  specialize (Hcov x Hx). by rewrite list_fmap_id in Hcov.
Qed.

(** What [extractRooms] stores as the images of a room: exactly the urls
    quoted in the styles of the photos of its panel, each with its first
    low-resolution token replaced. *)
Lemma elem_of_room_images (photos : list jstring) (u : jstring) :
  u ∈ room_images photos ↔
  ∃ style raw, style ∈ photos ∧ match_css_url style = Some raw ∧
               u = replace_first max300 max1024x768 raw.
Proof.
  unfold room_images. rewrite elem_of_of_list_iff. split.
  - intros H. apply elem_of_map in H as (raw & -> & H).
    apply elem_of_omap_some in H as (style & Hin & Hs).
    exists style, raw. split_and!; [done| |done].
    destruct (match_css_url style) as [[|c r]|]; by simplify_eq/=.
  - intros (style & raw & Hin & Hs & ->).
    apply list_elem_of_fmap. exists raw. split; [done|].
    apply elem_of_omap_some. exists style. split; [done|]. rewrite Hs.
    pose proof (match_css_url_nonempty style) as Hne. rewrite Hs in Hne.
    by destruct raw.
Qed.

(** C5 (amended). Every url in [galleryImages] is the url of an
    intercepted image request that contains the gallery path with the
    low-resolution token, with the first occurrence of that token replaced
    by the high-resolution one: it contains the high-resolution token, and
    it contains no low-resolution token when the request url had exactly
    one.  Every room returned was read from the panel opened by the click on
    the name of one of the rows, and its image urls are exactly the urls
    quoted in the styles of the photos of that panel, each with its first
    low-resolution token replaced: a url with exactly one such token ends up
    with the high-resolution token and without the low-resolution one; a url
    with none is stored as it is. *)
Theorem image_urls_first_token_replaced :
  (∀ w url data u,
     (run_scrape w url).1 = Ret (Success data) → u ∈ galleryImages data →
     ∃ r, r ∈ w_requests w ∧ req_resourceType r = lit "image" ∧
          includes (req_url r) gallery_marker = true ∧
          u = replace_first max300 max1024x768 (req_url r) ∧
          includes u max1024x768 = true ∧
          (occurrences max300 (req_url r) = 1%nat → includes u max300 = false)) ∧
  (∀ D (P : rooms_page D) d room,
     room ∈ (extractRooms P d).1.1 →
     ∃ d' r nameText label pp,
       r ∈ rp_rows P d ∧
       rp_name P d' r = Some nameText ∧ rp_occupancy P d' r = Some label ∧
       rp_popup P (rp_wait P (rp_click_name P d' r) 1000) = Some pp ∧
       room = room_of nameText label pp ∧
       ∀ u, u ∈ rm_images room ↔
            ∃ style raw,
              style ∈ pp_photos pp ∧ match_css_url style = Some raw ∧
              u = replace_first max300 max1024x768 raw) ∧
  (∀ raw,
     (occurrences max300 raw = 1%nat →
      includes (replace_first max300 max1024x768 raw) max1024x768 = true ∧
      includes (replace_first max300 max1024x768 raw) max300 = false) ∧
     (occurrences max300 raw = 0%nat →
      replace_first max300 max1024x768 raw = raw)).
Proof.
  split_and!.
  - intros w url data u Hrun Hu.
    rewrite (run_scrape_gallery w url data Hrun) in Hu.
    apply elem_of_of_list, elem_of_observe_requests in Hu
      as [[]%elem_of_nil|(r & Hin & Ht & Hm & ->)].
    exists r. split_and!; [done..| |].
    + apply replace_first_includes.
      exact (includes_trans _ gallery_marker _ gallery_marker_has_max300 Hm).
    + apply replace_first_max300_once.
  - intros D P d room Hroom. unfold extractRooms in Hroom.
    apply rooms_loop_rooms_popup in Hroom
      as [[]%elem_of_nil|(d' & r & n & l & pp & Hr & Hn & Hl & Hp & ->)].
    exists d', r, n, l, pp. split_and!; [done..|].
    intros u. apply elem_of_room_images.
  - intros raw. split.
    + intros Hocc. split; [|by apply replace_first_max300_once].
      apply replace_first_includes.
      destruct (includes raw max300) eqn:E; [done|].
      apply includes_occurrences in E. lia.
    + intros Hocc. by apply replace_first_absent, includes_occurrences.
Qed.

Lemma image_urls_first_token_replaced_witness :
  ((run_scrape (sample_world (Some 200) [request_once]) sample_url).1
     = Ret (Success data_once) ∧
   gallery_once ∈ galleryImages data_once ∧
   includes gallery_once max300 = false) ∧
  (deluxe_room ∈ (extractRooms two_rows_page false).1.1 ∧
   ∃ d' r nameText label pp,
     r ∈ rp_rows two_rows_page false ∧
     rp_name two_rows_page d' r = Some nameText ∧
     rp_occupancy two_rows_page d' r = Some label ∧
     rp_popup two_rows_page (rp_wait two_rows_page (rp_click_name two_rows_page d' r) 1000)
       = Some pp ∧
     deluxe_room = room_of nameText label pp ∧
     ∀ u, u ∈ rm_images deluxe_room ↔
          ∃ style raw,
            style ∈ pp_photos pp ∧ match_css_url style = Some raw ∧
            u = replace_first max300 max1024x768 raw).
Proof.
  split.
  - assert ((run_scrape (sample_world (Some 200) [request_once]) sample_url).1
              = Ret (Success data_once)) as Hrun by (by vm_compute).
    assert (gallery_once ∈ galleryImages data_once) as Hin
      by (apply elem_of_cons; by left).
    split_and!; [done..|].
    destruct (proj1 image_urls_first_token_replaced _ _ _ _ Hrun Hin)
      as (r & Hr & _ & _ & Hu & _ & Hno).
    apply list_elem_of_singleton in Hr as ->.
    rewrite Hu. apply Hno. by vm_compute.
  - assert (deluxe_room ∈ (extractRooms two_rows_page false).1.1) as Hroom
      by (vm_compute; left).
    split; [exact Hroom|].
    exact (proj1 (proj2 image_urls_first_token_replaced) _ two_rows_page false
             deluxe_room Hroom).
Defined.

(** C5 as stated fails: a gallery url that carries the low-resolution
    token twice keeps the second one, and a room image url without that
    token is stored without the high-resolution one. *)
Lemma image_url_keeps_low_resolution_token :
  galleryImages <$>
    success_data (run_scrape (sample_world (Some 200) [request_twice]) sample_url).1
    = Some [lit "https://cf.bstatic.com/xdata/images/hotel/max1024x768/2.jpg?ref=max300"] ∧
  includes (lit "https://cf.bstatic.com/xdata/images/hotel/max1024x768/2.jpg?ref=max300")
           max300 = true ∧
  List.map rm_images (extractRooms two_rows_page false).1.1
    = [[lit "https://cf.bstatic.com/xdata/images/hotel/max1024x768/7.jpg";
        lit "https://cf.bstatic.com/xdata/images/hotel/square600/8.jpg"]] ∧
  includes (lit "https://cf.bstatic.com/xdata/images/hotel/square600/8.jpg")
           max1024x768 = false.
Proof. split_and!; by vm_compute. Qed.

End ImageFacts.

(** ** Trimmed texts and the text extractors *)

Module TextFacts.
Import Extractors Scraper Server PageText Spec TextSpec StringFacts DedupFacts ExtractorFacts.
Import Samples.

Lemma drop_while_head (f : N → bool) (s : jstring) (c : N) :
  head (drop_while f s) = Some c → f c = false.
Proof.
  induction s as [|a s IH]; simpl; [done|].
  destruct (f a) eqn:E; [done|]. simpl. by intros [= <-].
Qed.

Lemma drop_while_suffix (f : N → bool) (s : jstring) :
  ∃ pre, s = pre ++ drop_while f s.
Proof.
  induction s as [|a s [pre IH]]; simpl; [by exists []|].
  destruct (f a); [|by exists []].
  exists (a :: pre). simpl. by rewrite <- IH.
Qed.

Lemma last_rev_head (s : jstring) : last (rev s) = head s.
Proof. destruct s as [|a s]; [done|]. simpl. apply last_snoc. Qed.

Lemma drop_while_end_last (f : N → bool) (s : jstring) (c : N) :
  last (drop_while_end f s) = Some c → f c = false.
Proof.
  unfold drop_while_end. rewrite last_rev_head. apply drop_while_head.
Qed.

Lemma drop_while_end_prefix (f : N → bool) (s : jstring) :
  ∃ post, s = drop_while_end f s ++ post.
Proof.
  unfold drop_while_end. destruct (drop_while_suffix f (rev s)) as [pre H].
  exists (rev pre). rewrite <- rev_app_distr, <- H. by rewrite rev_involutive.
Qed.

Lemma drop_while_end_head (f : N → bool) (s : jstring) (c : N) :
  head (drop_while_end f s) = Some c → head s = Some c.
Proof.
  destruct (drop_while_end_prefix f s) as [post H].
  destruct (drop_while_end f s) as [|a r]; [done|].
  rewrite H. by simpl.
Qed.

(** What is left when a leading and then a trailing run are removed. *)
Lemma strip_no_edge (lead trail : N → bool) (s : jstring) :
  no_edge lead trail (drop_while_end trail (drop_while lead s)).
Proof.
  split.
  - intros c Hc%drop_while_end_head. by apply (drop_while_head lead s).
  - intros c. apply drop_while_end_last.
Qed.

Lemma trim_trimmed (s : jstring) : trimmed (trim s).
Proof. apply strip_no_edge. Qed.

Lemma strip_quotes_no_edge (s : jstring) :
  no_edge lead_quote trail_quote (strip_quotes s).
Proof. apply strip_no_edge. Qed.

Lemma nil_no_edge lead trail : no_edge lead trail [].
Proof. split; by intros c. Qed.

Lemma or_empty_no_edge lead trail (f : jstring → jstring) (x : option jstring) :
  (∀ s, no_edge lead trail (f s)) → no_edge lead trail (or_empty (f <$> x)).
Proof. intros H. destruct x; simpl; [apply H|apply nil_no_edge]. Qed.

(** X1. Every review that [extractReviews] returns has a name and a country
    without white space at either end, and a text that neither begins with
    white space, a straight double quote, a guillemet or a left curly quote,
    nor ends with white space, a straight double quote, a guillemet or a
    right curly quote. *)
Theorem review_fields_stripped (blocks : list review_block) (r : review) :
  r ∈ extractReviews blocks →
  trimmed (rv_name r) ∧ trimmed (rv_country r) ∧
  no_edge lead_quote trail_quote (rv_text r).
Proof.
  unfold extractReviews. intros H%elem_of_filter_unseen.
  apply elem_of_map in H as (b & -> & _). unfold review_of_block. simpl.
  split_and!.
  - apply (or_empty_no_edge _ _ trim), trim_trimmed.
  - apply (or_empty_no_edge _ _ trim), trim_trimmed.
  - apply (or_empty_no_edge _ _ (fun t => strip_quotes (trim t))).
    intros s. apply strip_quotes_no_edge.
Qed.

(** *** extractHotelName and extractDescription *)

Lemma first_text_some (doc : document) (selectors : list jstring) (t : jstring) :
  first_text doc selectors = Some t ↔
  ∃ pre selector post text,
    selectors = pre ++ selector :: post ∧ Forall (blank doc) pre ∧
    doc selector = Some text ∧ trim text = t ∧ t ≠ [].
Proof.
  induction selectors as [|sel rest IH]; simpl.
  - split; [done|]. intros (pre & ? & ? & ? & H & _). by destruct pre.
  - split.
    + destruct (doc sel) as [text|] eqn:Ed; [destruct (trim text) as [|c r] eqn:Et|].
      * intros (pre & s' & post & text' & -> & Hb & Hd & Ht & Hne)%IH.
        exists (sel :: pre), s', post, text'. split_and!; try done.
        constructor; [|done]. intros x Hx. congruence.
      * intros [= <-]. exists [], sel, rest, text. by split_and!.
      * intros (pre & s' & post & text' & -> & Hb & Hd & Ht & Hne)%IH.
        exists (sel :: pre), s', post, text'. split_and!; try done.
        constructor; [|done]. intros x Hx. congruence.
    + intros (pre & s' & post & text & Heq & Hb & Hd & Ht & Hne).
      destruct pre as [|p pre]; simpl in Heq; injection Heq as -> ->.
      * rewrite Hd, Ht. by destruct t.
      * apply Forall_cons in Hb as [Hp Hb].
        assert (first_text doc (pre ++ s' :: post) = Some t) as ->.
        { apply IH. by exists pre, s', post, text. }
        destruct (doc p) as [tp|] eqn:Edp; [|done]. by rewrite (Hp tp Edp).
Qed.

Lemma first_text_none (doc : document) (selectors : list jstring) :
  first_text doc selectors = None ↔ Forall (blank doc) selectors.
Proof.
  induction selectors as [|sel rest IH]; simpl; [done|].
  rewrite Forall_cons. unfold blank at 1.
  destruct (doc sel) as [text|]; [destruct (trim text) as [|c r] eqn:Et|].
  - rewrite IH. split; [|by intros []]. intros H. split; [|done]. by intros ? [= <-].
  - split; [done|]. intros [H _]. specialize (H text eq_refl). congruence.
  - rewrite IH. split; [|by intros []]. by intros H.
Qed.

Lemma first_text_trimmed (doc : document) (selectors : list jstring) (t : jstring) :
  first_text doc selectors = Some t → t ≠ [] ∧ trimmed t.
Proof.
  intros (pre & sel & post & text & _ & _ & _ & <- & Hne)%first_text_some.
  split; [done|apply trim_trimmed].
Qed.

(** X2. [extractHotelName] returns the trimmed text of the first selector
    of its list, in the order of the list, that finds an element with text;
    when none does, the trimmed text of the first [h2]; and [null] exactly
    when neither finds text.  What it returns is never empty and has no
    white space at either end. *)
Theorem extractHotelName_priority (doc : document) :
  (∀ t, extractHotelName doc = Some t →
     t ≠ [] ∧ trimmed t ∧
     ((∃ pre selector post text,
         name_selectors = pre ++ selector :: post ∧ Forall (blank doc) pre ∧
         doc selector = Some text ∧ trim text = t) ∨
      (Forall (blank doc) name_selectors ∧
       ∃ text, doc (lit "h2") = Some text ∧ trim text = t))) ∧
  (extractHotelName doc = None ↔
     Forall (blank doc) name_selectors ∧ blank doc (lit "h2")).
Proof.
  unfold extractHotelName. split.
  - intros t. destruct (first_text doc name_selectors) as [t'|] eqn:E.
    + intros [= ->]. destruct (first_text_trimmed _ _ _ E) as [Hne Ht].
      split_and!; try done. left.
      apply first_text_some in E as (pre & sel & post & text & H1 & H2 & H3 & H4 & _).
      by exists pre, sel, post, text.
    + apply first_text_none in E.
      destruct (doc (lit "h2")) as [text|]; [|done]. simpl.
      destruct (trim text) as [|c r] eqn:Et; [done|]. intros [= <-].
      split_and!; [done|rewrite <- Et; apply trim_trimmed|].
      right. split; [done|]. by exists text.
  - destruct (first_text doc name_selectors) as [t'|] eqn:E.
    + split; [done|]. intros [H _]. apply first_text_none in H. congruence.
    + apply first_text_none in E. unfold blank at 2.
      destruct (doc (lit "h2")) as [text|]; simpl.
      * destruct (trim text) as [|c r] eqn:Et.
        -- split; [|done]. intros _. split; [done|]. by intros ? [= <-].
        -- split; [done|]. intros [_ H]. specialize (H text eq_refl). congruence.
      * split; [|done]. by intros _.
Qed.

(** X3. [extractDescription] never returns [null]: it returns the trimmed
    text of the first selector of its list that finds an element with text,
    which then has no white space at either end, and the empty string exactly
    when no selector finds text. *)
Theorem extractDescription_priority (doc : document) :
  trimmed (extractDescription doc) ∧
  (extractDescription doc = [] ↔ Forall (blank doc) description_selectors) ∧
  (extractDescription doc ≠ [] →
     ∃ pre selector post text,
       description_selectors = pre ++ selector :: post ∧ Forall (blank doc) pre ∧
       doc selector = Some text ∧ trim text = extractDescription doc).
Proof.
  unfold extractDescription.
  destruct (first_text doc description_selectors) as [t|] eqn:E; simpl.
  - destruct (first_text_trimmed _ _ _ E) as [Hne Ht]. split_and!; [done| |].
    + split; [done|]. intros H%first_text_none. congruence.
    + intros _.
      apply first_text_some in E as (pre & sel & post & text & H1 & H2 & H3 & H4 & _).
      by exists pre, sel, post, text.
  - split_and!; [apply nil_no_edge| |done].
    split; [|done]. intros _. by apply first_text_none.
Qed.

(** *** extractAddress *)

Lemma starts_with_digits_spec (n : nat) (s : jstring) :
  starts_with_digits n s = true ↔
  ∃ ds post, s = ds ++ post ∧ length ds = n ∧ Forall (λ c, is_digit c = true) ds.
Proof.
  revert s. induction n as [|n IH]; intros s; simpl.
  - split; [|done]. intros _. by exists [], s.
  - destruct s as [|c s].
    + split; [done|]. intros (ds & post & H & Hl & _). by destruct ds.
    + rewrite andb_true_iff, IH. split.
      * intros [Hc (ds & post & -> & Hl & Hd)].
        exists (c :: ds), post. split_and!; [done|by simpl; rewrite Hl|by constructor].
      * intros (ds & post & H & Hl & Hd). destruct ds as [|d ds]; [done|].
        simpl in H. injection H as -> ->. apply Forall_cons in Hd as [Hc Hd].
        split; [done|]. exists ds, post. split_and!; [done|by injection Hl|done].
Qed.

Lemma has_postal_code_spec (s : jstring) :
  has_postal_code s = true ↔
  ∃ pre ds post, s = pre ++ ds ++ post ∧ length ds = 5%nat ∧
                 Forall (λ c, is_digit c = true) ds.
Proof.
  induction s as [|c s IH].
  - split; [done|]. intros (pre & ds & post & H & Hl & _).
    destruct pre; [by destruct ds|done].
  - change (has_postal_code (c :: s))
      with (starts_with_digits 5 (c :: s) || has_postal_code s).
    rewrite orb_true_iff, starts_with_digits_spec, IH. split.
    + intros [(ds & post & -> & Hl & Hd)|(pre & ds & post & -> & Hl & Hd)].
      * by exists [], ds, post.
      * by exists (c :: pre), ds, post.
    + intros (pre & ds & post & H & Hl & Hd). destruct pre as [|p pre].
      * left. by exists ds, post.
      * right. simpl in H. injection H as -> ->. by exists pre, ds, post.
Qed.

Lemma find_some_first {A} (f : A → bool) (l : list A) (x : A) :
  List.find f l = Some x ↔
  ∃ pre post, l = pre ++ x :: post ∧ f x = true ∧ Forall (λ y, f y = false) pre.
Proof.
  induction l as [|a l IH]; simpl.
  - split; [done|]. intros (pre & post & H & _). by destruct pre.
  - destruct (f a) eqn:E.
    + split.
      * intros [= ->]. by exists [], l.
      * intros (pre & post & H & Hx & Hpre). destruct pre as [|p pre].
        -- by injection H as ->.
        -- injection H as -> _. apply Forall_cons in Hpre as [Hp _]. congruence.
    + rewrite IH. split.
      * intros (pre & post & -> & Hx & Hpre). exists (a :: pre), post.
        split_and!; [done..|by constructor].
      * intros (pre & post & H & Hx & Hpre). destruct pre as [|p pre].
        -- injection H as -> _. congruence.
        -- injection H as -> ->. apply Forall_cons in Hpre as [_ Hpre].
           by exists pre, post.
Qed.

Lemma find_none_all {A} (f : A → bool) (l : list A) :
  List.find f l = None ↔ Forall (λ y, f y = false) l.
Proof.
  induction l as [|a l IH]; simpl; [done|].
  rewrite Forall_cons. destruct (f a).
  - split; [done|]. by intros [].
  - rewrite IH. split; [done|by intros []].
Qed.

(** X4. [extractAddress] looks only at the first [button div] that looks
    like an address (its text contains one of the seven country words, or
    five digits in a row anywhere): the address is the trimmed text of the
    first child node of that element, never empty and without white space at
    either end; the result is [null] when no element looks like an address,
    and also when the first one that does has no first child or a blank one,
    whatever the elements after it hold. *)
Theorem extractAddress_first_candidate (divs : list button_div) :
  (∀ a, extractAddress divs = Some a →
     a ≠ [] ∧ trimmed a ∧
     ∃ pre d post text,
       divs = pre ++ d :: post ∧ looks_like_address d = true ∧
       Forall (λ d', looks_like_address d' = false) pre ∧
       bd_first_child d = Some text ∧ trim text = a) ∧
  (Forall (λ d, looks_like_address d = false) divs → extractAddress divs = None) ∧
  (∀ pre d post,
     Forall (λ d', looks_like_address d' = false) pre →
     looks_like_address d = true →
     (∀ text, bd_first_child d = Some text → trim text = []) →
     extractAddress (pre ++ d :: post) = None) ∧
  (∀ d, looks_like_address d = true ↔
        (∃ w, w ∈ country_words ∧ substring w (bd_text d)) ∨
        (∃ pre ds post, bd_text d = pre ++ ds ++ post ∧ length ds = 5%nat ∧
                        Forall (λ c, is_digit c = true) ds)).
Proof.
  unfold extractAddress. split_and!.
  - intros a. destruct (List.find looks_like_address divs) as [d|] eqn:E; [|done].
    apply find_some_first in E as (pre & post & -> & Hd & Hpre).
    destruct (bd_first_child d) as [text|] eqn:Ec; [|done]. simpl.
    destruct (trim text) as [|c r] eqn:Et; [done|]. intros [= <-].
    split_and!; [done|rewrite <- Et; apply trim_trimmed|].
    by exists pre, d, post, text.
  - intros H%find_none_all. by rewrite H.
  - intros pre d post Hpre Hd Hc.
    assert (List.find looks_like_address (pre ++ d :: post) = Some d) as ->.
    { apply find_some_first. by exists pre, post. }
    destruct (bd_first_child d) as [text|]; [|done]. simpl.
    by rewrite (Hc text).
  - intros d. unfold looks_like_address.
    rewrite orb_true_iff, has_postal_code_spec, existsb_exists.
    split; (intros [(w & Hw & Hi)|H]; [left|by right]); exists w.
    + split; [by apply list_elem_of_In|by apply includes_spec].
    + split; [by apply list_elem_of_In|by apply includes_spec].
Qed.

(** *** extractCheckTimes *)

Lemma matches_length (p : list token) (s : jstring) :
  matches p s = true → length s = length p.
Proof.
  revert s. induction p as [|t p IH]; intros [|c s]; simpl; try done.
  intros [_ H]%andb_true_iff. by rewrite (IH s H).
Qed.

Lemma is_time_text_length (t : jstring) :
  is_time_text t = true →
  length t = 19%nat ∨ length t = 11%nat ∨ length t = 16%nat ∨ length t = 13%nat.
Proof.
  unfold is_time_text, time_patterns. cbn [existsb]. rewrite !orb_true_iff.
  intros [H|[H|[H|[H|H]]]]; try done; apply matches_length in H; rewrite H;
    cbv; auto.
Qed.

Lemma filter_none {A} (f : A → bool) (l : list A) :
  Forall (λ x, f x = false) l ↔ List.filter f l = [].
Proof.
  induction l as [|a l IH]; simpl; [done|]. rewrite Forall_cons.
  destruct (f a); [|by rewrite IH; split; [intros []|]].
  split; [by intros []|done].
Qed.

Lemma time_texts_elem (texts : list jstring) (i : nat) (t : jstring) :
  List.filter is_time_text (List.map trim texts) !! i = Some t →
  is_time_text t = true ∧ t ∈ List.map trim texts.
Proof.
  intros H%list_elem_of_lookup_2. apply list_elem_of_In, filter_In in H as [H1 H2].
  split; [done|by apply list_elem_of_In].
Qed.

Lemma or_null_time (l : list jstring) (i : nat) :
  Forall (λ t, is_time_text t = true) l → or_null (l !! i) = l !! i.
Proof.
  intros H. destruct (l !! i) as [t|] eqn:E; [|done].
  assert (is_time_text t = true) as Ht.
  { rewrite Forall_forall in H. by apply H, (list_elem_of_lookup_2 _ i). }
  destruct t; [done|done].
Qed.

Lemma time_texts_all (texts : list jstring) :
  Forall (λ t, is_time_text t = true) (List.filter is_time_text (List.map trim texts)).
Proof.
  apply Forall_forall. intros t Ht%list_elem_of_In. by apply filter_In in Ht as [_ ?].
Qed.

(** X5. [extractCheckTimes] takes the first two texts, in document order,
    that match one of its four patterns, whatever their kind and whether or
    not they are equal: [checkin] is the first and [checkout] the second.
    [checkin] is [null] exactly when no text matches, [checkout] exactly when
    at most one does.  A value returned is the trimmed text of an element,
    matches a pattern, and so is 19, 11, 16 or 13 code units long. *)
Theorem extractCheckTimes_first_two (texts : list jstring) :
  (∀ t, ct_checkin (extractCheckTimes texts) = Some t ∨
        ct_checkout (extractCheckTimes texts) = Some t →
        is_time_text t = true ∧ t ∈ List.map trim texts ∧
        (length t = 19 ∨ length t = 11 ∨ length t = 16 ∨ length t = 13)%nat) ∧
  (ct_checkin (extractCheckTimes texts) = None ↔
     Forall (λ t, is_time_text (trim t) = false) texts) ∧
  (ct_checkout (extractCheckTimes texts) = None ↔
     (length (List.filter is_time_text (List.map trim texts)) ≤ 1)%nat) ∧
  (∀ pre a mid b post,
     texts = pre ++ a :: mid ++ b :: post →
     Forall (λ t, is_time_text (trim t) = false) (pre ++ mid) →
     is_time_text (trim a) = true → is_time_text (trim b) = true →
     ct_checkin (extractCheckTimes texts) = Some (trim a) ∧
     ct_checkout (extractCheckTimes texts) = Some (trim b)).
Proof.
  unfold extractCheckTimes. cbn [ct_checkin ct_checkout].
  rewrite !(or_null_time _ _ (time_texts_all texts)). split_and!.
  - intros t [H|H]; apply time_texts_elem in H as [H1 H2];
      (split_and!; [done|done|by apply is_time_text_length]).
  - rewrite <- (Forall_fmap trim (λ t, is_time_text t = false)).
    change (trim <$> texts) with (List.map trim texts).
    rewrite filter_none. by destruct (List.filter _ _).
  - destruct (List.filter _ _) as [|x [|y l]]; simpl; split; (done || lia).
  - intros pre a mid b post -> [Hpre Hmid]%Forall_app Ha Hb.
    rewrite <- (Forall_fmap trim (λ t, is_time_text t = false)) in Hpre, Hmid.
    apply filter_none in Hpre, Hmid.
    change (trim <$> pre) with (List.map trim pre) in Hpre.
    change (trim <$> mid) with (List.map trim mid) in Hmid.
    rewrite map_app, List.filter_app, Hpre. simpl. rewrite Ha.
    rewrite map_app, List.filter_app, Hmid. simpl. by rewrite Hb.
Qed.

Lemma review_fields_stripped_witness :
  review_of_block review_b ∈ extractReviews [review_b] ∧
  trimmed (rv_name (review_of_block review_b)) ∧
  trimmed (rv_country (review_of_block review_b)) ∧
  no_edge lead_quote trail_quote (rv_text (review_of_block review_b)).
Proof.
  assert (review_of_block review_b ∈ extractReviews [review_b]) as H
    by (vm_compute; left).
  split; [exact H|]. exact (review_fields_stripped [review_b] _ H).
Defined.

Lemma extractHotelName_priority_witness :
  extractHotelName h2_document = Some (lit "Riad Verus") ∧
  lit "Riad Verus" ≠ [] ∧ trimmed (lit "Riad Verus").
Proof.
  assert (extractHotelName h2_document = Some (lit "Riad Verus")) as H by (by vm_compute).
  destruct (proj1 (extractHotelName_priority h2_document) (lit "Riad Verus") H)
    as (H1 & H2 & _).
  by split_and!.
Defined.

Lemma extractDescription_priority_witness :
  extractDescription one_text_document ≠ [] ∧
  ∃ pre selector post text,
    description_selectors = pre ++ selector :: post ∧
    Forall (blank one_text_document) pre ∧
    one_text_document selector = Some text ∧
    trim text = extractDescription one_text_document.
Proof.
  assert (extractDescription one_text_document ≠ []) as H by (by vm_compute).
  split; [exact H|].
  exact (proj2 (proj2 (extractDescription_priority one_text_document)) H).
Defined.

Lemma extractAddress_first_candidate_witness :
  extractAddress blank_then_address = None.
Proof.
  apply (proj1 (proj2 (proj2 (extractAddress_first_candidate blank_then_address)))
           [] (mkButtonDiv (lit "Derb Tizougarine, 40000 Marrakech") (Some (lit "  ")))
           [mkButtonDiv (lit "12 Rue Bab Doukkala, Morocco")
              (Some (lit " 12 Rue Bab Doukkala "))]).
  - constructor.
  - by vm_compute.
  - intros text [= <-]. by vm_compute.
Defined.

Lemma extractCheckTimes_first_two_witness :
  ct_checkin (extractCheckTimes policy_texts) = Some (lit "Until 12:00") ∧
  ct_checkout (extractCheckTimes policy_texts) = Some (lit "From 14:00 to 23:00").
Proof.
  apply (proj2 (proj2 (proj2 (extractCheckTimes_first_two policy_texts)))
           [lit "House rules"] (lit " Until 12:00 ") [] (lit "From 14:00 to 23:00") []).
  - reflexivity.
  - repeat constructor.
  - by vm_compute.
  - by vm_compute.
Defined.

End TextFacts.

(** ** extractors.js: review count, occupancy, photo urls, rooms *)

Module PageFacts.
Import Extractors Scraper Server PageText Spec TextSpec PageSpec.
Import StringFacts NumberFacts DedupFacts ExtractorFacts TextFacts.
Import Samples.

Lemma take_drop_while (f : N → bool) (s : jstring) :
  s = take_while f s ++ drop_while f s.
Proof.
  induction s as [|c s IH]; simpl; [done|].
  destruct (f c); simpl; [by rewrite <- IH|done].
Qed.

Lemma take_while_all (f : N → bool) (s : jstring) :
  Forall (λ c, f c = true) (take_while f s).
Proof.
  induction s as [|c s IH]; simpl; [constructor|].
  destruct (f c) eqn:E; by constructor.
Qed.

(** A run of [f] followed by nothing, or by a code unit outside [f], is the
    whole of what [take_while] takes and [drop_while] skips. *)
Lemma take_while_run (f : N → bool) (m post : jstring) :
  Forall (λ c, f c = true) m → (∀ c, head post = Some c → f c = false) →
  take_while f (m ++ post) = m ∧ drop_while f (m ++ post) = post.
Proof.
  intros Hm Hpost. induction Hm as [|c m Hc Hm IH]; simpl.
  - destruct post as [|c post]; [done|]. simpl. by rewrite (Hpost c).
  - rewrite Hc. destruct IH as [-> ->]. done.
Qed.

(** *** The review count *)

Lemma match_digits_ws_none (s : jstring) :
  match_digits_ws s = None ↔ Forall (λ c, digit_or_ws c = false) s.
Proof.
  induction s as [|c s IH]; simpl; [done|]. rewrite Forall_cons.
  destruct (digit_or_ws c).
  - split; [done|]. by intros [].
  - rewrite IH. split; [done|by intros []].
Qed.

Lemma match_digits_ws_run (pre m post : jstring) :
  Forall (λ c, digit_or_ws c = false) pre →
  m ≠ [] → Forall (λ c, digit_or_ws c = true) m →
  (∀ c, head post = Some c → digit_or_ws c = false) →
  match_digits_ws (pre ++ m ++ post) = Some m.
Proof.
  intros Hpre Hne Hm Hpost. induction Hpre as [|c pre Hc Hpre IH].
  - destruct m as [|c m]; [done|]. simpl.
    apply Forall_cons in Hm as [Hc Hm]. rewrite Hc. do 2 f_equal.
    by apply (take_while_run digit_or_ws m post).
  - simpl. by rewrite Hc.
Qed.

Lemma match_digits_ws_some (s m : jstring) :
  match_digits_ws s = Some m →
  ∃ pre post, s = pre ++ m ++ post ∧
              Forall (λ c, digit_or_ws c = false) pre ∧
              m ≠ [] ∧ Forall (λ c, digit_or_ws c = true) m ∧
              (∀ c, head post = Some c → digit_or_ws c = false).
Proof.
  induction s as [|c s IH]; simpl; [done|].
  destruct (digit_or_ws c) eqn:E.
  - intros [= <-]. exists [], (drop_while digit_or_ws s). split_and!.
    + simpl. f_equal. apply take_drop_while.
    + constructor.
    + done.
    + constructor; [done|apply take_while_all].
    + apply drop_while_head.
  - intros (pre & post & -> & Hpre & Hne & Hm & Hpost)%IH.
    exists (c :: pre), post. split_and!; try done. by constructor.
Qed.

Lemma digit_not_ws (c : N) : is_digit c = true → is_ws c = false.
Proof.
  unfold is_digit, is_ws. intros [H1 H2]%andb_true_iff.
  apply N.leb_le in H1, H2.
  repeat (apply orb_false_iff; split);
    try (apply andb_false_iff; right; apply N.leb_gt; lia);
    try (apply andb_false_iff; left; apply N.leb_gt; lia);
    apply N.eqb_neq; lia.
Qed.

Lemma filter_run_digits (m : jstring) :
  Forall (λ c, digit_or_ws c = true) m →
  List.filter (λ c, negb (is_ws c)) m = List.filter is_digit m.
Proof.
  induction 1 as [|c m Hc Hm IH]; simpl; [done|].
  unfold digit_or_ws in Hc. destruct (is_digit c) eqn:Ed.
  - by rewrite (digit_not_ws c Ed), IH.
  - simpl in Hc. by rewrite Hc, IH.
Qed.

Lemma filter_digits_nil (m : jstring) :
  List.filter is_digit m = [] ↔ existsb is_digit m = false.
Proof.
  induction m as [|c m IH]; simpl; [done|].
  destruct (is_digit c); simpl; [split; done|done].
Qed.

(** X6. The review count of [extractRating] is read from the first run of
    digits and white space in the text of the second element (trimmed, first
    comma turned into a period): it is [null] exactly when that text holds
    neither a digit nor white space; otherwise it is [NaN] when the run holds
    white space only, and else the double nearest to the number written by
    the digits of that first run, which is that number when it is below 2^53.
    Digits after the run are not read. *)
Theorem totalReviews_first_run (d : rating_dom) (divs : list jstring) (r : Extractors.rating) :
  rd_container d = Ret (Some (Ret divs)) → extractRating d = Ret r →
  let text := or_empty
                (List.map (λ t, replace_first comma period (trim t)) divs !! 1%nat) in
  (totalReviews r = None ↔ Forall (λ c, digit_or_ws c = false) text) ∧
  (∀ pre m post,
     text = pre ++ m ++ post →
     Forall (λ c, digit_or_ws c = false) pre →
     m ≠ [] → Forall (λ c, digit_or_ws c = true) m →
     (∀ c, head post = Some c → digit_or_ws c = false) →
     totalReviews r =
       Some (if existsb is_digit m
             then number_of (round_double (digits_value (List.filter is_digit m)))
             else NaN) ∧
     (existsb is_digit m = true →
      digits_value (List.filter is_digit m) < 2 ^ 53 →
      totalReviews r = Some (Num (digits_value (List.filter is_digit m))))).
Proof.
  intros Hd Hr text. unfold extractRating, extractRating_try in Hr.
  rewrite Hd in Hr. injection Hr as <-. cbn [totalReviews]. fold text. split.
  - rewrite <- match_digits_ws_none. by destruct (match_digits_ws text).
  - intros pre m post Ht Hpre Hne Hm Hpost.
    rewrite Ht, (match_digits_ws_run pre m post Hpre Hne Hm Hpost).
    rewrite (filter_run_digits m Hm).
    assert (parseInt_digits (List.filter is_digit m)
            = if existsb is_digit m
              then number_of (round_double (digits_value (List.filter is_digit m)))
              else NaN) as ->.
    { unfold parseInt_digits. destruct (List.filter is_digit m) as [|c l] eqn:E.
      - apply filter_digits_nil in E. by rewrite E.
      - destruct (existsb is_digit m) eqn:Ex; [done|].
        apply filter_digits_nil in Ex. congruence. }
    split; [done|]. intros -> Hlt. by rewrite (round_double_exact _ Hlt).
Qed.

(** *** The occupancy label *)

Lemma ws_not_digit (c : N) : is_ws c = true → is_digit c = false.
Proof.
  intros H. destruct (is_digit c) eqn:E; [|done].
  apply digit_not_ws in E. congruence.
Qed.

Lemma adult_head (rest : jstring) :
  starts_with_ci (lit "adult") rest = true →
  ∀ c, head rest = Some c → is_digit c = false ∧ is_ws c = false.
Proof.
  destruct rest as [|a rest]; [done|].
  intros H c [= <-]. cbn in H. apply andb_true_iff in H as [H _].
  unfold ci_eq in H. apply N.eqb_eq in H. unfold ascii_upper in H. simpl in H.
  assert (a = 65 ∨ a = 97) as [-> | ->]; [|done..].
  destruct ((97 <=? a) && (a <=? 122)) eqn:E.
  - apply andb_true_iff in E as [E1 E2]. apply N.leb_le in E1, E2. lia.
  - left. done.
Qed.

Lemma match_adult_at_some (s ds : jstring) :
  match_adult_at s = Some ds ↔
  ds ≠ [] ∧ Forall (λ c, is_digit c = true) ds ∧
  ∃ ws rest, s = ds ++ ws ++ rest ∧ ws ≠ [] ∧
             Forall (λ c, is_ws c = true) ws ∧
             starts_with_ci (lit "adult") rest = true.
Proof.
  unfold match_adult_at. split.
  - destruct (negb _ && _ && _) eqn:E; [|done]. intros [= <-].
    apply andb_true_iff in E as [[E1 E2]%andb_true_iff E3].
    apply Nat.ltb_lt in E2. split_and!.
    + intros H. by rewrite H in E1.
    + apply take_while_all.
    + exists (take_while is_ws (drop_while is_digit s)),
             (drop_while is_ws (drop_while is_digit s)).
      split_and!; [|intros H|apply take_while_all|done].
      * by rewrite <- take_drop_while, <- take_drop_while.
      * pose proof (take_drop_while is_ws (drop_while is_digit s)) as Hs.
        rewrite H in Hs. simpl in Hs. rewrite <- Hs in E2. lia.
  - intros (Hne & Hds & ws & rest & -> & Hws & Hall & Hrest).
    pose proof (adult_head rest Hrest) as Hhead.
    destruct (take_while_run is_ws ws rest Hall) as [Hw1 Hw2].
    { intros c Hc. by apply Hhead. }
    destruct (take_while_run is_digit ds (ws ++ rest) Hds) as [Hd1 Hd2].
    { intros c Hc. destruct ws as [|w ws]; [done|]. injection Hc as <-.
      apply ws_not_digit. by apply Forall_cons in Hall as [? _]. }
    rewrite Hd1, Hd2, Hw2, Hrest.
    destruct ds as [|a ds]; [done|]. destruct ws as [|w ws]; [done|].
    simpl. rewrite length_app. simpl.
    replace (length rest <? S (length ws + length rest))%nat with true; [done|].
    symmetry. apply Nat.ltb_lt. lia.
Qed.

Lemma match_adult_at_nonempty (s ds : jstring) :
  match_adult_at s = Some ds → ds ≠ [].
Proof. by intros (? & _)%match_adult_at_some. Qed.

Lemma match_adult_nonempty (s ds : jstring) : match_adult s = Some ds → ds ≠ [].
Proof.
  induction s as [|c s IH]; cbn [match_adult].
  - destruct (match_adult_at []) eqn:E; [|done]. intros [= <-].
    by apply match_adult_at_nonempty in E.
  - destruct (match_adult_at (c :: s)) eqn:E; [|exact IH]. intros [= <-].
    by apply match_adult_at_nonempty in E.
Qed.

Lemma occupancy_not_nan (label : jstring) :
  parseInt_digits <$> match_adult label ≠ Some NaN.
Proof.
  destruct (match_adult label) as [ds|] eqn:E; [|done].
  apply match_adult_nonempty in E. simpl. destruct ds as [|c ds]; [done|].
  unfold parseInt_digits. by destruct (round_double _).
Qed.

(** X7. The occupancy pattern finds a match exactly in a label that holds a
    run of digits, then white space, then the word [adult] in any case; the
    group it captures is a run of digits that is not empty, so the occupancy
    of a room is [null] or a number, never [NaN]: the double nearest to the
    number written, which is that number when it is below 2^53. *)
Theorem match_adult_digits (s : jstring) :
  (is_Some (match_adult s) ↔
     ∃ pre ds ws rest,
       s = pre ++ ds ++ ws ++ rest ∧
       ds ≠ [] ∧ Forall (λ c, is_digit c = true) ds ∧
       ws ≠ [] ∧ Forall (λ c, is_ws c = true) ws ∧
       starts_with_ci (lit "adult") rest = true) ∧
  (∀ ds, match_adult s = Some ds →
     ds ≠ [] ∧ Forall (λ c, is_digit c = true) ds ∧
     parseInt_digits ds = number_of (round_double (digits_value ds)) ∧
     (digits_value ds < 2 ^ 53 → parseInt_digits ds = Num (digits_value ds))) ∧
  (parseInt_digits <$> match_adult s ≠ Some NaN).
Proof.
  assert (∀ ds, match_adult s = Some ds →
            ∃ pre, ds ≠ [] ∧ Forall (λ c, is_digit c = true) ds ∧
                   ∃ ws rest, s = pre ++ ds ++ ws ++ rest ∧ ws ≠ [] ∧
                              Forall (λ c, is_ws c = true) ws ∧
                              starts_with_ci (lit "adult") rest = true) as Hsome.
  { induction s as [|c s IH]; intros ds.
    - cbn [match_adult]. destruct (match_adult_at []) eqn:E; [|done].
      intros [= <-]. apply match_adult_at_some in E as (? & ? & ?). by exists [].
    - cbn [match_adult]. destruct (match_adult_at (c :: s)) eqn:E.
      + intros [= <-]. apply match_adult_at_some in E as (? & ? & ?). by exists [].
      + intros (pre & Hne & Hds & ws & rest & -> & H)%IH.
        exists (c :: pre). split_and!; [done..|]. by exists ws, rest. }
  split_and!.
  - split.
    + intros [ds Hds]. destruct (Hsome ds Hds) as (pre & ? & ? & ws & rest & ? & ? & ? & ?).
      by exists pre, ds, ws, rest.
    + intros (pre & ds & ws & rest & -> & Hne & Hds & Hws & Hall & Hrest).
      clear Hsome. induction pre as [|c pre IH].
      * assert (match_adult_at (ds ++ ws ++ rest) = Some ds) as E.
        { apply match_adult_at_some. split_and!; [done..|]. by exists ws, rest. }
        simpl. destruct (ds ++ ws ++ rest); cbn [match_adult]; by rewrite E.
      * simpl. destruct (match_adult_at (c :: pre ++ ds ++ ws ++ rest)); [done|].
        exact IH.
  - intros ds Hds. destruct (Hsome ds Hds) as (pre & Hne & Hall & _).
    assert (parseInt_digits ds = number_of (round_double (digits_value ds))) as Hp
      by (by destruct ds).
    split_and!; [done..|]. intros Hlt. by rewrite Hp, (round_double_exact _ Hlt).
  - apply occupancy_not_nan.
Qed.

(** *** The photo url *)

Lemma lazy_capture_some (s u : jstring) :
  lazy_capture s = Some u →
  u ≠ [] ∧ Forall (λ c, is_line_terminator c = false) u ∧
  ∃ post, s = u ++ css_url_close ++ post.
Proof.
  revert u. induction s as [|c s IH]; intros u; cbn [lazy_capture]; [done|].
  destruct (is_line_terminator c) eqn:E; [done|].
  destruct (starts_with css_url_close s) eqn:Es.
  - intros [= <-]. apply starts_with_spec in Es as [post ->].
    split_and!; [done|by repeat constructor|by exists post].
  - destruct (lazy_capture s) as [u'|]; [|done]. simpl. intros [= <-].
    destruct (IH u' eq_refl) as (Hne & Hall & post & ->).
    split_and!; [done|by constructor|by exists post].
Qed.

(** X8. When the photo pattern matches a style, the url it captures is not
    empty, holds no line terminator, and stands in the style between the
    opening [url(] with a double quote and a double quote with the closing
    bracket; a style without a double quote gives no url. *)
Theorem match_css_url_quoted (s : jstring) :
  (∀ u, match_css_url s = Some u →
     u ≠ [] ∧ Forall (λ c, is_line_terminator c = false) u ∧
     substring (css_url_open ++ u ++ css_url_close) s) ∧
  (dquote ∉ s → match_css_url s = None).
Proof.
  assert (∀ u, match_css_url s = Some u →
     u ≠ [] ∧ Forall (λ c, is_line_terminator c = false) u ∧
     substring (css_url_open ++ u ++ css_url_close) s) as Hsome.
  { induction s as [|c s IH]; intros u.
    - cbn [match_css_url]. by destruct (starts_with css_url_open []).
    - cbn [match_css_url].
      destruct (starts_with css_url_open (c :: s)) eqn:Es.
      + destruct (lazy_capture _) as [u'|] eqn:El.
        * intros [= <-]. apply starts_with_spec in Es as [t Ht]. rewrite Ht in El |- *.
          rewrite drop_app_length in El.
          apply lazy_capture_some in El as (Hne & Hall & post & ->).
          split_and!; [done..|]. exists [], post. simpl.
          by rewrite <- !(assoc_L (++)).
        * intros (Hne & Hall & pre & post & ->)%IH.
          split_and!; [done..|]. by exists (c :: pre), post.
      + intros (Hne & Hall & pre & post & ->)%IH.
        split_and!; [done..|]. by exists (c :: pre), post. }
  split; [done|].
  intros Hq. destruct (match_css_url s) as [u|] eqn:E; [|done].
  destruct (Hsome u eq_refl) as (_ & _ & pre & post & ->).
  destruct Hq. rewrite !elem_of_app. right. left. left.
  unfold css_url_open. rewrite elem_of_app. right. by left.
Qed.

(** *** The rooms *)

Lemma of_list_NoDup (l : list jstring) : NoDup (JsSet.of_list l).
Proof. by destruct (of_list_first_occurrences l) as [H _]. Qed.

(** X9. Every room that [extractRooms] returns has a name, a description
    and a size without white space at either end, an occupancy that is
    [null] or a number, amenities that are trimmed and not repeated, and
    image urls that are not repeated and not empty. *)
Theorem rooms_well_formed {D : Type} (P : rooms_page D) (d : D) (room : room) :
  room ∈ (extractRooms P d).1.1 →
  trimmed (rm_name room) ∧ trimmed (rm_description room) ∧ trimmed (rm_size room) ∧
  rm_maxOccupancy room ≠ Some NaN ∧
  NoDup (rm_amenities room) ∧ Forall trimmed (rm_amenities room) ∧
  NoDup (rm_images room) ∧ Forall (λ u, u ≠ []) (rm_images room).
Proof.
  unfold extractRooms. intros [[]%elem_of_nil|(n & l & pp & ->)]%rooms_loop_rooms.
  unfold room_of. cbn. split_and!.
  - apply trim_trimmed.
  - apply (or_empty_no_edge _ _ trim), trim_trimmed.
  - apply (or_empty_no_edge _ _ trim), trim_trimmed.
  - apply occupancy_not_nan.
  - apply of_list_NoDup.
  - apply Forall_forall. intros a Ha%elem_of_of_list.
    apply elem_of_map in Ha as (t & -> & _). apply trim_trimmed.
  - apply of_list_NoDup.
  - apply Forall_forall. intros u Hu%elem_of_of_list.
    apply elem_of_map in Hu as (raw & -> & Hraw).
    apply list_elem_of_omap in Hraw as (style & _ & Hs).
    destruct (match_css_url style) as [[|c r]|]; cbn [or_null] in Hs; try done.
    injection Hs as <-.
    destruct (includes (c :: r) max300) eqn:Ei.
    + destruct (replace_first_split max300 max1024x768 _ Ei) as (pre & post & _ & ->).
      by destruct pre.
    + by rewrite replace_first_absent.
Qed.

Lemma name_clicks_app (a b : list ui_event) :
  name_clicks (a ++ b) = (name_clicks a + name_clicks b)%nat.
Proof. unfold name_clicks. by rewrite List.filter_app, length_app. Qed.

Lemma close_clicks_app (a b : list ui_event) :
  close_clicks (a ++ b) = (close_clicks a + close_clicks b)%nat.
Proof. unfold close_clicks. by rewrite List.filter_app, length_app. Qed.

Lemma total_delay_app (a b : list ui_event) :
  total_delay (a ++ b) = total_delay a + total_delay b.
Proof.
  induction a as [|ev a IH]; simpl; [done|].
  destruct ev; rewrite IH; lia.
Qed.

Lemma rooms_loop_counts {D : Type} (P : rooms_page D) (rows : list nat) :
  ∀ d results tr,
    ∃ C R : nat,
      name_clicks (rooms_loop P rows d results tr).1.2 = (name_clicks tr + C)%nat ∧
      length (rooms_loop P rows d results tr).1.1 = (length results + R)%nat ∧
      (R ≤ C)%nat ∧ (C ≤ length rows)%nat ∧
      (close_clicks (rooms_loop P rows d results tr).1.2 ≤ close_clicks tr + R)%nat ∧
      total_delay (rooms_loop P rows d results tr).1.2
        = total_delay tr + 1000 * N.of_nat C + 500 * N.of_nat R.
Proof.
  induction rows as [|r rows IH]; intros d results tr; cbn [rooms_loop].
  - exists 0%nat, 0%nat. simpl. split_and!; lia.
  - destruct (rp_name P d r) as [n|]; [destruct (rp_occupancy P d r) as [l|]|].
    + destruct (rp_popup P _) as [pp|]; [destruct (rp_close_button P _)|].
      * destruct (IH (rp_wait P (rp_click_close P (rp_wait P (rp_click_name P d r) 1000)) 500)
                    (results ++ [room_of n l pp])
                    ((tr ++ [UiClickName r; UiDelay 1000]) ++ [UiClickClose; UiDelay 500]))
          as (C & R & H1 & H2 & H3 & H4 & H5 & H6).
        exists (S C), (S R). rewrite H1, H2, H6.
        rewrite !name_clicks_app, !total_delay_app, !close_clicks_app, length_app in *.
        cbn in *. split_and!; lia.
      * destruct (IH (rp_wait P (rp_wait P (rp_click_name P d r) 1000) 500)
                    (results ++ [room_of n l pp])
                    ((tr ++ [UiClickName r; UiDelay 1000]) ++ [UiDelay 500]))
          as (C & R & H1 & H2 & H3 & H4 & H5 & H6).
        exists (S C), (S R). rewrite H1, H2, H6.
        rewrite !name_clicks_app, !total_delay_app, !close_clicks_app, length_app in *.
        cbn in *. split_and!; lia.
      * destruct (IH (rp_wait P (rp_click_name P d r) 1000) results
                    (tr ++ [UiClickName r; UiDelay 1000]))
          as (C & R & H1 & H2 & H3 & H4 & H5 & H6).
        exists (S C), R. rewrite H1, H2, H6.
        rewrite !name_clicks_app, !total_delay_app, !close_clicks_app in *.
        cbn in *. split_and!; lia.
    + destruct (IH d results tr) as (C & R & H1 & H2 & H3 & H4 & H5 & H6).
      exists C, R. simpl. split_and!; (done || lia).
    + destruct (IH d results tr) as (C & R & H1 & H2 & H3 & H4 & H5 & H6).
      exists C, R. simpl. split_and!; (done || lia).
Qed.

(** X10. [extractRooms] clicks at most one name per row and returns at most
    one room per name clicked; it clicks the close control at most once per
    room returned; and it waits 1000 ms for every name clicked and 500 ms for
    every room returned, and at no other time. *)
Theorem extractRooms_counts {D : Type} (P : rooms_page D) (d : D) :
  (length (extractRooms P d).1.1 ≤ name_clicks (extractRooms P d).1.2)%nat ∧
  (name_clicks (extractRooms P d).1.2 ≤ length (rp_rows P d))%nat ∧
  (close_clicks (extractRooms P d).1.2 ≤ length (extractRooms P d).1.1)%nat ∧
  total_delay (extractRooms P d).1.2
    = 1000 * N.of_nat (name_clicks (extractRooms P d).1.2)
      + 500 * N.of_nat (length (extractRooms P d).1.1).
Proof.
  unfold extractRooms.
  destruct (rooms_loop_counts P (rp_rows P d) d [] []) as (C & R & H1 & H2 & H3 & H4 & H5 & H6).
  change (name_clicks []) with 0%nat in *. change (close_clicks []) with 0%nat in *.
  change (total_delay []) with 0 in *. change (length (@nil room)) with 0%nat in *.
  rewrite H1, H2, H6. split_and!; lia.
Qed.

(** *** The request observer *)

Lemma on_request_collected (r : request) (g : list jstring) :
  snd (on_request r g) =
    if collected r then g ++ [replace_first max300 max1024x768 (req_url r)] else g.
Proof.
  unfold on_request, collected, blocked.
  destruct (_ || _ || _ || _); [done|]. simpl.
  by destruct (bool_decide _ && _).
Qed.

Lemma observe_requests_filter (reqs : list request) :
  ∀ acc, observe_requests reqs acc =
           acc ++ List.map (λ r, replace_first max300 max1024x768 (req_url r))
                    (List.filter collected reqs).
Proof.
  induction reqs as [|r reqs IH]; intros acc.
  - by rewrite app_nil_r.
  - unfold observe_requests in *. cbn [fold_left List.filter].
    rewrite IH, on_request_collected.
    destruct (collected r); [|done]. by rewrite <- (assoc_L (++)).
Qed.

(** X11. The request observer aborts exactly the font requests and the
    requests whose url contains [analytics], [tracking] or [telemetry], and
    never collects the url of a request it aborts, gallery image or not.
    What it has collected it neither drops nor reorders: after any sequence
    of requests, [galleryImages] is what it was, followed by the normalised
    urls of the image requests on the gallery path that were not aborted, in
    the order of the requests.  These, without repetitions, are the gallery
    images of a successful scrape. *)
Theorem observer_collects_unblocked_images :
  (∀ r g, fst (on_request r g) = Abort ↔ blocked r = true) ∧
  (∀ r g, blocked r = true → snd (on_request r g) = g) ∧
  (∀ reqs acc,
     observe_requests reqs acc =
       acc ++ List.map (λ r, replace_first max300 max1024x768 (req_url r))
                (List.filter collected reqs)) ∧
  (∀ w url data,
     (run_scrape w url).1 = Ret (Success data) →
     galleryImages data =
       JsSet.of_list (List.map (λ r, replace_first max300 max1024x768 (req_url r))
                        (List.filter collected (w_requests w)))).
Proof.
  split_and!.
  - intros r g. unfold on_request, blocked.
    destruct (_ || _ || _ || _); [done|]. by destruct (bool_decide _ && _).
  - intros r g Hb. rewrite on_request_collected. unfold collected. by rewrite Hb.
  - intros reqs acc. apply observe_requests_filter.
  - intros w url data H. rewrite (ScrapeFacts.run_scrape_gallery w url data H).
    by rewrite observe_requests_filter.
Qed.

Lemma totalReviews_first_run_witness :
  (extractRating score_one_comma = Ret rating_one_comma ∧
   totalReviews rating_one_comma = Some (Num 1234)) ∧
  (extractRating score_large_count = Ret rating_large_count ∧
   totalReviews rating_large_count = Some (Num 9007199254740992)).
Proof.
  assert (extractRating score_one_comma = Ret rating_one_comma) as H by (by vm_compute).
  assert (extractRating score_large_count = Ret rating_large_count) as H'
    by (by vm_compute).
  split; (split; [done|]).
  - apply (proj2 (totalReviews_first_run score_one_comma
                    [lit " 8,7 "; lit "1 234 reviews"] rating_one_comma eq_refl H)
             [] (lit "1 234 ") (lit "reviews")).
    + reflexivity.
    + constructor.
    + done.
    + repeat constructor.
    + intros c [= <-]. reflexivity.
    + reflexivity.
    + reflexivity.
  - apply (proj2 (totalReviews_first_run score_large_count
                    [lit "8,7"; lit "9007199254740993 reviews"] rating_large_count
                    eq_refl H')
             [] (lit "9007199254740993 ") (lit "reviews")).
    + reflexivity.
    + constructor.
    + done.
    + repeat constructor.
    + intros c [= <-]. reflexivity.
Defined.

Lemma match_adult_digits_witness :
  match_adult (lit "Max. people: 2 adults") = Some (lit "2") ∧
  parseInt_digits (lit "2") = Num (digits_value (lit "2")).
Proof.
  assert (match_adult (lit "Max. people: 2 adults") = Some (lit "2")) as H
    by (by vm_compute).
  split; [exact H|].
  apply (proj2 (proj2 (proj2 (proj1 (proj2 (match_adult_digits _)) (lit "2") H)))).
  reflexivity.
Defined.

Lemma match_css_url_quoted_witness :
  match_css_url photo_style = Some (lit "https://cf.bstatic.com/7.jpg") ∧
  substring (css_url_open ++ lit "https://cf.bstatic.com/7.jpg" ++ css_url_close)
    photo_style.
Proof.
  assert (match_css_url photo_style = Some (lit "https://cf.bstatic.com/7.jpg")) as H
    by (by vm_compute).
  split; [exact H|].
  exact (proj2 (proj2 (proj1 (match_css_url_quoted photo_style) _ H))).
Defined.

Lemma rooms_well_formed_witness :
  deluxe_room ∈ (extractRooms two_rows_page false).1.1 ∧
  trimmed (rm_name deluxe_room) ∧ rm_maxOccupancy deluxe_room ≠ Some NaN ∧
  NoDup (rm_amenities deluxe_room) ∧ NoDup (rm_images deluxe_room).
Proof.
  assert (deluxe_room ∈ (extractRooms two_rows_page false).1.1) as H
    by (vm_compute; left).
  destruct (rooms_well_formed two_rows_page false deluxe_room H)
    as (H1 & _ & _ & H4 & H5 & _ & H7 & _).
  by split_and!.
Defined.

Lemma observer_collects_unblocked_images_witness :
  blocked tracked_image = true ∧
  includes (req_url tracked_image) gallery_marker = true ∧
  snd (on_request tracked_image []) = [].
Proof.
  split_and!; [by vm_compute|by vm_compute|].
  apply (proj1 (proj2 observer_collects_unblocked_images) tracked_image []).
  by vm_compute.
Defined.

End PageFacts.

(** ** extractors.js: places that repeat *)

Module NearbyFacts.
Import Extractors Spec Samples DedupFacts.

Lemma filter_unseen_all_seen {A B : Type} `{EqDecision A} (key : B → A)
    (seen : list A) (l : list B) :
  (∀ x, x ∈ l → key x ∈ seen) → JsSet.filter_unseen key seen l = [].
Proof.
  induction l as [|x l IH]; intros Hl; simpl; [done|].
  assert (JsSet.has seen (key x) = true) as ->
    by (apply has_spec, Hl; left).
  apply IH. intros y Hy. apply Hl. by right.
Qed.

Lemma filter_unseen_app_seen {A B : Type} `{EqDecision A} (key : B → A)
    (l1 l2 : list B) :
  ∀ seen,
    (∀ x, x ∈ l2 → key x ∈ seen ∨ key x ∈ key <$> l1) →
    JsSet.filter_unseen key seen (l1 ++ l2) = JsSet.filter_unseen key seen l1.
Proof.
  induction l1 as [|a l1 IH]; intros seen Hl; simpl.
  - apply filter_unseen_all_seen. intros x Hx.
    destruct (Hl x Hx) as [?|H']; [done|]. by apply elem_of_nil in H'.
  - destruct (JsSet.has seen (key a)) eqn:E.
    + apply IH. intros x Hx. destruct (Hl x Hx) as [?|H']; [by left|].
      rewrite fmap_cons in H'. apply elem_of_cons in H' as [->|?]; [|by right].
      left. by apply has_spec.
    + f_equal. apply IH. intros x Hx. rewrite elem_of_add.
      destruct (Hl x Hx) as [?|H']; [by left; left|].
      rewrite fmap_cons in H'. apply elem_of_cons in H' as [->|?]; [|by right].
      left. by right.
Qed.

(** X24. The key of a nearby place is its name and its distance, not its
    type: a block all of whose places have the name and distance of a place
    of an earlier block adds nothing to the result, whatever its heading.  A
    place listed under two headings is reported once, under the first. *)
Theorem repeated_places_keep_first_heading toLowerCase (blocks : list poi_block)
    (b : poi_block) :
  (∀ p, p ∈ places_of_block toLowerCase b →
        ∃ q, q ∈ concat (List.map (places_of_block toLowerCase) blocks) ∧
             place q = place p ∧ distance q = distance p) →
  extractNearbyPlaces toLowerCase (blocks ++ [b])
    = extractNearbyPlaces toLowerCase blocks.
Proof.
  intros Hb. unfold extractNearbyPlaces.
  rewrite List.map_app, concat_app. cbn [List.map concat]. rewrite app_nil_r.
  apply filter_unseen_app_seen. intros p Hp. right.
  destruct (Hb p Hp) as (q & Hq & Hn & Hd).
  apply list_elem_of_fmap. exists q. split; [|done].
  unfold place_key. by rewrite Hn, Hd.
Qed.

Lemma repeated_places_keep_first_heading_witness :
  extractNearbyPlaces (λ s, s) [restaurants_block; attractions_block]
    = extractNearbyPlaces (λ s, s) [restaurants_block].
Proof.
  apply (repeated_places_keep_first_heading (λ s, s) [restaurants_block]
           attractions_block).
  intros p Hp.
  exists (mkPlace (place p) (distance p) (lit "Restaurants & cafes")).
  split; [|done]. revert Hp. unfold places_of_block.
  cbn [List.map concat blk_items attractions_block restaurants_block blk_heading].
  rewrite app_nil_r, !elem_of_cons, !elem_of_nil.
  intros [->|[->|[]]]; [left|right; left]; by vm_compute.
Defined.

End NearbyFacts.

(** ** scraper.js and server.js: failures, tabs, soft blocks, answers *)

Module FlowFacts.
Import Extractors Scraper Server Spec TextSpec PageSpec LogSpec.
Import StringFacts UtilsFacts RatingFacts HoareFacts ScrapeFacts ServerFacts.
Import Samples.

Lemma any_event_allowed : ∀ ev, ev ≠ EvLaunch → ev ≠ EvClose → any_event ev.
Proof. done. Qed.

(** *** The wrong page *)

Lemma returns_title_wait (w : World) :
  returns browser_set
    (try_catch (call (EvWaitForSelector title_selector) (w_title w))
       (λ _, addStepM w
               (lit "Warning: Could not find hotel title selector, continuing anyway")
               JUndefined)).
Proof.
  apply returns_try_catch.
  - by apply (inv_call any_event browser_set browser_set_stable).
  - intros e. apply (returns_addStepM any_event browser_set browser_set_stable).
Qed.

Lemma after_response_wrong_page (w : World) (url : jsval) (status : N) :
  status ≠ 403 → status ≠ 404 → includes (w_url_final w) marker = false →
  hoare browser_set (after_response w url status) (λ _ _, False)
    (λ e st, browser_set st ∧
             e = Error (lit "Final URL is not a hotel page: " ++ w_url_final w)).
Proof.
  intros H3 H4 Hf. unfold after_response. cbv zeta. rewrite Hf. simpl negb.
  apply hoare_bind_returns;
    [apply (returns_addStepM any_event browser_set browser_set_stable)|intros ?].
  apply hoare_bind_returns; [apply returns_title_wait|intros ?].
  apply hoare_bind_returns; [by apply returns_check_status|intros ?].
  apply hoare_bind_returns;
    [apply (returns_handle_soft_block any_event browser_set browser_set_stable),
       any_event_allowed|intros ?].
  apply hoare_bind_returns;
    [apply (returns_addStepM any_event browser_set browser_set_stable)|intros ?].
  apply (hoare_bind _ (λ _ _, False)); [|intros ?; apply hoare_false].
  by apply hoare_throw.
Qed.

(** X12. When the browser launches, the page configures and the response
    passes the status check, a page whose final url does not contain the
    hotel-path marker makes the scrape fail with the message
    [Final URL is not a hotel page:] followed by that url, whatever the title
    wait, the captcha wait and the rest of the page would have given. *)
Theorem wrong_page_is_fatal (w : World) (url : jsval) (status : N) :
  setup_ok w → w_goto w = Ret (Some status) →
  status ≠ 403 → status ≠ 404 →
  includes (w_url_final w) marker = false →
  (run_scrape w url).1
    = Ret (Failure (lit "Final URL is not a hotel page: " ++ w_url_final w)).
Proof.
  intros Hok Hg H3 H4 Hf. rewrite run_scrape_completion.
  destruct (scrape_try_goto w url Hok) as (st' & -> & Hb & _). rewrite Hg.
  pose proof (after_response_wrong_page w url status H3 H4 Hf st' Hb) as H.
  destruct (after_response w url status st') as [[r|e] st2]; [done|].
  destruct H as [Hb2 ->]. destruct Hok as (_&_&_&_&_&_&_&Hc).
  by rewrite (completion_result _ _ _ tt).
Qed.

(** *** Failures are logged *)

Lemma scrape_try_only_success (w : World) (url : jsval) (r : scrape_result) :
  (scrape_try w url (initial w)).1 = Ret r → ∃ data, r = Success data.
Proof.
  destruct (scrape_try_launch w url) as (st0 & _ & _ & _ & ->).
  destruct (w_launch w) as [u|e]; [|done].
  pose proof (after_launch_gallery w url
                (mkState (st_diagnostics st0) [] true [EvLaunch]) eq_refl) as H.
  destruct (after_launch w url _) as [[r'|e] st]; [|done].
  intros [= ->]. destruct H as [hd ->]. by eexists.
Qed.

Lemma scrape_try_browser (w : World) (url : jsval) :
  st_browser (scrape_try w url (initial w)).2
    = match w_launch w with Ret _ => true | Throw _ => false end.
Proof.
  destruct (w_launch w) as [[]|e] eqn:Hl.
  - by destruct (scrape_try_launched w url tt Hl) as [[Hb _] _].
  - destruct (scrape_try_launch w url) as (st0 & _ & _ & _ & ->). by rewrite Hl.
Qed.

Lemma error_entry_fields (w : World) (n : nat) (e : jserror) :
  error_entry w n e !! lit "step" = Some (JStr (lit "Error")) ∧
  error_entry w n e !! lit "message" = Some (JStr (err_message e)).
Proof.
  unfold error_entry. rewrite !step_entry_lookup. unfold obj. cbn [List.map fst snd].
  cbn [own_props list_to_map foldr uncurry curry]. split.
  - rewrite lookup_insert_ne by done. rewrite lookup_insert_ne by done.
    rewrite lookup_empty. by rewrite lookup_insert_eq.
  - by rewrite lookup_insert_eq.
Qed.

(** X13. Whenever [scrapeHotelData] returns a failure, the error was thrown
    inside its [try] block, the failure carries the message of that error,
    and the steps that the function itself logs end with a step [Error]
    holding that message, followed by the step [Closing browser] when a
    browser had been launched (that step is appended after the result object
    was built, to the same diagnostics object). *)
Theorem failure_is_logged (w : World) (url : jsval) (m : jstring) :
  (run_scrape w url).1 = Ret (Failure m) →
  ∃ e pre,
    (scrape_try w url (initial w)).1 = Throw e ∧ err_message e = m ∧
    steps (st_diagnostics (run_scrape w url).2)
      = pre ++ error_entry w (length pre) e ::
               match w_launch w with
               | Ret _ => [closing_entry w (S (length pre))]
               | Throw _ => []
               end ∧
    error_entry w (length pre) e !! lit "step" = Some (JStr (lit "Error")) ∧
    error_entry w (length pre) e !! lit "message" = Some (JStr m).
Proof.
  rewrite run_scrape_completion.
  pose proof (scrape_try_only_success w url) as Hs.
  pose proof (scrape_try_browser w url) as Hb.
  destruct (scrape_try w url (initial w)) as [[r|e] [d g b t]]; simpl in Hb; subst b.
  - destruct (Hs r eq_refl) as [data ->]. unfold completion.
    destruct (w_launch w); simpl; [by destruct (w_close w)|done].
  - intros H. exists e, (steps d).
    destruct (error_entry_fields w (length (steps d)) e) as [F1 F2].
    unfold completion in *. destruct (w_launch w); simpl in *.
    + destruct (w_close w); [|done]. injection H as <-.
      split_and!; [done..| |done|done].
      simpl. rewrite length_app, Nat.add_1_r. by rewrite <- (assoc_L (++)).
    + injection H as <-. by split_and!.
Qed.

(** *** A failing [browser.close()] *)

(** X14. The [finally] block is not protected: when the browser was
    launched and [browser.close()] throws, [scrapeHotelData] throws that
    error whatever the [try] block had produced (a success included), and the
    handler, on a url that passed the check and that its log line could
    print, answers HTTP 500 with the generic error body holding the message
    of the close error.  A url that passed the check but cannot be printed
    never gets that far: the answer holds the error of the log line, and no
    browser is launched or closed. *)
Theorem close_failure_overrides_result (w : World) (body url : jsval) (u : unit)
    (e : jserror) :
  w_launch w = Ret u → w_close w = Throw e →
  (run_scrape w url).1 = Throw e ∧
  (get_prop body (lit "url") = Ret url →
   isValidBookingUrl url = Ret (JBool true) →
   (to_string_throws url = false →
    (post_scrape w body).1 = error_response e ∧
    status (post_scrape w body).1 = 500) ∧
   (to_string_throws url = true →
    post_scrape w body =
      (error_response (TypeError (lit "Cannot convert object to primitive value")),
       []))).
Proof.
  intros Hl Hc.
  assert ((run_scrape w url).1 = Throw e) as Hr.
  { rewrite run_scrape_completion. pose proof (scrape_try_browser w url) as Hb.
    rewrite Hl in Hb.
    destruct (scrape_try w url (initial w)) as [[r|e'] [d g b t]];
      simpl in Hb; subst b; unfold completion; simpl; by rewrite Hc. }
  split; [done|]. intros Hu Hv. split; intros Hs.
  - rewrite (post_scrape_scrapes w body url Hu Hv Hs). simpl. by rewrite Hr.
  - by apply (post_scrape_log_throws w body url).
Qed.

(** *** loadDynamicContent *)

Lemma click_tab_run (w : World) (selector name : string) (st : state) :
  click_tab w selector name st
    = (Ret tt,
       mkState (mkDiagnostics (sessionId (st_diagnostics st))
                  (steps (st_diagnostics st)
                     ++ tab_steps w name (length (steps (st_diagnostics st))))
                  (screenshots (st_diagnostics st)))
               (st_galleryImages st) (st_browser st)
               (st_trace st ++ tab_calls w selector name)).
Proof.
  destruct st as [[sid ss sh] g b t].
  unfold click_tab, try_catch, mbind, M_bind, delay, call, addStepM, addStep,
    tab_steps, tab_error, tab_calls.
  destruct (w_tab_wait w name) as [[]|e1]; [destruct (w_tab_click w name) as [[]|e2]|];
    cbn [st_diagnostics st_galleryImages st_browser st_trace steps sessionId screenshots];
    rewrite <- ?(assoc_L (++)), ?app_nil_r; reflexivity.
Qed.

Lemma tab_steps_length (w : World) (name : string) (n : nat) :
  length (tab_steps w name n) = if tab_failed w name then 1%nat else 0%nat.
Proof.
  unfold tab_steps, tab_error, tab_failed.
  by destruct (w_tab_wait w name) as [[]|?], (w_tab_click w name) as [[]|?].
Qed.

Lemma bind_click_tab {A} (w : World) (selector name : string) (k : unit → M A)
    (st : state) :
  (click_tab w selector name ≫= k) st = k tt (click_tab w selector name st).2.
Proof. unfold mbind, M_bind. by rewrite click_tab_run. Qed.

Lemma loadDynamicContent_run (w : World) (st : state) :
  loadDynamicContent w st
    = (Ret tt,
       (click_tab w "a[href=#reviews]" "Reviews"
          (click_tab w "a[href=#facilities]" "Facilities"
             (click_tab w "a[href=#rooms]" "Rooms" st).2).2).2).
Proof.
  unfold loadDynamicContent. rewrite !bind_click_tab.
  by rewrite (click_tab_run w "a[href=#reviews]").
Qed.

(** X15. [loadDynamicContent] never throws and always tries the three
    tabs, in the order Rooms, Facilities, Reviews: a tab whose selector is
    not found is not clicked, a tab that is clicked is followed by a delay of
    500 ms, and for every tab that could not be clicked the function logs one
    step holding the message of its error; it logs nothing else and changes
    nothing else. *)
Theorem loadDynamicContent_tries_every_tab (w : World) (st : state) :
  let r := loadDynamicContent w st in
  let n := length (steps (st_diagnostics st)) in
  let s1 := tab_steps w "Rooms" n in
  let s2 := tab_steps w "Facilities" (n + length s1) in
  let s3 := tab_steps w "Reviews" (n + length s1 + length s2) in
  r.1 = Ret tt ∧
  st_trace r.2 = st_trace st ++ tab_calls w "a[href=#rooms]" "Rooms"
                   ++ tab_calls w "a[href=#facilities]" "Facilities"
                   ++ tab_calls w "a[href=#reviews]" "Reviews" ∧
  steps (st_diagnostics r.2) = steps (st_diagnostics st) ++ s1 ++ s2 ++ s3 ∧
  length (s1 ++ s2 ++ s3)
    = length (filter (λ name, tab_failed w name = true)
                ["Rooms"; "Facilities"; "Reviews"]%string) ∧
  st_browser r.2 = st_browser st ∧ st_galleryImages r.2 = st_galleryImages st.
Proof.
  cbv zeta. rewrite loadDynamicContent_run, !click_tab_run.
  cbn [fst snd st_diagnostics st_galleryImages st_browser st_trace steps].
  rewrite ?length_app, <- ?(assoc_L (++)). split_and!; try done.
  rewrite !tab_steps_length, !filter_cons, filter_nil.
  by destruct (tab_failed w "Rooms"), (tab_failed w "Facilities"),
    (tab_failed w "Reviews").
Qed.

(** *** The captcha or redirect check *)

(** X16. The captcha or redirect check never throws, a timeout of the wait
    for navigation included.  A current url with the hotel-path marker and no
    [captcha] in it leaves the state untouched; otherwise the function waits
    five seconds, and it waits for a navigation exactly when the url contains
    [captcha].  It neither launches nor closes a browser and leaves the
    collected images alone. *)
Theorem soft_block_never_fatal (w : World) (url : jsval) (st : state) :
  let r := handle_soft_block w url st in
  r.1 = Ret tt ∧
  st_trace r.2 = st_trace st ++ soft_block_calls w ∧
  st_browser r.2 = st_browser st ∧ st_galleryImages r.2 = st_galleryImages st ∧
  (includes (w_url_current w) (lit "captcha") = false →
   includes (w_url_current w) marker = true → r.2 = st).
Proof.
  cbv zeta. unfold handle_soft_block, soft_block_calls. cbv zeta.
  destruct st as [d g b t].
  destruct (includes (w_url_current w) (lit "captcha")) eqn:Hc;
    destruct (includes (w_url_current w) marker) eqn:Hm;
    cbn [orb negb]; try destruct (w_waitForNavigation w) as [[]|?];
    rewrite ?bind_addStepM; unfold delay; rewrite ?bind_call_ret, ?bind_addStepM;
    unfold try_catch, mbind, M_bind, call, addStepM, mret, M_ret, logged, push;
    cbn [fst snd st_diagnostics st_galleryImages st_browser st_trace];
    (split_and!;
     [reflexivity|by rewrite <- ?(assoc_L (++)), ?app_nil_r|reflexivity|reflexivity
     |intros; first [discriminate|reflexivity]]).
Qed.

(** *** extractHotelData *)

(** X17. [extractHotelData] throws exactly when one of its two page
    evaluations rejects, and then rethrows that very error after logging a
    step [Error during extraction] with its message as the last step; the
    parsing of the rating never makes it throw.  When the parallel
    evaluation rejects, the rooms are not evaluated. *)
Theorem extractHotelData_rethrows (w : World) (st : state) :
  let r := extractHotelData w st in
  (∀ e, r.1 = Throw e ↔
        w_parallel w = Throw e ∨
        ((∃ u, w_parallel w = Ret u) ∧ w_rooms w = Throw e)) ∧
  (∀ e, r.1 = Throw e →
        ∃ pre, steps (st_diagnostics r.2)
                 = pre ++ [extraction_error_entry w (length pre) e] ∧
               extraction_error_entry w (length pre) e !! lit "message"
                 = Some (JStr (err_message e))) ∧
  (∀ e, w_parallel w = Throw e →
        st_trace r.2 = st_trace st ++ [EvEvaluate "Promise.all"]).
Proof.
  cbv zeta. destruct (extractRating_returns (pg_rating (w_page w))) as [rt Hrt].
  assert (∀ n e, extraction_error_entry w n e !! lit "message"
                 = Some (JStr (err_message e))) as Hmsg.
  { intros n e. unfold extraction_error_entry. rewrite step_entry_lookup.
    unfold obj. cbn [List.map fst snd own_props list_to_map foldr uncurry].
    by rewrite lookup_insert_eq. }
  destruct st as [[sid ss sh] g b t].
  unfold extractHotelData. cbv zeta.
  unfold try_catch, mbind at 1, M_bind at 1, addStepM at 1, mbind at 1, M_bind at 1,
    call at 1.
  cbn [st_diagnostics st_galleryImages st_browser st_trace].
  destruct (w_parallel w) as [[]|e1].
  - unfold mbind at 1, M_bind at 1, lift. rewrite Hrt.
    unfold mbind at 1, M_bind at 1, addStepM at 1.
    unfold mbind at 1, M_bind at 1, addStepM at 1.
    unfold mbind at 1, M_bind at 1, call at 1.
    cbn [st_diagnostics st_galleryImages st_browser st_trace].
    destruct (w_rooms w) as [[]|e2].
    + unfold mbind at 1, M_bind at 1, addStepM at 1, mret, M_ret.
      cbn [fst snd]. split_and!; [|done|done].
      intros e. split; [done|]. intros [?|[_ ?]]; done.
    + unfold mbind, M_bind, addStepM, throw.
      cbn [fst snd st_diagnostics st_galleryImages st_browser st_trace steps addStep].
      split_and!.
      * intros e. split; [intros [= ->]; right; split; [by exists tt|done]|].
        intros [?|[_ [= ->]]]; done.
      * intros e [= ->]. eexists. split; [|apply Hmsg]. reflexivity.
      * done.
  - unfold mbind, M_bind, addStepM, throw.
    cbn [fst snd st_diagnostics st_galleryImages st_browser st_trace steps addStep].
    split_and!.
    + intros e. split; [intros [= ->]; by left|].
      intros [[= ->]|[[? ?] _]]; done.
    + intros e [= ->]. eexists. split; [|apply Hmsg]. reflexivity.
    + done.
Qed.

(** *** The answers of the handler *)

Lemma respond_status (r : outcome scrape_result) (d : diagnostics) :
  (status (respond r d) = 200 ∨ status (respond r d) = 500) ∧
  (status (respond r d) = 200 ↔ ∃ data, r = Ret (Success data)) ∧
  (∀ data, Server.body (respond r d) = Data data → r = Ret (Success data)).
Proof.
  destruct r as [[data|m]|e]; simpl.
  - split_and!; [by left| |by intros ? [= ->]]. split; [by eexists|done].
  - split_and!; [by right| |done]. split; [done|by intros [? ?]].
  - split_and!; [by right| |done]. split; [done|by intros [? ?]].
Qed.

(** X18. The handler of [POST /scrape] answers with HTTP 200, 400 or 500
    and nothing else.  It answers 200 exactly when its body holds hotel data,
    and that happens only when the url of the request passed the validity
    check and [scrapeHotelData] returned a success with that data, whose
    gallery is then the list of the distinct image urls the request observer
    collected. *)
Theorem handler_answers (w : World) (req : jsval) :
  let r := (post_scrape w req).1 in
  (status r = 200 ∨ status r = 400 ∨ status r = 500) ∧
  (status r = 200 ↔ ∃ data, Server.body r = Data data) ∧
  (∀ data, Server.body r = Data data →
     ∃ url valid, get_prop req (lit "url") = Ret url ∧
                  isValidBookingUrl url = Ret valid ∧ truthy valid = true ∧
                  (run_scrape w url).1 = Ret (Success data) ∧
                  galleryImages data
                    = JsSet.of_list (observe_requests (w_requests w) [])).
Proof.
  cbv zeta. unfold post_scrape.
  destruct (get_prop req (lit "url")) as [url|e] eqn:Hu;
    [|simpl; split_and!; [by auto|split; [done|by intros [? ?]]|done]].
  destruct (isValidBookingUrl url) as [valid|e] eqn:Hi;
    [|simpl; split_and!; [by auto|split; [done|by intros [? ?]]|done]].
  destruct (truthy valid) eqn:Hv; cbn [negb];
    [|simpl; split_and!; [by auto|split; [done|by intros [? ?]]|done]].
  destruct (log_start url) as [[]|e];
    [|simpl; split_and!; [by auto|split; [done|by intros [? ?]]|done]].
  destruct (run_scrape w url) as [r st] eqn:Hrun. cbn [fst].
  destruct (respond_status r (st_diagnostics st)) as (H1 & H2 & H3).
  split_and!.
  - destruct H1; auto.
  - rewrite H2. split.
    + intros [data ->]. by exists data.
    + intros [data Hd]. exists data. by apply H3.
  - intros data Hd. apply H3 in Hd. subst r. exists url, valid.
    split_and!; [done|done|done|by rewrite Hrun|].
    apply (run_scrape_gallery w url). by rewrite Hrun.
Qed.

Lemma wrong_page_is_fatal_witness :
  (run_scrape redirected_world sample_url).1 = Ret (Failure wrong_page_message).
Proof.
  apply (wrong_page_is_fatal redirected_world sample_url 200).
  - by split_and!.
  - reflexivity.
  - done.
  - done.
  - by vm_compute.
Defined.

Lemma failure_is_logged_witness :
  ∃ e pre,
    (scrape_try redirected_world sample_url (initial redirected_world)).1 = Throw e ∧
    err_message e = wrong_page_message ∧
    steps (st_diagnostics (run_scrape redirected_world sample_url).2)
      = pre ++ error_entry redirected_world (length pre) e ::
               match w_launch redirected_world with
               | Ret _ => [closing_entry redirected_world (S (length pre))]
               | Throw _ => []
               end ∧
    error_entry redirected_world (length pre) e !! lit "step"
      = Some (JStr (lit "Error")) ∧
    error_entry redirected_world (length pre) e !! lit "message"
      = Some (JStr wrong_page_message).
Proof.
  apply (failure_is_logged redirected_world sample_url wrong_page_message).
  by vm_compute.
Defined.

Lemma close_failure_overrides_result_witness :
  (run_scrape close_fails_world sample_url).1 = Throw close_error ∧
  (post_scrape close_fails_world (url_body sample_url)).1 = error_response close_error ∧
  post_scrape close_fails_world (url_body unprintable_url)
    = (error_response (TypeError (lit "Cannot convert object to primitive value")), []).
Proof.
  destruct (close_failure_overrides_result close_fails_world (url_body sample_url)
              sample_url tt close_error eq_refl eq_refl) as [H1 H2].
  split; [exact H1|]. split.
  - apply H2; by vm_compute.
  - apply (close_failure_overrides_result close_fails_world
             (url_body unprintable_url) unprintable_url tt close_error eq_refl eq_refl);
      by vm_compute.
Defined.

Lemma soft_block_never_fatal_witness :
  (handle_soft_block redirected_world sample_url (initial redirected_world)).2
    = initial redirected_world.
Proof.
  apply (soft_block_never_fatal redirected_world sample_url (initial redirected_world));
    by vm_compute.
Defined.

Lemma extractHotelData_rethrows_witness :
  st_trace (extractHotelData evaluate_fails_world (initial evaluate_fails_world)).2
    = [EvEvaluate "Promise.all"].
Proof.
  apply (proj2 (proj2 (extractHotelData_rethrows evaluate_fails_world
                         (initial evaluate_fails_world))) evaluate_error).
  reflexivity.
Defined.

Lemma handler_answers_witness :
  ∃ url valid,
    get_prop (url_body sample_url) (lit "url") = Ret url ∧
    isValidBookingUrl url = Ret valid ∧ truthy valid = true ∧
    (run_scrape (sample_world (Some 200) [request_once]) url).1
      = Ret (Success data_once) ∧
    galleryImages data_once
      = JsSet.of_list
          (observe_requests (w_requests (sample_world (Some 200) [request_once])) []).
Proof.
  apply (proj2 (proj2 (handler_answers (sample_world (Some 200) [request_once])
                         (url_body sample_url))) data_once).
  by vm_compute.
Defined.

End FlowFacts.

(** ** scraper.js: the record returned and the log *)

Module ResultFacts.
Import Extractors Scraper Server Spec ResultSpec.
Import StringFacts UtilsFacts RatingFacts HoareFacts ScrapeFacts.

Lemma hoare_any {A} (P : state → Prop) (m : M A) :
  hoare P m (λ _ _, True) (λ _ _, True).
Proof. intros st _. by destruct (m st) as [[a|e] st']. Qed.

Lemma extractHotelData_value (w : World) :
  hoare (λ _, True) (extractHotelData w) (λ hd _, hd = page_data w) (λ _ _, True).
Proof.
  intros st _. destruct (extractRating_returns (pg_rating (w_page w))) as [rt Hrt].
  unfold page_data. cbv zeta. rewrite Hrt.
  destruct st as [[sid ss sh] g b t].
  unfold extractHotelData. cbv zeta.
  unfold try_catch, mbind at 1, M_bind at 1, addStepM at 1, mbind at 1, M_bind at 1,
    call at 1.
  cbn [st_diagnostics st_galleryImages st_browser st_trace].
  destruct (w_parallel w) as [[]|e1]; [|done].
  unfold mbind at 1, M_bind at 1, lift. rewrite Hrt.
  unfold mbind at 1, M_bind at 1, addStepM at 1.
  unfold mbind at 1, M_bind at 1, addStepM at 1.
  unfold mbind at 1, M_bind at 1, call at 1.
  cbn [st_diagnostics st_galleryImages st_browser st_trace].
  by destruct (w_rooms w) as [[]|e2].
Qed.

(** The rating of the record is what [extractRating] resolves to when the
    parallel evaluations get through to the page. *)
Lemma extractHotelData_rating (w : World) (st : state) (hd : hotelData) :
  (extractHotelData w st).1 = Ret hd →
  extractRating_evaluate (w_parallel w) (pg_rating (w_page w)) = Ret (rating hd).
Proof.
  destruct (extractRating_returns (pg_rating (w_page w))) as [rt Hrt].
  unfold extractRating_evaluate, page_evaluate. rewrite Hrt.
  destruct st as [[sid ss sh] g b t].
  unfold extractHotelData. cbv zeta.
  unfold try_catch, mbind at 1, M_bind at 1, addStepM at 1, mbind at 1, M_bind at 1,
    call at 1.
  cbn [st_diagnostics st_galleryImages st_browser st_trace].
  destruct (w_parallel w) as [[]|e1]; [|done].
  unfold mbind at 1, M_bind at 1, lift. rewrite Hrt.
  unfold mbind at 1, M_bind at 1, addStepM at 1.
  unfold mbind at 1, M_bind at 1, addStepM at 1.
  unfold mbind at 1, M_bind at 1, call at 1.
  cbn [st_diagnostics st_galleryImages st_browser st_trace].
  destruct (w_rooms w) as [[]|e2]; [|done]. by intros [= <-].
Qed.

Lemma after_response_value (w : World) (url : jsval) (status : N) :
  hoare (λ _, True) (after_response w url status)
    (λ r _, ∃ g, r = Success (with_galleryImages (page_data w) g)) (λ _ _, True).
Proof.
  unfold after_response. cbv zeta.
  repeat lazymatch goal with
  | |- hoare _ (extractHotelData _ ≫= _) _ _ => idtac
  | |- hoare _ (_ ≫= _) _ _ =>
      apply (hoare_bind _ (λ _ _, True)); [apply hoare_any|intros ?]
  end.
  apply (hoare_bind _ (λ hd _, hd = page_data w)); [apply extractHotelData_value|].
  intros hd st ->. unfold mbind, M_bind, get_galleryImages, addStepM, mret, M_ret.
  by eexists.
Qed.

Lemma after_launch_value (w : World) (url : jsval) :
  hoare (λ _, True) (after_launch w url)
    (λ r _, ∃ g, r = Success (with_galleryImages (page_data w) g)) (λ _ _, True).
Proof.
  unfold after_launch.
  repeat lazymatch goal with
  | |- hoare _ (_ ≫= _) _ _ =>
      apply (hoare_bind _ (λ _ _, True)); [apply hoare_any|intros ?]
  end.
  lazymatch goal with
  | |- hoare _ (match ?r with _ => _ end) _ _ => destruct r as [status|]
  end; [apply after_response_value|by apply hoare_throw].
Qed.

(** X25. The record of a successful scrape is what the extractors give on
    the loaded page, with the empty gallery that [extractHotelData] returns
    replaced by the distinct image urls that the request observer collected:
    no other field is touched on the way from the page to the caller. *)
Theorem success_is_page_data (w : World) (url : jsval) (data : hotelData) :
  (run_scrape w url).1 = Ret (Success data) →
  data = with_galleryImages (page_data w)
           (JsSet.of_list (observe_requests (w_requests w) [])) ∧
  galleryImages (page_data w) = [] ∧
  hotelName data = pg_hotelName (w_page w) ∧
  rooms data = (extractRooms (pg_rooms (w_page w)) (pg_d0 (w_page w))).1.1 ∧
  reviews data = extractReviews (pg_reviews (w_page w)).
Proof.
  intros H. pose proof (run_scrape_gallery w url data H) as Hg.
  rewrite run_scrape_completion in H. apply completion_success in H.
  destruct (scrape_try_launch w url) as (st0 & _ & _ & _ & Heq).
  rewrite Heq in H. destruct (w_launch w) as [u|e]; [|done].
  pose proof (after_launch_value w url
                (mkState (st_diagnostics st0) [] true [EvLaunch]) I) as Hv.
  destruct (after_launch w url _) as [[r|e] st]; [|done].
  simpl in H. injection H as ->. destruct Hv as [g [= ->]].
  simpl in Hg. by subst g.
Qed.

(** *** The log only grows *)

Lemma grows_refl (d : diagnostics) : grows d d.
Proof. split_and!; [done..|]. exists []. by rewrite app_nil_r. Qed.

Lemma grows_trans (d1 d2 d3 : diagnostics) : grows d1 d2 → grows d2 d3 → grows d1 d3.
Proof.
  intros (H1 & H2 & m1 & H3) (H4 & H5 & m2 & H6).
  split_and!; [congruence..|]. exists (m1 ++ m2).
  by rewrite H6, H3, <- (assoc_L (++)).
Qed.

Lemma grows_addStep now step details (d : diagnostics) :
  grows d (addStep now step details d).
Proof. split_and!; [done..|]. by eexists. Qed.

Section KeepsLog.
Context {A : Type}.

Lemma keeps_ret (a : A) : keeps_log (mret a).
Proof. intros st. apply grows_refl. Qed.

Lemma keeps_throw (e : jserror) : keeps_log (throw e : M A).
Proof. intros st. apply grows_refl. Qed.

Lemma keeps_lift (o : outcome A) : keeps_log (lift o).
Proof. intros st. apply grows_refl. Qed.

Lemma keeps_call ev (o : outcome A) : keeps_log (call ev o).
Proof. intros st. apply grows_refl. Qed.

Lemma keeps_bind {B} (m : M A) (k : A → M B) :
  keeps_log m → (∀ a, keeps_log (k a)) → keeps_log (m ≫= k).
Proof.
  intros Hm Hk st. specialize (Hm st). unfold mbind, M_bind.
  destruct (m st) as [[a|e] st']; [|done].
  by apply (grows_trans _ _ _ Hm), Hk.
Qed.

Lemma keeps_try_catch (m : M A) h :
  keeps_log m → (∀ e, keeps_log (h e)) → keeps_log (try_catch m h).
Proof.
  intros Hm Hh st. specialize (Hm st). unfold try_catch.
  destruct (m st) as [[a|e] st']; [done|].
  by apply (grows_trans _ _ _ Hm), Hh.
Qed.

Lemma keeps_try_finally (m : M A) f :
  keeps_log m → keeps_log f → keeps_log (try_finally m f).
Proof.
  intros Hm Hf st. specialize (Hm st). unfold try_finally.
  destruct (m st) as [r st']. specialize (Hf st').
  destruct (f st') as [[[]|e] st'']; by apply (grows_trans _ _ _ Hm).
Qed.
End KeepsLog.

Lemma keeps_addStepM (w : World) step details : keeps_log (addStepM w step details).
Proof. intros st. apply grows_addStep. Qed.

Lemma keeps_launch (w : World) : keeps_log (launch w).
Proof. intros st. unfold launch. destruct (w_launch w); apply grows_refl. Qed.

Lemma keeps_goto (w : World) url : keeps_log (goto w url).
Proof. intros st. apply grows_refl. Qed.

Lemma keeps_get_galleryImages : keeps_log get_galleryImages.
Proof. intros st. apply grows_refl. Qed.

Lemma keeps_get_browser : keeps_log get_browser.
Proof. intros st. apply grows_refl. Qed.

Ltac keeps_step :=
  lazymatch goal with
  | |- keeps_log (_ ≫= _) => apply keeps_bind; [|intros ?]
  | |- keeps_log (try_catch _ _) => apply keeps_try_catch; [|intros ?]
  | |- keeps_log (try_finally _ _) => apply keeps_try_finally
  | |- keeps_log (addStepM _ _ _) => apply keeps_addStepM
  | |- keeps_log (delay _) => apply keeps_call
  | |- keeps_log (call _ _) => apply keeps_call
  | |- keeps_log (throw _) => apply keeps_throw
  | |- keeps_log (mret _) => apply keeps_ret
  | |- keeps_log (lift _) => apply keeps_lift
  | |- keeps_log (launch _) => apply keeps_launch
  | |- keeps_log (goto _ _) => apply keeps_goto
  | |- keeps_log get_galleryImages => apply keeps_get_galleryImages
  | |- keeps_log get_browser => apply keeps_get_browser
  | |- keeps_log (if ?b then _ else _) => destruct b
  | |- keeps_log (match ?x with _ => _ end) => destruct x
  end.

Lemma keeps_click_tab (w : World) selector name : keeps_log (click_tab w selector name).
Proof. unfold click_tab. repeat keeps_step. Qed.

Lemma keeps_loadDynamicContent (w : World) : keeps_log (loadDynamicContent w).
Proof.
  unfold loadDynamicContent.
  repeat (apply keeps_bind; [apply keeps_click_tab|intros ?]). apply keeps_click_tab.
Qed.

Lemma keeps_extractHotelData (w : World) : keeps_log (extractHotelData w).
Proof. unfold extractHotelData. cbv zeta. repeat keeps_step. Qed.

Lemma keeps_check_status (status : N) : keeps_log (check_status status).
Proof. unfold check_status. repeat keeps_step. Qed.

Lemma keeps_handle_soft_block (w : World) url : keeps_log (handle_soft_block w url).
Proof. unfold handle_soft_block. cbv zeta. repeat keeps_step. Qed.

Ltac keeps_known :=
  lazymatch goal with
  | |- keeps_log (loadDynamicContent _) => apply keeps_loadDynamicContent
  | |- keeps_log (extractHotelData _) => apply keeps_extractHotelData
  | |- keeps_log (check_status _) => apply keeps_check_status
  | |- keeps_log (handle_soft_block _ _) => apply keeps_handle_soft_block
  | _ => keeps_step
  end.

Lemma keeps_after_response (w : World) url status :
  keeps_log (after_response w url status).
Proof. unfold after_response. cbv zeta. repeat keeps_known. Qed.

Lemma keeps_after_launch (w : World) url : keeps_log (after_launch w url).
Proof.
  unfold after_launch.
  repeat lazymatch goal with
  | |- keeps_log (match ?x with Some _ => _ | None => _ end) =>
      destruct x; [apply keeps_after_response|apply keeps_throw]
  | _ => keeps_step
  end.
Qed.

Lemma keeps_finish (w : World) (url : jsval) :
  keeps_log
    (try_finally
       (try_catch (launch w;; after_launch w url)
          (fun error =>
             addStepM w (lit "Error")
                      (obj [("message", JStr (err_message error));
                            ("stack", w_stack w error)]%string);;
             mret (Failure (err_message error))))
       (get_browser ≫= fun browser : bool =>
        if browser then
          addStepM w (lit "Closing browser") JUndefined;;
          call EvClose (w_close w)
        else mret tt)).
Proof.
  apply keeps_try_finally; [apply keeps_try_catch|].
  - apply keeps_bind; [apply keeps_launch|intros ?; apply keeps_after_launch].
  - intros e. repeat keeps_step.
  - repeat keeps_step.
Qed.

Lemma scrapeHotelData_first_step (w : World) (url : jsval) (st : state) :
  ∃ k : M scrape_result,
    keeps_log k ∧
    scrapeHotelData w url st
      = k (logged w (lit "Initialization") (obj [("url", url)]%string) st).
Proof. eexists. split; [apply (keeps_finish w url)|reflexivity]. Qed.

(** X26. [scrapeHotelData] only ever appends to the diagnostics: the
    session id is kept, no screenshot is ever recorded, and no step, once
    logged, is removed or changed, on any path.  The diagnostics returned to
    the caller therefore start with the step [Initialization] that holds the
    url of the request, whatever happens afterwards. *)
Theorem diagnostics_only_grow (w : World) (url : jsval) :
  (∀ st, grows (st_diagnostics st) (st_diagnostics (scrapeHotelData w url st).2)) ∧
  sessionId (st_diagnostics (run_scrape w url).2) = w_sessionId w ∧
  screenshots (st_diagnostics (run_scrape w url).2) = [] ∧
  ∃ more,
    steps (st_diagnostics (run_scrape w url).2)
      = step_entry (w_now w 0) (lit "Initialization") (obj [("url", url)]%string)
          :: more.
Proof.
  assert (∀ st, grows (st_diagnostics (logged w (lit "Initialization")
                                         (obj [("url", url)]%string) st))
                  (st_diagnostics (scrapeHotelData w url st).2)) as H.
  { intros st. destruct (scrapeHotelData_first_step w url st) as (k & Hk & ->).
    apply Hk. }
  split.
  - intros st. eapply grows_trans; [|apply H]. apply grows_addStep.
  - destruct (H (initial w)) as (H1 & H2 & more & H3).
    unfold run_scrape. rewrite H1, H2, H3. split_and!; [done..|]. by exists more.
Qed.

Lemma success_is_page_data_witness :
  data_once
    = with_galleryImages (page_data (sample_world (Some 200) [request_once]))
        (JsSet.of_list
           (observe_requests (w_requests (sample_world (Some 200) [request_once])) [])) ∧
  galleryImages (page_data (sample_world (Some 200) [request_once])) = [] ∧
  hotelName data_once = pg_hotelName (w_page (sample_world (Some 200) [request_once])) ∧
  rooms data_once
    = (extractRooms (pg_rooms (w_page (sample_world (Some 200) [request_once])))
         (pg_d0 (w_page (sample_world (Some 200) [request_once])))).1.1 ∧
  reviews data_once
    = extractReviews (pg_reviews (w_page (sample_world (Some 200) [request_once]))).
Proof.
  apply (success_is_page_data (sample_world (Some 200) [request_once]) sample_url).
  by vm_compute.
Defined.

End ResultFacts.

(** ** utils.js: autoScroll *)

Module AutoScrollFacts.
Import AutoScroll Samples.

Lemma scroll_loop_spec (scrollHeight : nat → N) (fuel tick : nat) (totalHeight r : N)
    (n : nat) :
  scroll_loop fuel scrollHeight tick totalHeight = Some (r, n) →
  (tick < n ≤ tick + fuel)%nat ∧
  r = totalHeight + distance * N.of_nat (n - tick) ∧
  scrollHeight (n - 1)%nat ≤ r ∧
  ∀ k, (tick ≤ k < n - 1)%nat →
       totalHeight + distance * N.of_nat (k - tick + 1) < scrollHeight k.
Proof.
  revert tick totalHeight. induction fuel as [|fuel IH]; intros tick total; simpl; [done|].
  destruct (scrollHeight tick <=? total + distance) eqn:E.
  - intros [= <- <-]. apply N.leb_le in E.
    replace (S tick - 1)%nat with tick by lia.
    replace (S tick - tick)%nat with 1%nat by lia.
    split_and!; [lia|lia|unfold distance; lia|done|intros k Hk; lia].
  - intros H. apply N.leb_gt in E. apply IH in H as (Hn & -> & Hr & Hk).
    split_and!; [lia|lia|unfold distance; lia|done|].
    intros k Hk'. destruct (decide (k = tick)) as [->|Hne].
    + replace (tick - tick + 1)%nat with 1%nat by lia. unfold distance in *. lia.
    + specialize (Hk k ltac:(lia)).
      replace (k - tick + 1)%nat with (S (k - S tick + 1)) by lia.
      unfold distance in *. lia.
Qed.

Lemma scroll_loop_bounded (scrollHeight : nat → N) (B : N) (fuel tick : nat) :
  (∀ k, scrollHeight k ≤ B) →
  (tick ≤ N.to_nat (B / distance))%nat →
  (N.to_nat (B / distance) < tick + fuel)%nat →
  ∃ r n, scroll_loop fuel scrollHeight tick (distance * N.of_nat tick) = Some (r, n) ∧
         (n ≤ N.to_nat (B / distance) + 1)%nat.
Proof.
  intros HB. revert tick. induction fuel as [|fuel IH]; intros tick Ht Hf; [lia|].
  simpl. destruct (scrollHeight tick <=? _) eqn:E.
  - eexists _, _. split; [done|lia].
  - apply N.leb_gt in E.
    assert (N.of_nat (S tick) ≤ B / distance) as Hle.
    { apply N.div_le_lower_bound; [done|]. pose proof (HB tick).
      unfold distance in *. lia. }
    replace (distance * N.of_nat tick + distance) with (distance * N.of_nat (S tick))
      by (unfold distance; lia).
    apply IH; lia.
Qed.

Lemma scroll_loop_growing (scrollHeight : nat → N) (fuel tick : nat) :
  (∀ k, distance * (N.of_nat k + 1) < scrollHeight k) →
  scroll_loop fuel scrollHeight tick (distance * N.of_nat tick) = None.
Proof.
  intros Hg. revert tick. induction fuel as [|fuel IH]; intros tick; [done|].
  simpl. pose proof (Hg tick) as Ht.
  replace (distance * N.of_nat tick + distance) with (distance * N.of_nat (S tick))
    by (unfold distance; lia).
  destruct (scrollHeight tick <=? _) eqn:E.
  - apply N.leb_le in E. unfold distance in *. lia.
  - apply IH.
Qed.

(** X19. When [autoScroll] resolves it has scrolled down by 100 pixels at
    least once, at every tick up to and including the first one at which the
    total scrolled so far reaches the page height read at that tick (at no
    earlier tick did it), and its last action is the scroll back to the
    top. *)
Theorem autoScroll_stops_at_first_reach (fuel : nat) (scrollHeight : nat → N)
    (evs : list scroll_event) :
  autoScroll fuel scrollHeight = Some evs →
  ∃ ticks, (1 ≤ ticks ≤ fuel)%nat ∧
           evs = replicate ticks (ScrollBy 0 distance) ++ [ScrollTo 0 0] ∧
           scrollHeight (ticks - 1)%nat ≤ distance * N.of_nat ticks ∧
           ∀ k, (k < ticks - 1)%nat → distance * N.of_nat (k + 1) < scrollHeight k.
Proof.
  unfold autoScroll.
  destruct (scroll_loop fuel scrollHeight 0 0) as [[r n]|] eqn:E; [|done].
  intros [= <-]. apply scroll_loop_spec in E as (Hn & -> & Hr & Hk).
  exists n. rewrite Nat.sub_0_r, N.add_0_l in Hr. split_and!; [lia|lia|done|done|].
  intros k Hlt. specialize (Hk k ltac:(lia)).
  by rewrite Nat.sub_0_r, N.add_0_l in Hk.
Qed.

(** X20. On a page whose height never exceeds [B] pixels [autoScroll]
    resolves, after at most [B / 100 + 1] scrolls down and the scroll back to
    the top. *)
Theorem autoScroll_resolves_on_bounded_page (fuel : nat) (scrollHeight : nat → N)
    (B : N) :
  (∀ k, scrollHeight k ≤ B) →
  (N.to_nat (B / distance) < fuel)%nat →
  ∃ evs, autoScroll fuel scrollHeight = Some evs ∧
         (length evs ≤ N.to_nat (B / distance) + 2)%nat.
Proof.
  intros HB Hf. unfold autoScroll.
  destruct (scroll_loop_bounded scrollHeight B fuel 0 HB) as (r & n & E & Hn);
    [apply Nat.le_0_l|done|].
  change (distance * N.of_nat 0) with 0 in E. rewrite E.
  eexists. split; [done|]. rewrite length_app, length_replicate. simpl. lia.
Qed.

(** X21. The function has no bound of its own: on a page that grows ahead
    of the scrolling (its height read at every tick exceeds the total
    scrolled by then) the timer is never cleared, whatever the number of
    ticks allowed, so the promise never resolves. *)
Theorem autoScroll_never_resolves_on_growing_page (scrollHeight : nat → N) :
  (∀ k, distance * (N.of_nat k + 1) < scrollHeight k) →
  ∀ fuel, autoScroll fuel scrollHeight = None.
Proof.
  intros Hg fuel. unfold autoScroll.
  pose proof (scroll_loop_growing scrollHeight fuel 0 Hg) as E.
  change (distance * N.of_nat 0) with 0 in E. by rewrite E.
Qed.

Lemma autoScroll_stops_at_first_reach_witness :
  ∃ ticks, (1 ≤ ticks ≤ 5)%nat ∧
           replicate 3 (ScrollBy 0 distance) ++ [ScrollTo 0 0]
             = replicate ticks (ScrollBy 0 distance) ++ [ScrollTo 0 0] ∧
           short_page (ticks - 1)%nat ≤ distance * N.of_nat ticks ∧
           ∀ k, (k < ticks - 1)%nat → distance * N.of_nat (k + 1) < short_page k.
Proof.
  apply (autoScroll_stops_at_first_reach 5 short_page). reflexivity.
Defined.

Lemma autoScroll_resolves_on_bounded_page_witness :
  ∃ evs, autoScroll 3 short_page = Some evs ∧
         (length evs ≤ N.to_nat (250 / distance) + 2)%nat.
Proof.
  apply (autoScroll_resolves_on_bounded_page 3 short_page 250).
  - intros k. unfold short_page. lia.
  - vm_compute. lia.
Defined.

Lemma autoScroll_never_resolves_on_growing_page_witness :
  autoScroll 1000 endless_page = None.
Proof.
  apply (autoScroll_never_resolves_on_growing_page endless_page).
  intros k. unfold endless_page, distance. lia.
Defined.

End AutoScrollFacts.

(** ** config.js *)

Module ConfigFacts.
Import Config Samples NumberFacts PageFacts.

Lemma is_digit_bounds (c : N) : is_digit c = true → 48 ≤ c ≤ 57.
Proof.
  unfold is_digit. intros [H1 H2]%andb_true_iff. apply N.leb_le in H1, H2. lia.
Qed.

Lemma parseInt10_unsigned (ws ds rest : jstring) :
  Forall (λ c, is_ws c = true) ws → ds ≠ [] →
  Forall (λ c, is_digit c = true) ds →
  (∀ c, head rest = Some c → is_digit c = false) →
  parseInt10 (ws ++ ds ++ rest) = signed false (round_double (digits_value ds)).
Proof.
  intros Hws Hne Hds Hrest. unfold parseInt10.
  destruct ds as [|d ds]; [done|]. apply Forall_cons in Hds as Hd. destruct Hd as [Hd _].
  rewrite (proj2 (take_while_run is_ws ws ((d :: ds) ++ rest) Hws
                    ltac:(intros c [= <-]; by apply digit_not_ws))).
  apply is_digit_bounds in Hd as Hb.
  cbn [app]. replace (d =? 45) with false by (symmetry; apply N.eqb_neq; lia).
  replace (d =? 43) with false by (symmetry; apply N.eqb_neq; lia).
  change (d :: ds ++ rest) with ((d :: ds) ++ rest).
  by rewrite (proj1 (take_while_run is_digit (d :: ds) rest Hds Hrest)).
Qed.

Lemma parseInt10_signed (ws ds rest : jstring) (sign : N) :
  sign = 45 ∨ sign = 43 →
  Forall (λ c, is_ws c = true) ws → ds ≠ [] →
  Forall (λ c, is_digit c = true) ds →
  (∀ c, head rest = Some c → is_digit c = false) →
  parseInt10 (ws ++ sign :: ds ++ rest)
    = signed (sign =? 45) (round_double (digits_value ds)).
Proof.
  intros Hs Hws Hne Hds Hrest. unfold parseInt10.
  rewrite (proj2 (take_while_run is_ws ws (sign :: ds ++ rest) Hws
                    ltac:(intros c [= <-]; by destruct Hs as [->| ->]))).
  destruct Hs as [-> | ->]; cbv beta iota;
    change (45 =? 45) with true; change (43 =? 45) with false;
    change (43 =? 43) with true; cbv beta iota;
    rewrite (proj1 (take_while_run is_digit ds rest Hds Hrest));
    by destruct ds.
Qed.

(** X22. [parseInt(s, 10)] as the configuration uses it reads a number at
    the start of the value and ignores what follows it: after optional white
    space and one optional sign, a non-empty run of digits followed by
    anything that does not start with a digit is read as the double nearest
    to the number written, negated after a minus sign.  Below 2^53 that is
    the number itself, so a setting such as a port followed by stray text is
    accepted, and so is a negative one; from 2^1024 on it is an infinity,
    which is kept as the setting. *)
Theorem parseInt10_reads_leading_number (ws ds rest : jstring) :
  Forall (λ c, is_ws c = true) ws → ds ≠ [] →
  Forall (λ c, is_digit c = true) ds →
  (∀ c, head rest = Some c → is_digit c = false) →
  let d := round_double (digits_value ds) in
  let v := Z.of_N (digits_value ds) in
  parseInt10 (ws ++ ds ++ rest) = signed false d ∧
  parseInt10 (ws ++ 43 :: ds ++ rest) = signed false d ∧
  parseInt10 (ws ++ 45 :: ds ++ rest) = signed true d ∧
  (digits_value ds < 2 ^ 53 →
     parseInt10 (ws ++ ds ++ rest) = Int v ∧
     parseInt10 (ws ++ 43 :: ds ++ rest) = Int v ∧
     parseInt10 (ws ++ 45 :: ds ++ rest) = Int (- v) ∧
     ∀ fallback, int_setting (Some (ws ++ 45 :: ds ++ rest)) fallback
                 = Int (if (v =? 0)%Z then fallback else (- v)%Z)) ∧
  (2 ^ 1024 ≤ digits_value ds →
     parseInt10 (ws ++ ds ++ rest) = IntInfinity false ∧
     parseInt10 (ws ++ 45 :: ds ++ rest) = IntInfinity true ∧
     ∀ fallback, int_setting (Some (ws ++ ds ++ rest)) fallback = IntInfinity false).
Proof.
  intros Hws Hne Hds Hrest d v.
  pose proof (parseInt10_unsigned ws ds rest Hws Hne Hds Hrest) as H0.
  pose proof (parseInt10_signed ws ds rest 43 ltac:(by right) Hws Hne Hds Hrest) as H1.
  pose proof (parseInt10_signed ws ds rest 45 ltac:(by left) Hws Hne Hds Hrest) as H2.
  change (43 =? 45) with false in H1. change (45 =? 45) with true in H2.
  fold d in H0, H1, H2. split_and!; [done..| |].
  - intros Hlt. unfold int_setting. rewrite H0, H1, H2. unfold d.
    rewrite (round_double_exact _ Hlt). cbn [signed]. fold v.
    split_and!; [done..|]. intros fallback.
    destruct (Z.eqb_spec v 0) as [->|Hv]; [done|].
    by destruct (Z.eqb_spec (- v) 0); [lia|].
  - intros Hge. unfold int_setting. rewrite H0, H2. unfold d.
    by rewrite (round_double_infinity _ Hge).
Qed.




Lemma parseInt10_reads_leading_number_witness :
  (parseInt10 (lit " 8080abc") = Int 8080 ∧
   parseInt10 (lit " +8080abc") = Int 8080 ∧
   parseInt10 (lit " -8080abc") = Int (-8080) ∧
   int_setting (Some (lit " -8080abc")) 3000 = Int (-8080)) ∧
  parseInt10 (lit "9007199254740993") = Int 9007199254740992.
Proof.
  split.
  - destruct (parseInt10_reads_leading_number (lit " ") (lit "8080") (lit "abc"))
      as (_ & _ & _ & H & _).
    + repeat constructor.
    + done.
    + repeat constructor.
    + intros c [= <-]. reflexivity.
    + destruct (H eq_refl) as (H1 & H2 & H3 & H4).
      split_and!; [exact H1|exact H2|exact H3|exact (H4 3000%Z)].
  - destruct (parseInt10_reads_leading_number [] (lit "9007199254740993") [])
      as (H & _).
    + constructor.
    + done.
    + repeat constructor.
    + done.
    + etrans; [exact H|]. by vm_compute.
Defined.


End ConfigFacts.
